(** * bidimensional: cubic splines, circumcircles and lines

    A shallow embedding of [src/bidimensional/spline.py] (classes [Spline],
    [Spline2DBase] and [Spline2D]), of [src/bidimensional/circumcircle.py]
    (class [Circumcircle]) and of [src/bidimensional/core/lines.py] (class
    [Line]), with the properties of the specification, and further
    properties of the code, stated and proved over it.

    Numbers.  The Python code computes with numpy [float64] values.  They
    are idealised here as the real numbers of the Standard Library: sums,
    products, quotients, square roots and arc tangents are exact, there is
    no rounding, no overflow, and neither [inf] nor [nan].  Tests on
    numbers are exact as well: the area that [Circumcircle] compares with
    0 and the count of [np.arange] are those of real arithmetic.  numpy's
    quotient never raises; where it would yield [inf] or [nan] (a zero
    divisor: the width of a segment between two equal knots in [Spline],
    a zero tangent in the curvature of [Spline2D]) the model has the
    value of [Rdiv], and the properties below are stated for inputs on
    which no such quotient is taken, or do not depend on its value.  The
    classes [Circumcircle] and [Line] divide Python numbers, whose
    quotient raises [ZeroDivisionError] on a zero divisor ([py_div]).

    Exceptions.  A Python call either returns or raises; [result] keeps
    the two apart, and the exception that aborts a constructor aborts the
    whole construction, as in Python. *)

From Stdlib Require Import String.
From Stdlib Require Import Reals Lra Lia ZArith List Bool Arith.
From Stdlib Require Import ClassicalEpsilon Permutation.
Import ListNotations.

Open Scope R_scope.

(** ** Exceptions and results *)

Inductive exn : Type :=
| IndexError
| ValueError
| TypeError
| ZeroDivisionError
| LinAlgError.

Inductive result (A : Type) : Type :=
| Ok (v : A)
| Raise (e : exn).

Arguments Ok {A} v.
Arguments Raise {A} e.

Definition bind {A B : Type} (m : result A) (k : A -> result B) : result B :=
  match m with
  | Ok v => k v
  | Raise e => Raise e
  end.

Notation "x <- m ;; k" := (bind m (fun x => k))
  (at level 61, m at next level, right associativity).
Notation "' pat <- m ;; k" := (bind m (fun v => match v with pat => k end))
  (at level 61, pat pattern, m at next level, right associativity).

(** A [for] loop over a list of indices whose body may raise: the state is
    threaded through the iterations and the first exception ends the loop. *)
Fixpoint for_each {I S : Type} (l : list I) (body : I -> S -> result S) (s : S)
  : result S :=
  match l with
  | [] => Ok s
  | i :: l' => s' <- body i s ;; for_each l' body s'
  end.

(** A list comprehension [[f i for i in l]] whose element expression may
    raise. *)
Fixpoint comprehension {I A : Type} (f : I -> result A) (l : list I)
  : result (list A) :=
  match l with
  | [] => Ok []
  | i :: l' => v <- f i ;; vs <- comprehension f l' ;; Ok (v :: vs)
  end.

(** [range(n)] for an integer [n]: empty when [n <= 0]. *)
Definition range (n : Z) : list Z :=
  map Z.of_nat (seq 0 (Z.to_nat n)).

(** ** Comparisons on numbers, as booleans *)

Definition Rleb (u v : R) : bool := if Rle_dec u v then true else false.
Definition Rltb (u v : R) : bool := if Rlt_dec u v then true else false.
Definition Reqb (u v : R) : bool := if Req_dec_T u v then true else false.

(** ** Sequences: Python lists and one-dimensional numpy arrays

    Both are lists of numbers.  Subscripting takes an integer; a negative
    subscript counts from the end, and a subscript outside
    [-len .. len - 1] raises [IndexError]. *)

Definition len {A : Type} (l : list A) : Z := Z.of_nat (length l).

Definition subscript {A : Type} (l : list A) (i : Z) : result A :=
  let j := if (i <? 0)%Z then (i + len l)%Z else i in
  if (0 <=? j)%Z && (j <? len l)%Z then
    match nth_error l (Z.to_nat j) with
    | Some v => Ok v
    | None => Raise IndexError
    end
  else Raise IndexError.

Fixpoint replace_nth {A : Type} (n : nat) (v : A) (l : list A) : list A :=
  match l, n with
  | [], _ => []
  | _ :: l', O => v :: l'
  | u :: l', S n' => u :: replace_nth n' v l'
  end.

(** [l[i] = v] *)
Definition assign {A : Type} (l : list A) (i : Z) (v : A) : result (list A) :=
  let j := if (i <? 0)%Z then (i + len l)%Z else i in
  if (0 <=? j)%Z && (j <? len l)%Z then Ok (replace_nth (Z.to_nat j) v l)
  else Raise IndexError.

(** [np.zeros(n)] *)
Definition np_zeros (n : Z) : list R := repeat 0 (Z.to_nat n).

(** [np.diff(l)]: the differences of consecutive entries, [l[i+1] - l[i]];
    empty for a sequence of fewer than two entries. *)
Fixpoint np_diff (l : list R) : list R :=
  match l with
  | u :: ((v :: _) as l') => (v - u) :: np_diff l'
  | _ => []
  end.

(** [np.cumsum(l)]: the running sums, started from [acc]. *)
Fixpoint cumsum_from (acc : R) (l : list R) : list R :=
  match l with
  | [] => []
  | u :: l' => (acc + u) :: cumsum_from (acc + u) l'
  end.

Definition np_cumsum (l : list R) : list R := cumsum_from 0 l.

(** An elementwise binary operation on two one-dimensional arrays, with
    numpy's broadcasting: the lengths must agree unless one of them is 1,
    in which case that single entry is paired with every entry of the
    other array; otherwise [ValueError]. *)
Fixpoint zip_with (f : R -> R -> R) (u v : list R) : list R :=
  match u, v with
  | p :: u', q :: v' => f p q :: zip_with f u' v'
  | _, _ => []
  end.

Definition broadcast (f : R -> R -> R) (u v : list R) : result (list R) :=
  if (length u =? length v)%nat then Ok (zip_with f u v)
  else match u, v with
       | [p], _ => Ok (map (fun q => f p q) v)
       | _, [q] => Ok (map (fun p => f p q) u)
       | _, _ => Raise ValueError
       end.

(** ** Two-dimensional numpy arrays: a list of rows *)

Definition matrix : Type := list (list R).

(** [np.zeros((n, m))] *)
Definition np_zeros2 (n m : Z) : matrix :=
  repeat (np_zeros m) (Z.to_nat n).

(** [m[i, j] = v] *)
Definition assign2 (m : matrix) (i j : Z) (v : R) : result matrix :=
  row <- subscript m i ;;
  row' <- assign row j v ;;
  assign m i row'.

(** Entry [(i, j)] of a matrix, 0 outside it. *)
Definition entry (m : matrix) (i j : nat) : R := nth j (nth i m []) 0.

Fixpoint dot (u v : list R) : R :=
  match u, v with
  | p :: u', q :: v' => p * q + dot u' v'
  | _, _ => 0
  end.

(** The product of a matrix and a vector. *)
Definition mat_vec (m : matrix) (v : list R) : list R :=
  map (fun row => dot row v) m.

(** ** Library functions *)

(** [np.linalg.solve(A, rhs)] for a square [A] and a vector [rhs]: the
    solution [b] of [A b = rhs] when there is exactly one, and
    [LinAlgError] ("Singular matrix") otherwise. *)
Definition is_solution (A : matrix) (rhs b : list R) : Prop :=
  length b = length rhs /\ mat_vec A b = rhs.

Definition linalg_solve (A : matrix) (rhs : list R) : result (list R) :=
  match excluded_middle_informative (exists! b, is_solution A rhs b) with
  | left H => Ok (proj1_sig (constructive_definite_description _ H))
  | right _ => Raise LinAlgError
  end.

(** [bisect.bisect(a, x)], which is [bisect_right]: the binary search of
    the Python library,
<<
    lo, hi = 0, len(a)
    while lo < hi:
        mid = (lo + hi) // 2
        if x < a[mid]: hi = mid
        else: lo = mid + 1
    return lo
>>
    The loop runs at most [hi - lo] times; [fuel] bounds the iterations. *)
Fixpoint bisect_loop (fuel : nat) (a : list R) (x : R) (lo hi : nat) : nat :=
  match fuel with
  | O => lo
  | S fuel' =>
      if (lo <? hi)%nat then
        let mid := ((lo + hi) / 2)%nat in
        if Rltb x (nth mid a 0) then bisect_loop fuel' a x lo mid
        else bisect_loop fuel' a x (S mid) hi
      else lo
  end.

Definition bisect (a : list R) (x : R) : nat :=
  bisect_loop (length a) a x 0 (length a).

(** [np.hypot(p, q)] *)
Definition hypot (p q : R) : R := sqrt (p * p + q * q).

(** [math.atan2(y, x)]: the angle of the point [(x, y)]. *)
Definition atan2 (y x : R) : R :=
  if Rlt_dec 0 x then atan (y / x)
  else if Rlt_dec x 0 then
         if Rle_dec 0 y then atan (y / x) + PI else atan (y / x) - PI
  else if Rlt_dec 0 y then PI / 2
  else if Rlt_dec y 0 then - (PI / 2)
  else 0.

(** [u ** p] for a base [u >= 0] and an exponent [p > 0]. *)
Definition float_pow (u p : R) : R :=
  if Req_dec_T u 0 then 0 else Rpower u p.

(** [np.arange(start, stop, step)]: [ceil((stop - start) / step)] values
    [start + k * step], none when that count is not positive; numpy
    computes the count and the values in [float64], here they are exact.
    A zero step raises: with a [float64] bound, as [Spline2D] passes, the
    quotient is not finite and numpy refuses to compute the length, with
    [ValueError] (the class of that exception depends on the numpy
    version). *)
Definition np_arange (start stop step : R) : result (list R) :=
  if Req_dec_T step 0 then Raise ValueError
  else
    let n := Z.to_nat (Zceil ((stop - start) / step)) in
    Ok (map (fun k => start + INR k * step) (seq 0 n)).

(** ** class Spline *)

Module Spline.

(** The attributes of an instance: the knots [x], the values [y], the
    number of knots [x_dim] and the coefficients [d], [b], [c], [a]. *)
Record t : Type := new
  { x : list R;
    y : list R;
    x_dim : Z;
    d : list R;
    b : list R;
    c : list R;
    a : list R }.

(** [__calc_matrix_a(self, diff)]; of [self] it reads [x_dim]. *)
Definition __calc_matrix_a (x_dim : Z) (diff : list R) : result matrix :=
  let matrix := np_zeros2 x_dim x_dim in
  matrix <- assign2 matrix 0 0 1 ;;
  matrix <-
    for_each (range (x_dim - 1))
      (fun i matrix =>
         matrix <-
           (if negb (i =? x_dim - 2)%Z then
              di <- subscript diff i ;;
              di1 <- subscript diff (i + 1) ;;
              assign2 matrix (i + 1) (i + 1) (2 * (di + di1))
            else Ok matrix) ;;
         di <- subscript diff i ;;
         matrix <- assign2 matrix (i + 1) i di ;;
         di <- subscript diff i ;;
         assign2 matrix i (i + 1) di)
      matrix ;;
  matrix <- assign2 matrix 0 1 0 ;;
  matrix <- assign2 matrix (x_dim - 1) (x_dim - 2) 0 ;;
  assign2 matrix (x_dim - 1) (x_dim - 1) 1.

(** [__calc_matrix_b(self, diff)]; of [self] it reads [x_dim] and [d].
    The quotients are numpy's: by a width that is 0 the code gets [nan] or
    [inf], which the model does not have. *)
Definition __calc_matrix_b (x_dim : Z) (d diff : list R) : result (list R) :=
  let matrix := np_zeros x_dim in
  for_each (range (x_dim - 2))
    (fun i matrix =>
       d2 <- subscript d (i + 2) ;;
       d1 <- subscript d (i + 1) ;;
       h1 <- subscript diff (i + 1) ;;
       d1' <- subscript d (i + 1) ;;
       d0 <- subscript d i ;;
       h0 <- subscript diff i ;;
       assign matrix (i + 1) (3 * (d2 - d1) / h1 - 3 * (d1' - d0) / h0))
    matrix.

(** [Spline(x, y)].  The quotients by a width are numpy's, as in
    [__calc_matrix_b]. *)
Definition __init__ (x y : list R) : result t :=
  let x_dim := len x in
  let x_diff := np_diff x in
  let d := y in
  let d_diff := np_diff d in
  A <- __calc_matrix_a x_dim x_diff ;;
  B <- __calc_matrix_b x_dim d x_diff ;;
  b <- linalg_solve A B ;;
  let b_diff := np_diff b in
  c <- comprehension
         (fun i =>
            dd <- subscript d_diff i ;;
            h <- subscript x_diff i ;;
            h' <- subscript x_diff i ;;
            b1 <- subscript b (i + 1) ;;
            b0 <- subscript b i ;;
            Ok (dd / h - h' * (b1 + 2 * b0) / 3))
         (range (x_dim - 1)) ;;
  a <- comprehension
         (fun i =>
            bd <- subscript b_diff i ;;
            h <- subscript x_diff i ;;
            Ok (bd / (3 * h)))
         (range (x_dim - 1)) ;;
  Ok (new x y x_dim d b c a).

(** [__search_index(self, x)] *)
Definition __search_index (self : t) (q : R) : Z :=
  (Z.of_nat (bisect (x self) q) - 1)%Z.

(** The guard [if not self.x[0] <= x <= self.x[-1]], a chained comparison:
    [self.x[-1]] is read only when the first comparison holds. *)
Definition out_of_bounds (self : t) (q : R) : result bool :=
  x0 <- subscript (x self) 0 ;;
  if Rleb x0 q then
    xn <- subscript (x self) (-1) ;;
    Ok (negb (Rleb q xn))
  else Ok true.

(** [position(self, x)]: [None] out of bounds, the value of the cubic of
    the segment otherwise. *)
Definition position (self : t) (q : R) : result (option R) :=
  out <- out_of_bounds self q ;;
  if out then Ok None
  else
    let i := __search_index self q in
    xi <- subscript (x self) i ;;
    let dx := q - xi in
    ai <- subscript (a self) i ;;
    bi <- subscript (b self) i ;;
    ci <- subscript (c self) i ;;
    di <- subscript (d self) i ;;
    Ok (Some (ai * dx ^ 3 + bi * dx ^ 2 + ci * dx + di)).

(** [first_derivative(self, x)] *)
Definition first_derivative (self : t) (q : R) : result (option R) :=
  out <- out_of_bounds self q ;;
  if out then Ok None
  else
    let i := __search_index self q in
    xi <- subscript (x self) i ;;
    let dx := q - xi in
    ai <- subscript (a self) i ;;
    bi <- subscript (b self) i ;;
    ci <- subscript (c self) i ;;
    Ok (Some (3 * ai * dx ^ 2 + 2 * bi * dx + ci)).

(** [second_derivative(self, x)] *)
Definition second_derivative (self : t) (q : R) : result (option R) :=
  out <- out_of_bounds self q ;;
  if out then Ok None
  else
    let i := __search_index self q in
    xi <- subscript (x self) i ;;
    let dx := q - xi in
    ai <- subscript (a self) i ;;
    bi <- subscript (b self) i ;;
    Ok (Some (6 * ai * dx + 2 * bi)).

End Spline.

(** ** class Coordinate

    Modelled from the spec: the class [Coordinate] of
    [bidimensional.coordinates] is not among the sources; the
    specification describes it as a 2-tuple of numeric x, y used purely as
    a tuple carrier.  The constructor is given what [position] returned
    for each axis, and [None] is not a number. *)

Record Coordinate : Type := mkCoordinate { coord_x : R; coord_y : R }.

Definition Coordinate_new (p : option R * option R) : result Coordinate :=
  match p with
  | (Some u, Some v) => Ok (mkCoordinate u v)
  | _ => Raise TypeError
  end.

(** ** class Spline2D *)

Module Spline2D.

Record t : Type := new
  { _x : list R;
    _y : list R;
    _knots : list R;
    _spline_x : Spline.t;
    _spline_y : Spline.t;
    _generation_step : R;
    _positions : list Coordinate;
    _curvature : list R;
    _yaw : list R }.

(** The setter of the property [generation_step] (class [Spline2DBase]);
    the value is a number, so the [isinstance] test passes. *)
Definition generation_step_setter (self : t) (value : R) : result t :=
  if Rleb value 0 then Raise ValueError
  else Ok (new (_x self) (_y self) (_knots self) (_spline_x self)
             (_spline_y self) value (_positions self) (_curvature self)
             (_yaw self)).

(** [_compute_knots(self, x, y)]:
    [[0] + list(np.cumsum(np.hypot(np.diff(x), np.diff(y))))] *)
Definition _compute_knots (x y : list R) : result (list R) :=
  steps <- broadcast hypot (np_diff x) (np_diff y) ;;
  Ok (0 :: np_cumsum steps).

(** [_compute_position(self, i)] *)
Definition _compute_position (spline_x spline_y : Spline.t) (i : R)
  : result (option R * option R) :=
  px <- Spline.position spline_x i ;;
  py <- Spline.position spline_y i ;;
  Ok (px, py).

(** The arithmetic of [_compute_curvature] on the four derivatives; an
    operand that is [None] raises [TypeError].  The quotient is numpy's:
    where both first derivatives are 0 the code gets [nan], which the
    model does not have. *)
Definition curvature_formula (x1 x2 y1 y2 : option R) : result R :=
  match x1, x2, y1, y2 with
  | Some x1, Some x2, Some y1, Some y2 =>
      Ok ((y2 * x1 - x2 * y1) / float_pow (x1 ^ 2 + y1 ^ 2) (3 / 2))
  | _, _, _, _ => Raise TypeError
  end.

(** [_compute_curvature(self, i)] *)
Definition _compute_curvature (spline_x spline_y : Spline.t) (i : R)
  : result R :=
  x1 <- Spline.first_derivative spline_x i ;;
  x2 <- Spline.second_derivative spline_x i ;;
  y1 <- Spline.first_derivative spline_y i ;;
  y2 <- Spline.second_derivative spline_y i ;;
  curvature_formula x1 x2 y1 y2.

(** [_compute_yaw(self, i)] *)
Definition _compute_yaw (spline_x spline_y : Spline.t) (i : R) : result R :=
  y1 <- Spline.first_derivative spline_y i ;;
  x1 <- Spline.first_derivative spline_x i ;;
  match y1, x1 with
  | Some y1, Some x1 => Ok (atan2 y1 x1)
  | _, _ => Raise TypeError
  end.

(** The values [np.arange(self._knots[0], self._knots[-1],
    self._generation_step)] over which [_compute_results] iterates. *)
Definition sweep (knots : list R) (generation_step : R) : result (list R) :=
  k0 <- subscript knots 0 ;;
  kn <- subscript knots (-1) ;;
  np_arange k0 kn generation_step.

(** [_compute_results(self)]: the three lists grow by one entry per
    iteration. *)
Definition _compute_results (knots : list R) (spline_x spline_y : Spline.t)
    (generation_step : R)
  : result (list Coordinate * list R * list R) :=
  samples <- sweep knots generation_step ;;
  for_each samples
    (fun i '(positions, curvature, yaw) =>
       p <- _compute_position spline_x spline_y i ;;
       coordinate <- Coordinate_new p ;;
       k <- _compute_curvature spline_x spline_y i ;;
       w <- _compute_yaw spline_x spline_y i ;;
       Ok (positions ++ [coordinate], curvature ++ [k], yaw ++ [w]))
    ([], [], []).

(** [Spline2D(x, y, generation_step)]; the step is stored in
    [self._generation_step] directly. *)
Definition __init__ (x y : list R) (generation_step : R) : result t :=
  knots <- _compute_knots x y ;;
  spline_x <- Spline.__init__ knots x ;;
  spline_y <- Spline.__init__ knots y ;;
  '(positions, curvature, yaw) <-
    _compute_results knots spline_x spline_y generation_step ;;
  Ok (new x y knots spline_x spline_y generation_step
        positions curvature yaw).

(** The properties [x], [y], [generation_step], [knots], [positions],
    [curvature] and [yaw] (class [Spline2DBase]). *)
Definition x (self : t) : list R := _x self.
Definition y (self : t) : list R := _y self.
Definition generation_step (self : t) : R := _generation_step self.
Definition knots (self : t) : list R := _knots self.
Definition positions (self : t) : list Coordinate := _positions self.
Definition curvature (self : t) : list R := _curvature self.
Definition yaw (self : t) : list R := _yaw self.



(** [__len__(self)] (class [Spline2DBase]) *)
Definition __len__ (self : t) : Z := len (positions self).

End Spline2D.

(** ** class Coordinate2D

    Modelled from the spec: the class [Coordinate2D] of
    [bidimensional.coordinates] is not among the sources; the
    specification describes it as a 2-tuple of numeric x, y.  The
    circumcircle reads the attributes [x] and [y], subtracts two
    coordinates, and tests a coordinate for truth. *)

Module Coordinate2D.

Record t : Type := new { x : R; y : R }.

(** [p - q], componentwise. *)
Definition sub (p q : t) : t := new (x p - x q) (y p - y q).

End Coordinate2D.

(** [u / v] on Python numbers: a zero divisor raises. *)
Definition py_div (u v : R) : result R :=
  if Req_dec_T v 0 then Raise ZeroDivisionError else Ok (u / v).

(** ** class Circumcircle *)

Module Circumcircle.

Record t : Type := new
  { _initial_setting : bool;
    _a : Coordinate2D.t;
    _b : Coordinate2D.t;
    _c : Coordinate2D.t;
    _center : Coordinate2D.t;
    _radius : R }.

(** The properties [a], [b], [c], [center] and [radius]. *)
Definition a (self : t) : Coordinate2D.t := _a self.
Definition b (self : t) : Coordinate2D.t := _b self.
Definition c (self : t) : Coordinate2D.t := _c self.
Definition center (self : t) : Coordinate2D.t := _center self.
Definition radius (self : t) : R := _radius self.

Section Truth.

(** The truth value of a [Coordinate2D] ([__bool__], or [__len__], or
    neither), which the sources do not show. *)
Variable truth : Coordinate2D.t -> bool.

(** [_ensure_non_collinear(self)], on the vertices.  The area is compared
    with 0 exactly; computed in [float64] it can differ from 0 on vertices
    that are collinear. *)
Definition _ensure_non_collinear (a b c : Coordinate2D.t) : result unit :=
  let area :=
    Coordinate2D.x a * (Coordinate2D.y b - Coordinate2D.y c)
    + Coordinate2D.x b * (Coordinate2D.y c - Coordinate2D.y a)
    + Coordinate2D.x c * (Coordinate2D.y a - Coordinate2D.y b) in
  if Reqb area 0 then Raise ValueError else Ok tt.

(** The vertical alignment prevention of [_calculate]: the vertices
    [(_a, _b, _c)] after the two conditional swaps. *)
Definition prevent_vertical (a b c : Coordinate2D.t)
  : Coordinate2D.t * Coordinate2D.t * Coordinate2D.t :=
  if existsb (fun v : Coordinate2D.t * Coordinate2D.t =>
                truth (Coordinate2D.sub (snd v) (fst v)))
       [(a, b); (a, c); (b, c)]
  then
    let '(a, b, c) :=
      if Reqb (Coordinate2D.x (Coordinate2D.sub b a)) 0 then (c, b, a)
      else (a, b, c) in
    let '(a, b, c) :=
      if Reqb (Coordinate2D.x (Coordinate2D.sub c a)) 0 then (b, a, c)
      else (a, b, c) in
    (a, b, c)
  else (a, b, c).

(** The center and the radius computed by [_calculate] from the vertices
    as they stand after the swaps. *)
Definition center_and_radius (a b c : Coordinate2D.t)
  : result (Coordinate2D.t * R) :=
  let ax := Coordinate2D.x a in
  let ay := Coordinate2D.y a in
  let displacement_ab :=
    Coordinate2D.new (Coordinate2D.x b - ax) (Coordinate2D.y b - ay) in
  let displacement_ac :=
    Coordinate2D.new (Coordinate2D.x c - ax) (Coordinate2D.y c - ay) in
  let norm (v : Coordinate2D.t) :=
    sqrt (Coordinate2D.x v ^ 2 + Coordinate2D.y v ^ 2) in
  uabx <- py_div (Coordinate2D.y displacement_ab) (norm displacement_ab) ;;
  uaby <- py_div (- Coordinate2D.x displacement_ab) (norm displacement_ab) ;;
  let unitary_ab := Coordinate2D.new uabx uaby in
  uacx <- py_div (Coordinate2D.y displacement_ac) (norm displacement_ac) ;;
  uacy <- py_div (- Coordinate2D.x displacement_ac) (norm displacement_ac) ;;
  let unitary_ac := Coordinate2D.new uacx uacy in
  vab <- py_div (Coordinate2D.x unitary_ab) (Coordinate2D.y unitary_ab) ;;
  let vertical_ab := Coordinate2D.new vab 1 in
  vac <- py_div (Coordinate2D.x unitary_ac) (Coordinate2D.y unitary_ac) ;;
  let vertical_ac := Coordinate2D.new (- vac) 1 in
  let midpoint_ab :=
    Coordinate2D.new (Coordinate2D.x displacement_ab / 2 + ax)
      (Coordinate2D.y displacement_ab / 2 + ay) in
  let midpoint_ac :=
    Coordinate2D.new (Coordinate2D.x displacement_ac / 2 + ax)
      (Coordinate2D.y displacement_ac / 2 + ay) in
  k <- py_div (Coordinate2D.y midpoint_ac - Coordinate2D.y midpoint_ab)
         (Coordinate2D.y unitary_ab) ;;
  let intersection :=
    Coordinate2D.new
      (Coordinate2D.x midpoint_ab + k * Coordinate2D.x unitary_ab)
      (Coordinate2D.y midpoint_ac) in
  cx <- py_div (Coordinate2D.x midpoint_ac - Coordinate2D.x intersection)
          (Coordinate2D.x vertical_ab + Coordinate2D.x vertical_ac) ;;
  cy <- py_div (Coordinate2D.x midpoint_ac - Coordinate2D.x intersection)
          (Coordinate2D.x vertical_ab + Coordinate2D.x vertical_ac) ;;
  let center :=
    Coordinate2D.new
      (Coordinate2D.x intersection + cx * Coordinate2D.x vertical_ab)
      (Coordinate2D.y intersection + cy) in
  let radius :=
    sqrt ((ax - Coordinate2D.x center) ^ 2
          + (ay - Coordinate2D.y center) ^ 2) in
  Ok (center, radius).

(** [_calculate(self)], on an instance whose vertices are set. *)
Definition _calculate (initial_setting : bool) (a b c : Coordinate2D.t)
  : result t :=
  _ <- _ensure_non_collinear a b c ;;
  let '(a, b, c) := prevent_vertical a b c in
  '(center, radius) <- center_and_radius a b c ;;
  Ok (new initial_setting a b c center radius).

(** [Circumcircle(a, b, c)] *)
Definition __init__ (a b c : Coordinate2D.t) : result t :=
  _calculate true a b c.

(** The setters of the properties [a], [b] and [c]; the value is a
    [Coordinate2D], so the [isinstance] test passes.  The vertex is stored
    first; [_calculate] is then called when [_initial_setting] is false. *)
Definition a_setter (self : t) (value : Coordinate2D.t) : result t :=
  let self := new (_initial_setting self) value (_b self) (_c self)
                (_center self) (_radius self) in
  if negb (_initial_setting self)
  then _calculate (_initial_setting self) (_a self) (_b self) (_c self)
  else Ok self.

Definition b_setter (self : t) (value : Coordinate2D.t) : result t :=
  let self := new (_initial_setting self) (_a self) value (_c self)
                (_center self) (_radius self) in
  if negb (_initial_setting self)
  then _calculate (_initial_setting self) (_a self) (_b self) (_c self)
  else Ok self.

Definition c_setter (self : t) (value : Coordinate2D.t) : result t :=
  let self := new (_initial_setting self) (_a self) (_b self) value
                (_center self) (_radius self) in
  if negb (_initial_setting self)
  then _calculate (_initial_setting self) (_a self) (_b self) (_c self)
  else Ok self.

End Truth.

End Circumcircle.

(** ** Dictionaries with string keys

    A Python [dict] as an association list; a key occurs at most once. *)

Definition dict (V : Type) : Type := list (string * V).

(** [d.get(k)], which is [None] for a missing key. *)
Fixpoint dict_get {V : Type} (d : dict V) (k : string) : option V :=
  match d with
  | [] => None
  | (k', v) :: d' => if String.eqb k k' then Some v else dict_get d' k
  end.

(** [d[k] = v] *)
Fixpoint dict_set {V : Type} (d : dict V) (k : string) (v : V) : dict V :=
  match d with
  | [] => [(k, v)]
  | (k', v') :: d' =>
      if String.eqb k k' then (k, v) :: d' else (k', v') :: dict_set d' k v
  end.

(** [d.clear()] *)
Definition dict_clear {V : Type} (d : dict V) : dict V := [].

(** ** class Line

    The endpoints are instances of the class [Coordinate] of
    [bidimensional.core.coordinates], which is not among the sources; the
    record [Coordinate] above stands for it, and the line reads its
    attributes [x] and [y] only.  These are Python numbers: a quotient
    with a zero divisor raises. *)

Module Line.

(** The attributes of an instance: the cache [_properties] and the
    endpoints [_a] and [_b]. *)
Record t : Type := new
  { _properties : dict R;
    _a : Coordinate;
    _b : Coordinate }.

(** The properties [a] and [b]. *)
Definition a (self : t) : Coordinate := _a self.
Definition b (self : t) : Coordinate := _b self.

(** Their setters; the value is a [Coordinate], so the [isinstance] test
    passes.  The cache is cleared. *)
Definition a_setter (self : t) (value : Coordinate) : t :=
  new (dict_clear (_properties self)) value (_b self).

Definition b_setter (self : t) (value : Coordinate) : t :=
  new (dict_clear (_properties self)) (_a self) value.

(** [Line(a, b)]: an empty cache, then the two setters.  The attributes
    [_a] and [_b] do not exist before their setter has run; the record
    holds the arguments from the start. *)
Definition __init__ (a b : Coordinate) : t :=
  let self := new [] a b in
  let self := a_setter self a in
  b_setter self b.

(** The property [slope]: the quotient is computed, and stored in the
    cache, when the cache holds no slope; the slope of the cache is
    returned.  The instance is returned with it, since its cache may have
    changed.  The final subscript [_properties["slope"]] finds the value
    that [get] has found or that has just been stored. *)
Definition slope (self : t) : result (R * t) :=
  match dict_get (_properties self) "slope" with
  | None =>
      v <- py_div (coord_y (b self) - coord_y (a self))
             (coord_x (b self) - coord_x (a self)) ;;
      Ok (v, new (dict_set (_properties self) "slope" v) (_a self) (_b self))
  | Some v => Ok (v, self)
  end.

(** [intersect(self, line)]; the argument is a [Line], so the [isinstance]
    test passes.  Every reading of a slope goes through the property, in
    the order of evaluation of Python; both instances are returned with
    the result.  When [line] is [self] itself, the one instance ends in
    the state that is returned twice. *)
Definition intersect (self line : t)
  : result (option Coordinate * t * t) :=
  '(s, self) <- slope self ;;
  '(l, line) <- slope line ;;
  if Reqb s l then Ok (None, self, line)
  else
    '(s1, self) <- slope self ;;
    '(l1, line) <- slope line ;;
    '(s2, self) <- slope self ;;
    '(l2, line) <- slope line ;;
    x <- py_div (coord_y (b line) - coord_y (b self)
                 + s1 * coord_x (b self) - l1 * coord_x (b line))
           (s2 - l2) ;;
    '(s3, self) <- slope self ;;
    let y := s3 * (x - coord_x (b self)) + coord_y (b self) in
    Ok (Some (mkCoordinate x y), self, line).

(** [__mul__(self, line)] *)
Definition __mul__ (self line : t) : result (option Coordinate * t * t) :=
  intersect self line.

(** [__getitem__(self, index)] *)
Definition __getitem__ (self : t) (index : Z) : result Coordinate :=
  if (index =? 0)%Z then Ok (a self)
  else if (index =? 1)%Z then Ok (b self)
  else Raise IndexError.

(** [__setitem__(self, index, value)] *)
Definition __setitem__ (self : t) (index : Z) (value : Coordinate)
  : result t :=
  if (index =? 0)%Z then Ok (a_setter self value)
  else if (index =? 1)%Z then Ok (b_setter self value)
  else Raise IndexError.

(** [__iter__(self)] and [__reversed__(self)]: what the generators
    yield. *)
Definition __iter__ (self : t) : list Coordinate := [a self; b self].
Definition __reversed__ (self : t) : list Coordinate := [b self; a self].

(** [__len__(self)] *)
Definition __len__ (self : t) : Z := 2.

(** The instances a program can hold: a line comes from the constructor,
    and is changed by the setters, by [__setitem__] and by the cache that
    [slope] and [intersect] fill. *)
Inductive reachable : t -> Prop :=
| reach_init (a b : Coordinate) : reachable (__init__ a b)
| reach_a_setter (l : t) (v : Coordinate) :
    reachable l -> reachable (a_setter l v)
| reach_b_setter (l : t) (v : Coordinate) :
    reachable l -> reachable (b_setter l v)
| reach_setitem (l l' : t) (i : Z) (v : Coordinate) :
    reachable l -> __setitem__ l i v = Ok l' -> reachable l'
| reach_slope (l l' : t) (v : R) :
    reachable l -> slope l = Ok (v, l') -> reachable l'
| reach_intersect (l m l' m' : t) (p : option Coordinate) :
    reachable l -> reachable m -> intersect l m = Ok (p, l', m') ->
    reachable l'
| reach_intersected (l m l' m' : t) (p : option Coordinate) :
    reachable l -> reachable m -> intersect l m = Ok (p, l', m') ->
    reachable m'.

End Line.

(** ** Queries as functions of a real variable *)

(** The number that a query returned; 0 when it returned [None] or
    raised. *)
Definition number (r : result (option R)) : R :=
  match r with
  | Ok (Some v) => v
  | _ => 0
  end.

(** ** Lines: the cache and the geometry of the endpoints *)

(** The cache of a line is coherent when the slope it holds, if any, is
    that of the endpoints as they stand. *)
Definition cache_coherent (l : Line.t) : Prop :=
  forall v, dict_get (Line._properties l) "slope" = Some v ->
    coord_x (Line.b l) <> coord_x (Line.a l) /\
    v = (coord_y (Line.b l) - coord_y (Line.a l))
        / (coord_x (Line.b l) - coord_x (Line.a l)).

(** A vertical line, and two parallel lines. *)
Definition vertical (l : Line.t) : Prop :=
  coord_x (Line.b l) = coord_x (Line.a l).



(** ** The words of the specification

    These definitions follow the specification, not the code; the
    theorems compare them with what the code computes. *)

(** A strictly increasing sequence: every entry is below the next one. *)
Definition increasing (l : list R) : Prop :=
  forall i, (S i < length l)%nat -> nth i l 0 < nth (S i) l 0.

(** A sorted sequence, as [bisect] expects it: no entry is above a later
    one. *)
Definition nondecreasing (l : list R) : Prop :=
  forall i j, (i <= j)%nat -> (j < length l)%nat -> nth i l 0 <= nth j l 0.

(** The segment widths [h[i] = t[i+1] - t[i]]. *)
Definition width (t : list R) (i : nat) : R := nth (S i) t 0 - nth i t 0.

(** The matrix [A] of the specification (section 4.1, step 3), entry by
    entry, for [n] knots: 1 at both ends of the diagonal; on an interior
    row [i] the entries [h[i-1]], [2 (h[i-1] + h[i])] and [h[i]] left of,
    on and right of the diagonal; 0 elsewhere. *)
Definition spec_A (n : nat) (h : nat -> R) (i j : nat) : R :=
  if (i =? 0)%nat then (if (j =? 0)%nat then 1 else 0)
  else if (i =? n - 1)%nat then (if (j =? n - 1)%nat then 1 else 0)
  else if (j =? i - 1)%nat then h (i - 1)%nat
  else if (j =? i)%nat then 2 * (h (i - 1)%nat + h i)
  else if (j =? i + 1)%nat then h i
  else 0.

(** The right-hand side of the specification: 0 at both ends, and
    [3 (y[i+1] - y[i]) / h[i] - 3 (y[i] - y[i-1]) / h[i-1]] on an interior
    row. *)
Definition spec_rhs (n : nat) (h y : nat -> R) (i : nat) : R :=
  if (i =? 0)%nat || (i =? n - 1)%nat then 0
  else 3 * (y (i + 1)%nat - y i) / h i
       - 3 * (y i - y (i - 1)%nat) / h (i - 1)%nat.

(** The shape of a square matrix of [n] rows. *)
Definition square (n : nat) (m : matrix) : Prop :=
  length m = n /\ forall i, (i < n)%nat -> length (nth i m []) = n.

(** ** Loop invariants and the elimination of the linear system *)

(** The entries of the matrix of [__calc_matrix_a] after [k] iterations
    of its loop; [h] gives the entries of [diff]. *)
Definition loop_entry (n : nat) (h : nat -> R) (k r c : nat) : R :=
  if (r =? 0)%nat && (c =? 0)%nat then 1
  else if (r =? c)%nat && (r <=? k)%nat && negb (r =? n - 1)%nat
       then 2 * (h (r - 1)%nat + h r)
  else if (r =? c + 1)%nat && (c <? k)%nat then h c
  else if (c =? r + 1)%nat && (r <? k)%nat then h r
  else 0.

(** The elimination of a tridiagonal system, used to show that the system
    of a spline has exactly one solution: after the forward sweep row [r]
    reads [b[r] = dp - cp * b[r + 1]], and [thomas h f r] is [(cp, dp)]. *)
Fixpoint thomas (h f : nat -> R) (r : nat) : R * R :=
  match r with
  | O => (0, 0)
  | S r' =>
      let den := 2 * (h r' + h r) - h r' * fst (thomas h f r') in
      (h r / den, (f r - h r' * snd (thomas h f r')) / den)
  end.

(** The back substitution, from the last unknown, which is 0:
    [back_substitute h f n k] is the unknown of index [n - 1 - k]. *)
Fixpoint back_substitute (h f : nat -> R) (n k : nat) : R :=
  match k with
  | O => 0
  | S k' =>
      snd (thomas h f (n - 1 - k))
      - fst (thomas h f (n - 1 - k)) * back_substitute h f n k'
  end.

(** [b] solves the rows of the system of the specification, for [n]
    knots. *)
Definition solves_rows (n : nat) (h f b : nat -> R) : Prop :=
  b O = 0 /\ b (n - 1)%nat = 0 /\
  forall r, (1 <= r)%nat -> (r + 1 < n)%nat ->
    h (r - 1)%nat * b (r - 1)%nat + 2 * (h (r - 1)%nat + h r) * b r
    + h r * b (r + 1)%nat = f r.

(** ** Results and loops *)

Lemma bind_Ok_inv {A B : Type} (m : result A) (k : A -> result B) (w : B) :
  bind m k = Ok w -> exists v, m = Ok v /\ k v = Ok w.
Proof.
  destruct m as [v | e]; simpl; intros H; [ eauto | discriminate ].
Qed.

Ltac bind_inv H :=
  let v := fresh "v" in
  let E := fresh "E" in
  apply bind_Ok_inv in H; destruct H as [v [E H]].

Lemma comprehension_length {I A : Type} (f : I -> result A) (l : list I) vs :
  comprehension f l = Ok vs -> length vs = length l.
Proof.
  revert vs; induction l as [| i l IH]; simpl; intros vs H.
  - injection H as <-; reflexivity.
  - bind_inv H. bind_inv H. injection H as <-. simpl. f_equal. eauto.
Qed.

Lemma comprehension_nth {I A : Type} (f : I -> result A) (l : list I) vs :
  comprehension f l = Ok vs ->
  forall k i, nth_error l k = Some i ->
  exists v, f i = Ok v /\ nth_error vs k = Some v.
Proof.
  revert vs; induction l as [| j l IH]; simpl; intros vs H k i Hk.
  - destruct k; discriminate.
  - bind_inv H. bind_inv H. injection H as <-.
    destruct k as [| k]; simpl in *.
    + injection Hk as <-. eauto.
    + eapply IH; eauto.
Qed.

Lemma comprehension_Ok {I A : Type} (f : I -> result A) (l : list I) :
  (forall i, In i l -> exists v, f i = Ok v) ->
  exists vs, comprehension f l = Ok vs.
Proof.
  induction l as [| i l IH]; intros H; simpl.
  - eauto.
  - destruct (H i) as [v E]; [ now left | ]. rewrite E. cbn [bind].
    destruct IH as [vs Evs]; [ intros j Hj; apply H; now right | ].
    rewrite Evs. cbn [bind]. eauto.
Qed.

Lemma range_length n : length (range n) = Z.to_nat n.
Proof. unfold range. now rewrite length_map, length_seq. Qed.

Lemma range_nth n k :
  (k < Z.to_nat n)%nat -> nth_error (range n) k = Some (Z.of_nat k).
Proof.
  intros H. unfold range.
  rewrite nth_error_map, nth_error_nth' with (d := O) by now rewrite length_seq.
  rewrite seq_nth by assumption. reflexivity.
Qed.

Lemma range_In (n : nat) (i : Z) :
  In i (range (Z.of_nat n)) -> exists k, (k < n)%nat /\ i = Z.of_nat k.
Proof.
  unfold range. rewrite Nat2Z.id, in_map_iff.
  intros [k [<- Hk]]. apply in_seq in Hk. exists k. split; [ lia | reflexivity ].
Qed.

Lemma for_each_range {St : Type} (Inv : nat -> St -> Prop)
    (body : Z -> St -> result St) (n : nat) (s : St) :
  Inv O s ->
  (forall k s, (k < n)%nat -> Inv k s ->
               exists s', body (Z.of_nat k) s = Ok s' /\ Inv (S k) s') ->
  exists s', for_each (range (Z.of_nat n)) body s = Ok s' /\ Inv n s'.
Proof.
  intros H0 Hstep. unfold range. rewrite Nat2Z.id.
  assert (G : forall m k s, (k + m = n)%nat -> Inv k s ->
            exists s', for_each (map Z.of_nat (seq k m)) body s = Ok s'
                       /\ Inv n s').
  { induction m as [| m IH]; intros k s0 Hk Hinv; simpl.
    - exists s0. split; [ reflexivity | ]. now replace n with k by lia.
    - destruct (Hstep k s0) as [s1 [E1 H1]]; [ lia | assumption | ].
      rewrite E1. simpl. apply IH; [ lia | assumption ]. }
  apply (G n O s); [ lia | assumption ].
Qed.

Lemma for_each_Ok {I St : Type} (P : St -> Prop)
    (body : I -> St -> result St) (l : list I) (s : St) :
  P s ->
  (forall i s, In i l -> P s -> exists s', body i s = Ok s' /\ P s') ->
  exists s', for_each l body s = Ok s' /\ P s'.
Proof.
  revert s; induction l as [| i l IH]; intros s Hs Hbody; simpl.
  - eauto.
  - destruct (Hbody i s) as [s1 [E1 H1]]; [ now left | assumption | ].
    rewrite E1. cbn [bind]. apply IH; [ assumption | ].
    intros j s2 Hj. apply Hbody. now right.
Qed.

(** ** Comparisons *)

Lemma Rleb_true_iff (u v : R) : Rleb u v = true <-> u <= v.
Proof.
  unfold Rleb. destruct (Rle_dec u v); split; intros; try reflexivity;
    try assumption; try discriminate; contradiction.
Qed.

Lemma Rleb_false_iff (u v : R) : Rleb u v = false <-> v < u.
Proof.
  unfold Rleb. destruct (Rle_dec u v); split; intros; try reflexivity;
    try discriminate; lra.
Qed.

Lemma Rltb_true_iff (u v : R) : Rltb u v = true <-> u < v.
Proof.
  unfold Rltb. destruct (Rlt_dec u v); split; intros; try reflexivity;
    try assumption; try discriminate; contradiction.
Qed.

Lemma Rltb_false_iff (u v : R) : Rltb u v = false <-> v <= u.
Proof.
  unfold Rltb. destruct (Rlt_dec u v); split; intros; try reflexivity;
    try discriminate; lra.
Qed.

Lemma Reqb_true_iff (u v : R) : Reqb u v = true <-> u = v.
Proof.
  unfold Reqb. destruct (Req_dec_T u v); split; intros; try reflexivity;
    try assumption; try discriminate; contradiction.
Qed.

Lemma Reqb_false_iff (u v : R) : Reqb u v = false <-> u <> v.
Proof.
  unfold Reqb. destruct (Req_dec_T u v); split; intros; try reflexivity;
    try assumption; try discriminate; contradiction.
Qed.

(** ** Subscripts, vectors and matrices *)

Lemma subscript_nat {A : Type} (l : list A) (k : nat) (dflt : A) :
  (k < length l)%nat -> subscript l (Z.of_nat k) = Ok (nth k l dflt).
Proof.
  intros H. unfold subscript, len.
  destruct (Z.ltb_spec (Z.of_nat k) 0); [ lia | ].
  destruct (Z.leb_spec 0 (Z.of_nat k)); [ | lia ].
  destruct (Z.ltb_spec (Z.of_nat k) (Z.of_nat (length l))); [ | lia ].
  simpl. rewrite Nat2Z.id.
  now rewrite nth_error_nth' with (d := dflt).
Qed.

Lemma subscript_beyond {A : Type} (l : list A) (i : Z) :
  (len l <= i)%Z -> subscript l i = Raise IndexError.
Proof.
  intros H. unfold subscript, len in *.
  destruct (Z.ltb_spec i 0); [ lia | ].
  destruct (Z.ltb_spec i (Z.of_nat (length l))); [ lia | ].
  now rewrite andb_false_r.
Qed.

Lemma subscript_Ok_nat {A : Type} (l : list A) (k : nat) (v : A) :
  subscript l (Z.of_nat k) = Ok v -> (k < length l)%nat.
Proof.
  intros H.
  destruct (Nat.lt_ge_cases k (length l)) as [Hlt | Hge]; [ assumption | ].
  rewrite subscript_beyond in H by (unfold len; lia). discriminate.
Qed.

Lemma last_nth (l : list R) : last l 0 = nth (length l - 1) l 0.
Proof.
  induction l as [| u l IH]; [ reflexivity | ].
  destruct l as [| v l]; [ reflexivity | ].
  change (last (u :: v :: l) 0) with (last (v :: l) 0). rewrite IH.
  simpl. now rewrite Nat.sub_0_r.
Qed.

Lemma subscript_last (l : list R) :
  (0 < length l)%nat -> subscript l (-1) = Ok (last l 0).
Proof.
  intros H. rewrite last_nth.
  rewrite <- (subscript_nat l (length l - 1) 0) by lia.
  unfold subscript, len.
  change (-1 <? 0)%Z with true. cbv iota.
  destruct (Z.ltb_spec (Z.of_nat (length l - 1)) 0); [ lia | ].
  replace (-1 + Z.of_nat (length l))%Z with (Z.of_nat (length l - 1)) by lia.
  reflexivity.
Qed.

Lemma replace_nth_length {A : Type} (n : nat) (v : A) (l : list A) :
  length (replace_nth n v l) = length l.
Proof.
  revert n; induction l as [| u l IH]; intros [| n]; simpl; auto.
Qed.

Lemma replace_nth_nth {A : Type} (n k : nat) (v dflt : A) (l : list A) :
  (n < length l)%nat ->
  nth k (replace_nth n v l) dflt = if (k =? n)%nat then v else nth k l dflt.
Proof.
  revert n k; induction l as [| u l IH]; intros [| n] [| k] H; simpl in *;
    try lia; auto.
  apply IH. lia.
Qed.

Lemma assign_nat {A : Type} (l : list A) (k : nat) (v : A) :
  (k < length l)%nat -> assign l (Z.of_nat k) v = Ok (replace_nth k v l).
Proof.
  intros H. unfold assign, len.
  destruct (Z.ltb_spec (Z.of_nat k) 0); [ lia | ].
  destruct (Z.leb_spec 0 (Z.of_nat k)); [ | lia ].
  destruct (Z.ltb_spec (Z.of_nat k) (Z.of_nat (length l))); [ | lia ].
  simpl. now rewrite Nat2Z.id.
Qed.

Lemma assign2_nat (n : nat) (m : matrix) (i j : nat) (v : R) :
  square n m -> (i < n)%nat -> (j < n)%nat ->
  exists m',
    assign2 m (Z.of_nat i) (Z.of_nat j) v = Ok m' /\ square n m' /\
    forall r c,
      entry m' r c = if (r =? i)%nat && (c =? j)%nat then v else entry m r c.
Proof.
  intros [Hlen Hrows] Hi Hj.
  exists (replace_nth i (replace_nth j v (nth i m [])) m).
  split; [ | split ].
  - unfold assign2.
    rewrite subscript_nat with (dflt := []) by lia. simpl.
    rewrite assign_nat by (rewrite Hrows; lia). simpl.
    apply assign_nat. lia.
  - split; [ now rewrite replace_nth_length | ].
    intros r Hr. rewrite replace_nth_nth by lia.
    destruct (Nat.eqb_spec r i); [ | auto ].
    rewrite replace_nth_length. auto.
  - intros r c. unfold entry. rewrite replace_nth_nth by lia.
    destruct (Nat.eqb_spec r i) as [-> | Hne]; simpl; [ | reflexivity ].
    apply replace_nth_nth. rewrite Hrows; lia.
Qed.

Lemma np_zeros2_square (n : nat) : square n (np_zeros2 (Z.of_nat n) (Z.of_nat n)).
Proof.
  unfold np_zeros2, np_zeros. rewrite Nat2Z.id. split.
  - apply repeat_length.
  - intros i Hi. rewrite nth_repeat_lt by assumption. apply repeat_length.
Qed.

Lemma np_zeros2_entry (n : nat) r c :
  entry (np_zeros2 (Z.of_nat n) (Z.of_nat n)) r c = 0.
Proof.
  unfold entry, np_zeros2, np_zeros. rewrite Nat2Z.id.
  destruct (Nat.lt_ge_cases r n) as [Hr | Hr].
  - rewrite nth_repeat_lt by assumption.
    destruct (Nat.lt_ge_cases c n) as [Hc | Hc].
    + now rewrite nth_repeat_lt.
    + apply nth_overflow. now rewrite repeat_length.
  - rewrite (nth_overflow (repeat _ _)) by now rewrite repeat_length.
    now destruct c.
Qed.

Lemma np_diff_length (l : list R) : length (np_diff l) = (length l - 1)%nat.
Proof.
  induction l as [| u l IH]; [ reflexivity | ].
  destruct l as [| v l]; [ reflexivity | ].
  change (np_diff (u :: v :: l)) with ((v - u) :: np_diff (v :: l)).
  simpl length in *. lia.
Qed.

Lemma np_diff_nth (l : list R) (i : nat) :
  (S i < length l)%nat -> nth i (np_diff l) 0 = width l i.
Proof.
  revert i; induction l as [| u l IH]; intros i H; [ simpl in H; lia | ].
  destruct l as [| v l]; [ simpl in H; lia | ].
  change (np_diff (u :: v :: l)) with ((v - u) :: np_diff (v :: l)).
  destruct i as [| i]; [ reflexivity | ].
  unfold width in *. simpl nth at 1.
  rewrite IH by (simpl in *; lia). reflexivity.
Qed.

Lemma vector_ext (n : nat) (v : list R) :
  length v = n -> v = map (fun i => nth i v 0) (seq 0 n).
Proof.
  intros H.
  apply nth_ext with (d := 0) (d' := (fun i => nth i v 0) O).
  - now rewrite length_map, length_seq.
  - intros i Hi.
    change (nth 0 v 0) with ((fun i => nth i v 0) O).
    rewrite map_nth, seq_nth by lia. reflexivity.
Qed.

Lemma square_ext (n : nat) (A : matrix) :
  square n A ->
  A = map (fun r => map (fun c => entry A r c) (seq 0 n)) (seq 0 n).
Proof.
  intros [Hlen Hrows].
  apply nth_ext
    with (d := []) (d' := (fun r => map (fun c => entry A r c) (seq 0 n)) O).
  - now rewrite length_map, length_seq.
  - intros r Hr.
    change (map (fun c => entry A 0 c) (seq 0 n))
      with ((fun r => map (fun c => entry A r c) (seq 0 n)) O).
    rewrite map_nth, seq_nth by lia. simpl.
    apply vector_ext. apply Hrows. lia.
Qed.

Lemma dot_zero_l (u v : list R) :
  (forall j, nth j u 0 = 0) -> dot u v = 0.
Proof.
  revert v; induction u as [| p u IH]; intros v Hz; [ reflexivity | ].
  destruct v as [| q v]; [ reflexivity | ]. simpl.
  rewrite (Hz O : p = 0), IH; [ ring | ].
  intros j. exact (Hz (S j)).
Qed.

(** The scalar product with a row that is zero outside the three places
    [r - 1], [r], [r + 1]. *)
Lemma dot_band (u v : list R) (r : nat) :
  length u = length v -> (r < length v)%nat ->
  (forall j, (j + 1 < r)%nat \/ (r + 1 < j)%nat -> nth j u 0 = 0) ->
  dot u v =
    (if (r =? 0)%nat then 0 else nth (r - 1) u 0 * nth (r - 1) v 0)
    + nth r u 0 * nth r v 0
    + nth (r + 1) u 0 * nth (r + 1) v 0.
Proof.
  revert v r; induction u as [| p u IH]; intros v r Hlen Hr Hz.
  - destruct v; simpl in *; lia.
  - destruct v as [| q v]; [ simpl in Hr; lia | ].
    simpl in Hlen, Hr. cbn [dot].
    destruct r as [| [| r]].
    + cbn [Nat.eqb Nat.sub Nat.add nth].
      destruct u as [| p1 u], v as [| q1 v]; try (simpl in Hlen; lia).
      * simpl. ring.
      * cbn [dot nth]. rewrite (dot_zero_l u v); [ ring | ].
        intros j. apply (Hz (S (S j))). right. lia.
    + cbn [Nat.eqb Nat.sub Nat.add nth].
      rewrite (IH v O) by (try lia; intros j Hj; apply (Hz (S j)); lia).
      cbn [Nat.eqb Nat.sub Nat.add nth]. ring.
    + assert (Hp : p = 0) by (apply (Hz O); left; lia). rewrite Hp.
      rewrite (IH v (S r)) by (try lia; intros j Hj; apply (Hz (S j)); lia).
      cbn [Nat.eqb Nat.sub Nat.add nth]. rewrite Nat.sub_0_r. ring.
Qed.

(** ** Sorted sequences and the binary search *)

Lemma increasing_lt (l : list R) (i j : nat) :
  increasing l -> (i < j)%nat -> (j < length l)%nat ->
  nth i l 0 < nth j l 0.
Proof.
  intros Hinc Hij. induction Hij as [| j Hij IH]; intros Hj.
  - now apply Hinc.
  - apply Rlt_trans with (nth j l 0); [ apply IH; lia | now apply Hinc ].
Qed.

Lemma increasing_nondecreasing (l : list R) :
  increasing l -> nondecreasing l.
Proof.
  intros Hinc i j Hij Hj.
  destruct (Nat.eq_dec i j) as [-> | Hne]; [ lra | ].
  apply Rlt_le, increasing_lt; [ assumption | lia | assumption ].
Qed.

Lemma increasing_width_pos (t : list R) (i : nat) :
  increasing t -> (S i < length t)%nat -> 0 < width t i.
Proof.
  intros Hinc Hi. unfold width. specialize (Hinc i Hi). lra.
Qed.

Lemma nondecreasing_first_last (t : list R) (j : nat) :
  nondecreasing t -> (j < length t)%nat ->
  nth 0 t 0 <= nth j t 0 /\ nth j t 0 <= last t 0.
Proof.
  intros Hs Hj. rewrite last_nth. split; apply Hs; lia.
Qed.

Lemma increasing_two (t0 t1 : R) : t0 < t1 -> increasing [t0; t1].
Proof.
  intros H i Hi. destruct i as [| i]; simpl in *; [ assumption | lia ].
Qed.

Lemma increasing_three (t0 t1 t2 : R) :
  t0 < t1 -> t1 < t2 -> increasing [t0; t1; t2].
Proof.
  intros H01 H12 i Hi. destruct i as [| [| i]]; simpl in *; try assumption.
  lia.
Qed.

Lemma half_between (lo hi : nat) :
  (lo < hi)%nat -> (lo <= (lo + hi) / 2 < hi)%nat.
Proof.
  intros H.
  pose proof (Nat.div_mod_eq (lo + hi) 2) as E.
  pose proof (Nat.mod_upper_bound (lo + hi) 2) as U.
  lia.
Qed.

(** The loop of the binary search keeps its invariant and ends within
    [hi - lo] iterations: left of the result no entry is above [x], from
    the result on every entry is. *)
Lemma bisect_loop_spec (a : list R) (x : R) :
  nondecreasing a ->
  forall fuel lo hi,
    (lo <= hi)%nat -> (hi <= length a)%nat -> (hi - lo <= fuel)%nat ->
    (forall i, (i < lo)%nat -> nth i a 0 <= x) ->
    (forall i, (hi <= i)%nat -> (i < length a)%nat -> x < nth i a 0) ->
    let r := bisect_loop fuel a x lo hi in
    (lo <= r <= hi)%nat /\
    (forall i, (i < r)%nat -> nth i a 0 <= x) /\
    (forall i, (r <= i)%nat -> (i < length a)%nat -> x < nth i a 0).
Proof.
  intros Hsorted.
  induction fuel as [| fuel IH]; intros lo hi Hlh Hhi Hfuel Hlo Hup;
    cbn [bisect_loop]; cbv zeta.
  - assert (lo = hi) by lia. subst hi. auto.
  - destruct (Nat.ltb_spec lo hi) as [Hlt | Hge].
    + pose proof (half_between lo hi Hlt) as Hmid.
      destruct (Rltb x (nth ((lo + hi) / 2) a 0)) eqn:Ecmp.
      * apply Rltb_true_iff in Ecmp.
        destruct (IH lo ((lo + hi) / 2)%nat) as [Hr [Hl Hu]];
          try lia; try assumption.
        { intros i Hi Hia.
          apply Rlt_le_trans with (nth ((lo + hi) / 2) a 0);
            [ assumption | now apply Hsorted ]. }
        split; [ lia | auto ].
      * apply Rltb_false_iff in Ecmp.
        destruct (IH (S ((lo + hi) / 2)) hi) as [Hr [Hl Hu]];
          try lia; try assumption.
        { intros i Hi.
          apply Rle_trans with (nth ((lo + hi) / 2) a 0);
            [ apply Hsorted; lia | assumption ]. }
        split; [ lia | auto ].
    + assert (lo = hi) by lia. subst hi. auto.
Qed.

Lemma bisect_spec (a : list R) (x : R) :
  nondecreasing a ->
  (bisect a x <= length a)%nat /\
  (forall i, (i < bisect a x)%nat -> nth i a 0 <= x) /\
  (forall i, (bisect a x <= i)%nat -> (i < length a)%nat -> x < nth i a 0).
Proof.
  intros Hsorted. unfold bisect.
  destruct (bisect_loop_spec a x Hsorted (length a) 0 (length a))
    as [Hr [Hl Hu]]; try (intros; lia).
  split; [ lia | auto ].
Qed.

(** On strictly increasing knots the search for a knot ends just right of
    it. *)
Lemma bisect_at_knot (t : list R) (j : nat) :
  increasing t -> (j < length t)%nat -> bisect t (nth j t 0) = S j.
Proof.
  intros Hinc Hj.
  destruct (bisect_spec t (nth j t 0) (increasing_nondecreasing t Hinc))
    as [Hr [Hl Hu]].
  destruct (Nat.lt_trichotomy (bisect t (nth j t 0)) (S j))
    as [Hlt | [Heq | Hgt]]; [ | assumption | ].
  - specialize (Hu j). assert (nth j t 0 < nth j t 0) by (apply Hu; lia). lra.
  - specialize (Hl (S j) Hgt).
    assert (nth j t 0 < nth (S j) t 0) by (apply Hinc; lia). lra.
Qed.

(** Between the first knot and the last one, the last excluded, the search
    ends inside the knots. *)
Lemma bisect_inside (t : list R) (q : R) :
  nondecreasing t -> (0 < length t)%nat ->
  nth 0 t 0 <= q -> q < last t 0 ->
  (1 <= bisect t q <= length t - 1)%nat.
Proof.
  intros Hsorted Hn H0 Hlast. rewrite last_nth in Hlast.
  destruct (bisect_spec t q Hsorted) as [Hr [Hl Hu]].
  split.
  - destruct (bisect t q) eqn:E; [ | lia ].
    specialize (Hu O). assert (q < nth 0 t 0) by (apply Hu; lia). lra.
  - destruct (Nat.le_gt_cases (bisect t q) (length t - 1)) as [Hle | Hgt];
      [ assumption | ].
    specialize (Hl (length t - 1)%nat Hgt). lra.
Qed.

(** ** The matrix of [__calc_matrix_a] *)

Ltac split_tests :=
  repeat (match goal with
          | |- context [(?u =? ?v)%nat] => destruct (Nat.eqb_spec u v)
          | |- context [(?u <=? ?v)%nat] => destruct (Nat.leb_spec u v)
          | |- context [(?u <? ?v)%nat] => destruct (Nat.ltb_spec u v)
          end; cbn [andb orb negb]; try lia).

Lemma loop_entry_S (n : nat) (h : nat -> R) (k r c : nat) :
  (k < n - 1)%nat ->
  loop_entry n h (S k) r c =
    if (r =? k)%nat && (c =? S k)%nat then h k
    else if (r =? S k)%nat && (c =? k)%nat then h k
    else if (r =? S k)%nat && (c =? S k)%nat && negb (k =? n - 2)%nat
         then 2 * (h k + h (S k))
    else loop_entry n h k r c.
Proof.
  intros Hk. unfold loop_entry.
  split_tests; subst; try reflexivity;
    try (replace (S k - 1)%nat with k by lia; reflexivity).
Qed.

Lemma calc_matrix_a_loop (n : nat) (diff : list R) (k : nat) (m : matrix) :
  length diff = (n - 1)%nat -> (k < n - 1)%nat ->
  square n m ->
  (forall r c, entry m r c = loop_entry n (fun i => nth i diff 0) k r c) ->
  exists m',
    (matrix <-
       (if negb (Z.of_nat k =? Z.of_nat n - 2)%Z then
          di <- subscript diff (Z.of_nat k) ;;
          di1 <- subscript diff (Z.of_nat k + 1) ;;
          assign2 m (Z.of_nat k + 1) (Z.of_nat k + 1) (2 * (di + di1))
        else Ok m) ;;
     di <- subscript diff (Z.of_nat k) ;;
     matrix <- assign2 matrix (Z.of_nat k + 1) (Z.of_nat k) di ;;
     di <- subscript diff (Z.of_nat k) ;;
     assign2 matrix (Z.of_nat k) (Z.of_nat k + 1) di) = Ok m' /\
    square n m' /\
    (forall r c,
       entry m' r c = loop_entry n (fun i => nth i diff 0) (S k) r c).
Proof.
  intros Hd Hk Hsq Hent.
  replace (Z.of_nat k + 1)%Z with (Z.of_nat (S k)) by lia.
  rewrite (subscript_nat diff k 0) by lia.
  assert (Hfirst : exists m1,
            (if negb (Z.of_nat k =? Z.of_nat n - 2)%Z then
               di <- Ok (nth k diff 0) ;;
               di1 <- subscript diff (Z.of_nat (S k)) ;;
               assign2 m (Z.of_nat (S k)) (Z.of_nat (S k)) (2 * (di + di1))
             else Ok m) = Ok m1 /\ square n m1 /\
            forall r c,
              entry m1 r c =
                if (r =? S k)%nat && (c =? S k)%nat && negb (k =? n - 2)%nat
                then 2 * (nth k diff 0 + nth (S k) diff 0) else entry m r c).
  { destruct (Z.eqb_spec (Z.of_nat k) (Z.of_nat n - 2)) as [He | Hne];
      cbn [negb bind].
    - exists m. split; [ reflexivity | ]. split; [ assumption | ].
      intros r c. destruct (Nat.eqb_spec k (n - 2)); [ | lia ].
      now rewrite andb_false_r.
    - rewrite (subscript_nat diff (S k) 0) by lia. cbn [bind].
      destruct (assign2_nat n m (S k) (S k)
                  (2 * (nth k diff 0 + nth (S k) diff 0)) Hsq)
        as [m1 [E1 [S1 N1]]]; [ lia | lia | ].
      exists m1. split; [ assumption | ]. split; [ assumption | ].
      intros r c. rewrite N1.
      destruct (Nat.eqb_spec k (n - 2)); [ lia | ].
      now rewrite andb_true_r. }
  destruct Hfirst as [m1 [E1 [S1 N1]]]. rewrite E1. cbn [bind].
  destruct (assign2_nat n m1 (S k) k (nth k diff 0) S1)
    as [m2 [E2 [S2 N2]]]; [ lia | lia | ].
  rewrite E2. cbn [bind].
  destruct (assign2_nat n m2 k (S k) (nth k diff 0) S2)
    as [m3 [E3 [S3 N3]]]; [ lia | lia | ].
  exists m3. split; [ assumption | ]. split; [ assumption | ].
  intros r c. rewrite N3, N2, N1, Hent.
  now rewrite (loop_entry_S n (fun i => nth i diff 0) k r c Hk).
Qed.

Lemma loop_entry_0 (n : nat) (h : nat -> R) (r c : nat) :
  (2 <= n)%nat ->
  loop_entry n h 0 r c = if (r =? 0)%nat && (c =? 0)%nat then 1 else 0.
Proof.
  intros Hn. unfold loop_entry. split_tests; reflexivity.
Qed.

Lemma loop_entry_final (n : nat) (h : nat -> R) (r c : nat) :
  (2 <= n)%nat -> (r < n)%nat -> (c < n)%nat ->
  (if (r =? n - 1)%nat && (c =? n - 1)%nat then 1
   else if (r =? n - 1)%nat && (c =? n - 2)%nat then 0
   else if (r =? 0)%nat && (c =? 1)%nat then 0
   else loop_entry n h (n - 1) r c) = spec_A n h r c.
Proof.
  intros Hn Hr Hc. unfold loop_entry, spec_A.
  split_tests; subst; try reflexivity;
    try (replace (c + 1 - 1)%nat with c by lia; reflexivity).
Qed.

(** [__calc_matrix_a] returns the matrix of the specification. *)
Lemma calc_matrix_a_spec (n : nat) (diff : list R) :
  (2 <= n)%nat -> length diff = (n - 1)%nat ->
  exists A,
    Spline.__calc_matrix_a (Z.of_nat n) diff = Ok A /\ square n A /\
    forall r c, (r < n)%nat -> (c < n)%nat ->
                entry A r c = spec_A n (fun i => nth i diff 0) r c.
Proof.
  intros Hn Hd. unfold Spline.__calc_matrix_a.
  set (h := fun i => nth i diff 0).
  destruct (assign2_nat n _ 0 0 1 (np_zeros2_square n))
    as [m0 [E0 [S0 N0]]]; [ lia | lia | ].
  change (assign2 (np_zeros2 (Z.of_nat n) (Z.of_nat n)) 0 0 1)
    with (assign2 (np_zeros2 (Z.of_nat n) (Z.of_nat n))
            (Z.of_nat 0) (Z.of_nat 0) 1).
  rewrite E0. cbn [bind].
  replace (Z.of_nat n - 1)%Z with (Z.of_nat (n - 1)) by lia.
  destruct (for_each_range
              (fun k m => square n m /\
                          forall r c, entry m r c = loop_entry n h k r c)
              (fun i matrix =>
                 matrix <-
                   (if negb (i =? Z.of_nat n - 2)%Z then
                      di <- subscript diff i ;;
                      di1 <- subscript diff (i + 1) ;;
                      assign2 matrix (i + 1) (i + 1) (2 * (di + di1))
                    else Ok matrix) ;;
                 di <- subscript diff i ;;
                 matrix <- assign2 matrix (i + 1) i di ;;
                 di <- subscript diff i ;;
                 assign2 matrix i (i + 1) di)
              (n - 1) m0) as [m1 [E1 [S1 N1]]].
  - split; [ assumption | ]. intros r c.
    rewrite N0, np_zeros2_entry. now rewrite loop_entry_0.
  - intros k m Hk [Hsq Hent].
    destruct (calc_matrix_a_loop n diff k m Hd Hk Hsq Hent)
      as [m' [E' [S' N']]].
    exists m'. auto.
  - rewrite E1. cbn [bind].
    destruct (assign2_nat n m1 0 1 0 S1) as [m2 [E2 [S2 N2]]];
      [ lia | lia | ].
    change (assign2 m1 0 1 0) with (assign2 m1 (Z.of_nat 0) (Z.of_nat 1) 0).
    rewrite E2. cbn [bind].
    replace (Z.of_nat n - 2)%Z with (Z.of_nat (n - 2)) by lia.
    destruct (assign2_nat n m2 (n - 1) (n - 2) 0 S2) as [m3 [E3 [S3 N3]]];
      [ lia | lia | ].
    rewrite E3. cbn [bind].
    destruct (assign2_nat n m3 (n - 1) (n - 1) 1 S3) as [m4 [E4 [S4 N4]]];
      [ lia | lia | ].
    exists m4. split; [ assumption | ]. split; [ assumption | ].
    intros r c Hr Hc. rewrite N4, N3, N2, N1.
    now apply loop_entry_final.
Qed.

Lemma calc_matrix_a_Ok_inv (n : nat) (diff : list R) (A : matrix) :
  Spline.__calc_matrix_a (Z.of_nat n) diff = Ok A -> (2 <= n)%nat.
Proof.
  intros H. destruct n as [| [| n]]; [ | | lia ].
  - cbn in H. discriminate.
  - cbn in H. discriminate.
Qed.

Lemma spec_A_ext (n : nat) (h h' : nat -> R) (r c : nat) :
  (forall i, (i < n - 1)%nat -> h i = h' i) ->
  (r < n)%nat -> spec_A n h r c = spec_A n h' r c.
Proof.
  intros Hh Hr. unfold spec_A.
  split_tests; try reflexivity; rewrite ?(Hh (r - 1)%nat), ?(Hh r) by lia;
    reflexivity.
Qed.

Lemma spec_rhs_ext (n : nat) (h h' y : nat -> R) (i : nat) :
  (forall i, (i < n - 1)%nat -> h i = h' i) ->
  (i < n)%nat -> spec_rhs n h y i = spec_rhs n h' y i.
Proof.
  intros Hh Hi. unfold spec_rhs.
  split_tests; try reflexivity; rewrite ?(Hh (i - 1)%nat), ?(Hh i) by lia;
    reflexivity.
Qed.

(** ** The right-hand side of [__calc_matrix_b] *)

Lemma calc_matrix_b_spec (n : nat) (d diff : list R) :
  (2 <= n)%nat -> (n <= length d)%nat -> length diff = (n - 1)%nat ->
  exists B,
    Spline.__calc_matrix_b (Z.of_nat n) d diff = Ok B /\ length B = n /\
    forall i, (i < n)%nat ->
      nth i B 0 =
        spec_rhs n (fun i => nth i diff 0) (fun i => nth i d 0) i.
Proof.
  intros Hn Hlen Hd. unfold Spline.__calc_matrix_b.
  replace (Z.of_nat n - 2)%Z with (Z.of_nat (n - 2)) by lia.
  destruct (for_each_range
              (fun k m =>
                 length m = n /\
                 forall i, nth i m 0 =
                   if (1 <=? i)%nat && (i <=? k)%nat then
                     3 * (nth (i + 1) d 0 - nth i d 0) / nth i diff 0
                     - 3 * (nth i d 0 - nth (i - 1) d 0) / nth (i - 1) diff 0
                   else 0)
              (fun i matrix =>
                 d2 <- subscript d (i + 2) ;;
                 d1 <- subscript d (i + 1) ;;
                 h1 <- subscript diff (i + 1) ;;
                 d1' <- subscript d (i + 1) ;;
                 d0 <- subscript d i ;;
                 h0 <- subscript diff i ;;
                 assign matrix (i + 1)
                   (3 * (d2 - d1) / h1 - 3 * (d1' - d0) / h0))
              (n - 2) (np_zeros (Z.of_nat n))) as [B [E [HB NB]]].
  - unfold np_zeros. rewrite Nat2Z.id, repeat_length. split; [ reflexivity | ].
    intros i.
    split_tests;
      (destruct (Nat.lt_ge_cases i n);
       [ now rewrite nth_repeat_lt
       | apply nth_overflow; now rewrite repeat_length ]).
  - intros k m Hk [Hm Hent].
    replace (Z.of_nat k + 2)%Z with (Z.of_nat (S (S k))) by lia.
    replace (Z.of_nat k + 1)%Z with (Z.of_nat (S k)) by lia.
    rewrite (subscript_nat d (S (S k)) 0) by lia.
    rewrite (subscript_nat d (S k) 0) by lia.
    rewrite (subscript_nat diff (S k) 0) by lia.
    rewrite (subscript_nat d k 0) by lia.
    rewrite (subscript_nat diff k 0) by lia.
    cbn [bind]. rewrite assign_nat by lia.
    eexists. split; [ reflexivity | ].
    split; [ now rewrite replace_nth_length | ].
    intros i. rewrite replace_nth_nth by lia. rewrite Hent.
    split_tests; subst; try reflexivity.
    replace (S k + 1)%nat with (S (S k)) by lia.
    replace (S k - 1)%nat with k by lia. reflexivity.
  - exists B. split; [ assumption | ]. split; [ assumption | ].
    intros i Hi. rewrite NB. unfold spec_rhs.
    split_tests; reflexivity.
Qed.

(** ** The solver *)

Lemma linalg_solve_Ok_inv (A : matrix) (rhs b : list R) :
  linalg_solve A rhs = Ok b -> is_solution A rhs b.
Proof.
  unfold linalg_solve.
  destruct (excluded_middle_informative _) as [H | H]; [ | discriminate ].
  intros E. injection E as E. rewrite <- E.
  exact (proj2_sig (constructive_definite_description _ H)).
Qed.

Lemma linalg_solve_Ok_unique (A : matrix) (rhs b : list R) :
  linalg_solve A rhs = Ok b ->
  forall b', is_solution A rhs b' -> b' = b.
Proof.
  unfold linalg_solve.
  destruct (excluded_middle_informative _) as [H | H]; [ | discriminate ].
  intros E b' Hb'. injection E as E. rewrite <- E.
  pose proof (proj2_sig (constructive_definite_description _ H)) as Hb.
  cbv beta in Hb.
  destruct H as [b0 [Hb0 Hu]].
  rewrite <- (Hu _ Hb'), <- (Hu _ Hb). reflexivity.
Qed.

Lemma linalg_solve_unique (A : matrix) (rhs b : list R) :
  is_solution A rhs b ->
  (forall b', is_solution A rhs b' -> b' = b) ->
  linalg_solve A rhs = Ok b.
Proof.
  intros Hb Huniq. unfold linalg_solve.
  destruct (excluded_middle_informative _) as [H | H].
  - f_equal.
    destruct (constructive_definite_description _ H) as [b0 Hb0].
    simpl. now apply Huniq.
  - exfalso. apply H. exists b. split; [ assumption | ].
    intros b' Hb'. symmetry. now apply Huniq.
Qed.

(** ** The system of a spline has exactly one solution *)

Section Thomas.

Variable n : nat.
Variables h f : nat -> R.
Hypothesis h_pos : forall i, (i + 1 < n)%nat -> 0 < h i.

Lemma thomas_S (r : nat) :
  thomas h f (S r) =
    (h (S r) / (2 * (h r + h (S r)) - h r * fst (thomas h f r)),
     (f (S r) - h r * snd (thomas h f r))
     / (2 * (h r + h (S r)) - h r * fst (thomas h f r))).
Proof. reflexivity. Qed.

(** The pivots of the forward sweep are positive: the matrix is strictly
    diagonally dominant. *)
Lemma thomas_bounds (r : nat) :
  (r + 1 < n)%nat -> 0 <= fst (thomas h f r) < 1.
Proof.
  induction r as [| r IH]; intros Hr.
  - cbn. lra.
  - rewrite thomas_S. cbn [fst].
    pose proof (IH ltac:(lia)) as [Hlo Hhi].
    pose proof (h_pos r ltac:(lia)) as Hh.
    pose proof (h_pos (S r) ltac:(lia)) as Hh'.
    set (den := 2 * (h r + h (S r)) - h r * fst (thomas h f r)).
    assert (Hden : h (S r) < den) by (unfold den; nra).
    split.
    + apply Rlt_le, Rdiv_lt_0_compat; lra.
    + apply Rmult_lt_reg_r with (r := den); [ lra | ].
      unfold Rdiv. rewrite Rmult_assoc, Rinv_l by lra. lra.
Qed.

Lemma thomas_pivot_pos (r : nat) :
  (S r + 1 < n)%nat ->
  0 < 2 * (h r + h (S r)) - h r * fst (thomas h f r).
Proof.
  intros Hr.
  pose proof (thomas_bounds r ltac:(lia)) as [Hlo Hhi].
  pose proof (h_pos r ltac:(lia)). pose proof (h_pos (S r) ltac:(lia)).
  nra.
Qed.

(** Every solution satisfies the rows left by the forward sweep. *)
Lemma thomas_forward (b : nat -> R) (r : nat) :
  solves_rows n h f b -> (r + 1 < n)%nat ->
  b r = snd (thomas h f r) - fst (thomas h f r) * b (S r).
Proof.
  intros [H0 [_ Hrows]]. induction r as [| r IH]; intros Hr.
  - cbn. lra.
  - rewrite thomas_S. cbn [fst snd].
    pose proof (thomas_pivot_pos r Hr) as Hden.
    specialize (IH ltac:(lia)).
    specialize (Hrows (S r) ltac:(lia) ltac:(lia)).
    replace (S r - 1)%nat with r in Hrows by lia.
    replace (S r + 1)%nat with (S (S r)) in Hrows by lia.
    set (den := 2 * (h r + h (S r)) - h r * fst (thomas h f r)) in *.
    assert (E : den * b (S r)
                = f (S r) - h r * snd (thomas h f r) - h (S r) * b (S (S r))).
    { unfold den. rewrite <- Hrows. rewrite IH. ring. }
    apply Rmult_eq_reg_l with (r := den); [ | lra ].
    rewrite E. field. lra.
Qed.

Lemma back_substitute_S (k : nat) :
  back_substitute h f n (S k) =
    snd (thomas h f (n - 1 - S k))
    - fst (thomas h f (n - 1 - S k)) * back_substitute h f n k.
Proof. reflexivity. Qed.

(** Hence there is at most one solution: the back substitution. *)
Lemma thomas_unique (b : nat -> R) :
  solves_rows n h f b ->
  forall r, (r < n)%nat -> b r = back_substitute h f n (n - 1 - r).
Proof.
  intros Hb.
  assert (G : forall k, (k <= n - 1)%nat ->
            b (n - 1 - k)%nat = back_substitute h f n k).
  { induction k as [| k IH]; intros Hk.
    - rewrite Nat.sub_0_r. cbn. apply Hb.
    - rewrite back_substitute_S, <- IH by lia.
      rewrite (thomas_forward b (n - 1 - S k) Hb) by lia.
      replace (S (n - 1 - S k)) with (n - 1 - k)%nat by lia. reflexivity. }
  intros r Hr. rewrite <- G by lia. f_equal. lia.
Qed.

Lemma back_substitute_step (r : nat) :
  (r + 1 < n)%nat ->
  back_substitute h f n (n - 1 - r) =
    snd (thomas h f r)
    - fst (thomas h f r) * back_substitute h f n (n - 1 - S r).
Proof.
  intros Hr.
  replace (n - 1 - r)%nat with (S (n - 1 - S r)) by lia.
  rewrite back_substitute_S.
  replace (n - 1 - S (n - 1 - S r))%nat with r by lia. reflexivity.
Qed.

(** And the back substitution is a solution. *)
Lemma thomas_solves :
  (2 <= n)%nat ->
  solves_rows n h f (fun r => back_substitute h f n (n - 1 - r)).
Proof.
  intros Hn. split; [ | split ].
  - rewrite back_substitute_step by lia. cbn [thomas fst snd]. ring.
  - replace (n - 1 - (n - 1))%nat with O by lia. reflexivity.
  - intros r Hr1 Hr2.
    rewrite (back_substitute_step (r - 1)) by lia.
    replace (S (r - 1)) with r by lia.
    rewrite (back_substitute_step r) by lia.
    replace (r + 1)%nat with (S r) by lia.
    destruct r as [| r]; [ lia | ].
    replace (S r - 1)%nat with r by lia.
    rewrite (thomas_S r). cbn [fst snd].
    pose proof (thomas_pivot_pos r ltac:(lia)) as Hden.
    set (den := 2 * (h r + h (S r)) - h r * fst (thomas h f r)) in *.
    set (x2 := back_substitute h f n (n - 1 - S (S r))).
    field_simplify; [ | lra ].
    unfold den. field. fold den. lra.
Qed.

End Thomas.

Lemma solves_rows_ext (n : nat) (h f b b' : nat -> R) :
  (2 <= n)%nat -> (forall i, (i < n)%nat -> b i = b' i) ->
  solves_rows n h f b -> solves_rows n h f b'.
Proof.
  intros Hn Hext [H0 [Hl Hrows]]. split; [ | split ].
  - rewrite <- Hext by lia. exact H0.
  - rewrite <- Hext by lia. exact Hl.
  - intros r Hr1 Hr2. rewrite <- !Hext by lia. now apply Hrows.
Qed.

(** A vector solves [A b = rhs], for the matrix and the right-hand side of
    the specification, exactly when it solves the rows. *)
Lemma is_solution_rows (n : nat) (h y : nat -> R) (A : matrix)
    (B b : list R) :
  (2 <= n)%nat -> square n A ->
  (forall r c, (r < n)%nat -> (c < n)%nat ->
               entry A r c = spec_A n h r c) ->
  length B = n ->
  (forall i, (i < n)%nat -> nth i B 0 = spec_rhs n h y i) ->
  length b = n ->
  (mat_vec A b = B <->
   solves_rows n h (spec_rhs n h y) (fun i => nth i b 0)).
Proof.
  intros Hn [LA RA] NA LB NB Lb.
  assert (Hdot : forall r, (r < n)%nat ->
            nth r (mat_vec A b) 0 = dot (nth r A []) b).
  { intros r Hr. unfold mat_vec.
    change (nth r (map (fun row => dot row b) A)
              ((fun row => dot row b) []) = dot (nth r A []) b).
    now rewrite map_nth. }
  assert (Hband : forall r, (r < n)%nat ->
            dot (nth r A []) b =
              (if (r =? 0)%nat then 0
               else entry A r (r - 1) * nth (r - 1) b 0)
              + entry A r r * nth r b 0
              + entry A r (r + 1) * nth (r + 1) b 0).
  { intros r Hr.
    apply dot_band; [ rewrite RA, Lb; lia | lia | ].
    intros j Hj.
    destruct (Nat.lt_ge_cases j n) as [Hjn | Hjn].
    - change (nth j (nth r A []) 0) with (entry A r j).
      rewrite NA by lia. unfold spec_A. split_tests; reflexivity.
    - apply nth_overflow. rewrite RA; lia. }
  assert (Hfirst : dot (nth 0 A []) b = nth 0 b 0).
  { rewrite Hband by lia. rewrite !NA by lia.
    unfold spec_A. cbn [Nat.eqb Nat.add]. ring. }
  assert (Hlast : dot (nth (n - 1) A []) b = nth (n - 1) b 0).
  { rewrite Hband by lia. rewrite !NA by lia.
    rewrite nth_overflow with (l := b) (n := (n - 1 + 1)%nat) by lia.
    unfold spec_A.
    destruct (Nat.eqb_spec (n - 1) 0); [ lia | ].
    rewrite Nat.eqb_refl.
    destruct (Nat.eqb_spec (n - 1 - 1) (n - 1)); [ lia | ]. ring. }
  assert (Hmid : forall r, (1 <= r)%nat -> (r + 1 < n)%nat ->
            dot (nth r A []) b =
              h (r - 1)%nat * nth (r - 1) b 0
              + 2 * (h (r - 1)%nat + h r) * nth r b 0
              + h r * nth (r + 1) b 0).
  { intros r Hr1 Hr2. rewrite Hband by lia. rewrite !NA by lia.
    unfold spec_A.
    destruct (Nat.eqb_spec r 0); [ lia | ].
    destruct (Nat.eqb_spec r (n - 1)); [ lia | ].
    rewrite !Nat.eqb_refl.
    destruct (Nat.eqb_spec r (r - 1)); [ lia | ].
    destruct (Nat.eqb_spec (r + 1) (r - 1)); [ lia | ].
    destruct (Nat.eqb_spec (r + 1) r); [ lia | ]. reflexivity. }
  assert (B0 : nth 0 B 0 = 0).
  { rewrite NB by lia. unfold spec_rhs. reflexivity. }
  assert (Bl : nth (n - 1) B 0 = 0).
  { rewrite NB by lia. unfold spec_rhs.
    now rewrite Nat.eqb_refl, orb_true_r. }
  split.
  - intros Hsol. split; [ | split ].
    + rewrite <- Hfirst, <- Hdot, Hsol by lia. exact B0.
    + rewrite <- Hlast, <- Hdot, Hsol by lia. exact Bl.
    + intros r Hr1 Hr2.
      rewrite <- Hmid, <- Hdot, Hsol by lia. apply NB. lia.
  - intros [H0 [Hl Hrows]].
    apply nth_ext with (d := 0) (d' := 0).
    + unfold mat_vec. rewrite length_map. lia.
    + unfold mat_vec at 1. rewrite length_map, LA. intros r Hr.
      rewrite Hdot by assumption.
      destruct (Nat.eq_dec r 0) as [-> | Hr0];
        [ rewrite Hfirst, B0; exact H0 | ].
      destruct (Nat.eq_dec r (n - 1)) as [-> | Hrl];
        [ rewrite Hlast, Bl; exact Hl | ].
      rewrite Hmid, NB by lia. apply Hrows; lia.
Qed.

(** ** The constructor of [Spline] *)

(** What a successful construction tells about its arguments and about
    the instance. *)
Lemma Spline_init_inv (t y : list R) (sp : Spline.t) :
  Spline.__init__ t y = Ok sp ->
  (2 <= length t)%nat /\ (length t <= length y)%nat /\
  Spline.x sp = t /\ Spline.y sp = y /\ Spline.d sp = y /\
  Spline.x_dim sp = len t /\
  length (Spline.b sp) = length t /\
  length (Spline.c sp) = (length t - 1)%nat /\
  length (Spline.a sp) = (length t - 1)%nat /\
  exists A B,
    Spline.__calc_matrix_a (len t) (np_diff t) = Ok A /\
    Spline.__calc_matrix_b (len t) y (np_diff t) = Ok B /\
    linalg_solve A B = Ok (Spline.b sp).
Proof.
  unfold Spline.__init__. intros H.
  apply bind_Ok_inv in H. destruct H as [A [EA H]].
  apply bind_Ok_inv in H. destruct H as [B [EB H]].
  apply bind_Ok_inv in H. destruct H as [b [Eb H]].
  apply bind_Ok_inv in H. destruct H as [c [Ec H]].
  apply bind_Ok_inv in H. destruct H as [a [Ea H]].
  injection H as <-. cbn [Spline.x Spline.y Spline.d Spline.x_dim Spline.b
                          Spline.c Spline.a].
  assert (Hn : (2 <= length t)%nat) by (eapply calc_matrix_a_Ok_inv; exact EA).
  assert (Hc : length c = (length t - 1)%nat).
  { rewrite (comprehension_length _ _ _ Ec), range_length. unfold len. lia. }
  assert (Ha : length a = (length t - 1)%nat).
  { rewrite (comprehension_length _ _ _ Ea), range_length. unfold len. lia. }
  assert (Hy : (length t <= length y)%nat).
  { destruct (comprehension_nth _ _ _ Ec (length t - 2)
                (Z.of_nat (length t - 2))) as [v [Ev _]].
    - apply range_nth. unfold len. lia.
    - apply bind_Ok_inv in Ev. destruct Ev as [dd [Edd _]].
      apply subscript_Ok_nat in Edd. rewrite np_diff_length in Edd. lia. }
  assert (Hsol : is_solution A B b) by now apply linalg_solve_Ok_inv.
  destruct (calc_matrix_b_spec (length t) y (np_diff t) Hn Hy)
    as [B' [EB' [HB' _]]]; [ apply np_diff_length | ].
  unfold len in EB. rewrite EB in EB'. injection EB' as <-.
  repeat (split; [ solve [ auto ] | ]).
  split; [ destruct Hsol as [Hl _]; now rewrite Hl | ].
  repeat (split; [ solve [ auto ] | ]).
  exists A, B. auto.
Qed.

(** Construction succeeds as soon as the linear system has exactly one
    solution. *)
Lemma Spline_init_Ok (t y : list R) (A : matrix) (B b : list R) :
  (2 <= length t)%nat -> (length t <= length y)%nat ->
  Spline.__calc_matrix_a (len t) (np_diff t) = Ok A ->
  Spline.__calc_matrix_b (len t) y (np_diff t) = Ok B ->
  linalg_solve A B = Ok b ->
  exists sp, Spline.__init__ t y = Ok sp /\ Spline.b sp = b.
Proof.
  intros Hn Hy EA EB Eb. unfold Spline.__init__.
  rewrite EA. cbn [bind]. rewrite EB. cbn [bind]. rewrite Eb. cbn [bind].
  assert (Hb : length b = length t).
  { destruct (linalg_solve_Ok_inv _ _ _ Eb) as [Hl _]. rewrite Hl.
    destruct (calc_matrix_b_spec (length t) y (np_diff t) Hn Hy)
      as [B' [EB' [HB' _]]]; [ apply np_diff_length | ].
    unfold len in EB. rewrite EB in EB'. now injection EB' as <-. }
  destruct (comprehension_Ok
              (fun i =>
                 dd <- subscript (np_diff y) i ;;
                 h <- subscript (np_diff t) i ;;
                 h' <- subscript (np_diff t) i ;;
                 b1 <- subscript b (i + 1) ;;
                 b0 <- subscript b i ;;
                 Ok (dd / h - h' * (b1 + 2 * b0) / 3))
              (range (len t - 1))) as [c Ec].
  { intros i Hi. unfold len in Hi.
    replace (Z.of_nat (length t) - 1)%Z with (Z.of_nat (length t - 1)) in Hi
      by lia.
    apply range_In in Hi. destruct Hi as [k [Hk ->]].
    replace (Z.of_nat k + 1)%Z with (Z.of_nat (S k)) by lia.
    rewrite (subscript_nat (np_diff y) k 0) by (rewrite np_diff_length; lia).
    rewrite (subscript_nat (np_diff t) k 0) by (rewrite np_diff_length; lia).
    rewrite (subscript_nat b (S k) 0) by lia.
    rewrite (subscript_nat b k 0) by lia.
    cbn [bind]. eauto. }
  rewrite Ec. cbn [bind].
  destruct (comprehension_Ok
              (fun i =>
                 bd <- subscript (np_diff b) i ;;
                 h <- subscript (np_diff t) i ;;
                 Ok (bd / (3 * h)))
              (range (len t - 1))) as [a Ea].
  { intros i Hi. unfold len in Hi.
    replace (Z.of_nat (length t) - 1)%Z with (Z.of_nat (length t - 1)) in Hi
      by lia.
    apply range_In in Hi. destruct Hi as [k [Hk ->]].
    rewrite (subscript_nat (np_diff b) k 0) by (rewrite np_diff_length; lia).
    rewrite (subscript_nat (np_diff t) k 0) by (rewrite np_diff_length; lia).
    cbn [bind]. eauto. }
  rewrite Ea. cbn [bind]. eexists. split; reflexivity.
Qed.

(** The coefficients [c] and [a] of every segment, as [__init__] computes
    them from [b] (steps 4 and 5 of the specification). *)
Lemma Spline_init_coefficients (t y : list R) (sp : Spline.t) (i : nat) :
  Spline.__init__ t y = Ok sp ->
  (i < length t - 1)%nat ->
  nth i (Spline.c sp) 0 =
    (nth (S i) y 0 - nth i y 0) / width t i
    - width t i * (nth (S i) (Spline.b sp) 0 + 2 * nth i (Spline.b sp) 0) / 3
  /\
  nth i (Spline.a sp) 0 =
    (nth (S i) (Spline.b sp) 0 - nth i (Spline.b sp) 0) / (3 * width t i).
Proof.
  intros H Hi.
  pose proof (Spline_init_inv t y sp H)
    as [Hn [Hy [_ [_ [_ [_ [Hb _]]]]]]].
  unfold Spline.__init__ in H.
  apply bind_Ok_inv in H. destruct H as [A [EA H]].
  apply bind_Ok_inv in H. destruct H as [B [EB H]].
  apply bind_Ok_inv in H. destruct H as [b [Eb H]].
  apply bind_Ok_inv in H. destruct H as [c [Ec H]].
  apply bind_Ok_inv in H. destruct H as [a [Ea H]].
  injection H as <-. cbn [Spline.b Spline.c Spline.a] in *.
  assert (Hr : nth_error (range (len t - 1)) i = Some (Z.of_nat i)).
  { apply range_nth. unfold len. lia. }
  destruct (comprehension_nth _ _ _ Ec i _ Hr) as [cv [Ecv Hcv]].
  destruct (comprehension_nth _ _ _ Ea i _ Hr) as [av [Eav Hav]].
  replace (Z.of_nat i + 1)%Z with (Z.of_nat (S i)) in Ecv by lia.
  rewrite (subscript_nat (np_diff y) i 0) in Ecv
    by (rewrite np_diff_length; lia).
  rewrite (subscript_nat (np_diff t) i 0) in Ecv, Eav
    by (rewrite np_diff_length; lia).
  rewrite (subscript_nat b (S i) 0), (subscript_nat b i 0) in Ecv by lia.
  rewrite (subscript_nat (np_diff b) i 0) in Eav
    by (rewrite np_diff_length; lia).
  cbn [bind] in Ecv, Eav.
  injection Ecv as <-. injection Eav as <-.
  rewrite (nth_error_nth _ _ 0 Hcv), (nth_error_nth _ _ 0 Hav).
  rewrite !np_diff_nth by lia. unfold width. split; reflexivity.
Qed.

(** The rows of the linear system, read on the coefficients of a fitted
    spline: [b] vanishes at both ends and satisfies the three-term
    equation on every interior row. *)
Lemma Spline_init_system (t y : list R) (sp : Spline.t) :
  Spline.__init__ t y = Ok sp ->
  nth 0 (Spline.b sp) 0 = 0 /\
  nth (length t - 1) (Spline.b sp) 0 = 0 /\
  forall r, (1 <= r)%nat -> (r + 1 < length t)%nat ->
    width t (r - 1) * nth (r - 1) (Spline.b sp) 0
    + 2 * (width t (r - 1) + width t r) * nth r (Spline.b sp) 0
    + width t r * nth (r + 1) (Spline.b sp) 0
    = 3 * (nth (r + 1) y 0 - nth r y 0) / width t r
      - 3 * (nth r y 0 - nth (r - 1) y 0) / width t (r - 1).
Proof.
  intros H.
  pose proof (Spline_init_inv t y sp H)
    as [Hn [Hy [_ [_ [_ [_ [Hb [_ [_ [A [B [EA [EB Esolve]]]]]]]]]]]]].
  destruct (calc_matrix_a_spec (length t) (np_diff t) Hn (np_diff_length t))
    as [A' [EA' [[LA RA] NA]]].
  destruct (calc_matrix_b_spec (length t) y (np_diff t) Hn Hy
              (np_diff_length t)) as [B' [EB' [LB NB]]].
  unfold len in EA, EB.
  rewrite EA in EA'. injection EA' as <-.
  rewrite EB in EB'. injection EB' as <-.
  destruct (linalg_solve_Ok_inv _ _ _ Esolve) as [_ Hsol].
  assert (Hrow : forall r, (r < length t)%nat ->
            dot (nth r A []) (Spline.b sp) = nth r B 0).
  { intros r Hr. rewrite <- Hsol. unfold mat_vec.
    change (dot (nth r A []) (Spline.b sp) =
            nth r (map (fun row => dot row (Spline.b sp)) A)
              ((fun row => dot row (Spline.b sp)) [])).
    now rewrite map_nth. }
  assert (Hband : forall r, (r < length t)%nat ->
            dot (nth r A []) (Spline.b sp) =
              (if (r =? 0)%nat then 0
               else entry A r (r - 1) * nth (r - 1) (Spline.b sp) 0)
              + entry A r r * nth r (Spline.b sp) 0
              + entry A r (r + 1) * nth (r + 1) (Spline.b sp) 0).
  { intros r Hr.
    apply dot_band; [ rewrite RA, Hb; lia | lia | ].
    intros j Hj.
    destruct (Nat.lt_ge_cases j (length t)) as [Hjn | Hjn].
    - change (nth j (nth r A []) 0) with (entry A r j).
      rewrite NA by lia. unfold spec_A. split_tests; reflexivity.
    - apply nth_overflow. rewrite RA; lia. }
  assert (Hw : forall i, (i < length t - 1)%nat ->
                 nth i (np_diff t) 0 = width t i).
  { intros i Hi. apply np_diff_nth. lia. }
  split; [ | split ].
  - specialize (Hrow O ltac:(lia)). rewrite Hband in Hrow by lia.
    rewrite !NA, NB in Hrow by lia.
    unfold spec_A, spec_rhs in Hrow. cbn [Nat.eqb Nat.add orb] in Hrow.
    lra.
  - specialize (Hrow (length t - 1)%nat ltac:(lia)).
    rewrite Hband in Hrow by lia.
    rewrite !NA, NB in Hrow by lia.
    rewrite nth_overflow
      with (l := Spline.b sp) (n := (length t - 1 + 1)%nat) in Hrow by lia.
    unfold spec_A, spec_rhs in Hrow.
    destruct (Nat.eqb_spec (length t - 1) 0); [ lia | ].
    rewrite Nat.eqb_refl, orb_true_r in Hrow.
    destruct (Nat.eqb_spec (length t - 1 - 1) (length t - 1)); [ lia | ].
    lra.
  - intros r Hr1 Hr2. specialize (Hrow r ltac:(lia)).
    rewrite Hband in Hrow by lia.
    rewrite !NA, NB in Hrow by lia.
    unfold spec_A, spec_rhs in Hrow.
    destruct (Nat.eqb_spec r 0); [ lia | ].
    destruct (Nat.eqb_spec r (length t - 1)); [ lia | ].
    rewrite Nat.eqb_refl in Hrow.
    destruct (Nat.eqb_spec r (r - 1)); [ lia | ].
    destruct (Nat.eqb_spec (r + 1) (r - 1)); [ lia | ].
    destruct (Nat.eqb_spec (r + 1) r); [ lia | ].
    rewrite !Nat.eqb_refl in Hrow. cbn [orb] in Hrow.
    rewrite !Hw in Hrow by lia. lra.
Qed.

(** A spline is fitted from every strictly increasing sequence of at
    least two knots and at least as many values. *)
Lemma Spline_fit_exists (t y : list R) :
  increasing t -> (2 <= length t)%nat -> (length t <= length y)%nat ->
  exists sp, Spline.__init__ t y = Ok sp.
Proof.
  intros Hinc Hn Hy.
  destruct (calc_matrix_a_spec (length t) (np_diff t) Hn (np_diff_length t))
    as [A [EA [SA NA]]].
  destruct (calc_matrix_b_spec (length t) y (np_diff t) Hn Hy
              (np_diff_length t)) as [B [EB [LB NB]]].
  set (n := length t) in *.
  set (h := fun i => nth i (np_diff t) 0) in *.
  set (f := spec_rhs n h (fun i => nth i y 0)).
  assert (h_pos : forall i, (i + 1 < n)%nat -> 0 < h i).
  { intros i Hi. unfold h. rewrite np_diff_nth by (fold n; lia).
    apply increasing_width_pos; [ assumption | fold n; lia ]. }
  set (X := fun r => back_substitute h f n (n - 1 - r)).
  set (b := map X (seq 0 n)).
  assert (Lb : length b = n) by (unfold b; now rewrite length_map, length_seq).
  assert (Nb : forall i, (i < n)%nat -> nth i b 0 = X i).
  { intros i Hi. unfold b.
    rewrite (nth_indep _ 0 (X O)) by (rewrite length_map, length_seq; lia).
    rewrite map_nth, seq_nth by lia. reflexivity. }
  destruct (Spline_init_Ok t y A B b Hn Hy EA EB) as [sp [H _]];
    [ | eauto ].
  apply linalg_solve_unique.
  - split; [ lia | ].
    apply (is_solution_rows n h (fun i => nth i y 0) A B b); auto.
    apply solves_rows_ext with (b := X); [ lia | | ].
    + intros i Hi. symmetry. now apply Nb.
    + apply thomas_solves; assumption.
  - intros b' [Lb' Hb'].
    apply (is_solution_rows n h (fun i => nth i y 0) A B b') in Hb';
      auto; [ | lia ].
    apply nth_ext with (d := 0) (d' := 0); [ lia | ].
    intros r Hr. rewrite Nb by lia.
    apply (thomas_unique n h f h_pos (fun i => nth i b' 0) Hb'). lia.
Qed.

(** Two knots: the system is the identity with a zero right-hand side. *)
Lemma Spline_init_two (t0 t1 y0 y1 : R) (ys : list R) :
  exists sp,
    Spline.__init__ [t0; t1] (y0 :: y1 :: ys) = Ok sp /\
    Spline.b sp = [0; 0].
Proof.
  destruct (calc_matrix_a_spec 2 (np_diff [t0; t1]))
    as [A [EA [SA NA]]]; [ lia | reflexivity | ].
  destruct (calc_matrix_b_spec 2 (y0 :: y1 :: ys) (np_diff [t0; t1]))
    as [B [EB [LB NB]]]; [ lia | simpl; lia | reflexivity | ].
  apply (Spline_init_Ok [t0; t1] (y0 :: y1 :: ys) A B);
    [ simpl; lia | simpl; lia | exact EA | exact EB | ].
  rewrite (square_ext 2 A SA), (vector_ext 2 B LB). cbn [map seq].
  rewrite !NA, !NB by lia. cbn.
  apply linalg_solve_unique.
  - split; [ reflexivity | ]. cbn. repeat f_equal; lra.
  - intros b' [Hl Hb']. destruct b' as [| u [| v [| w b']]]; try discriminate.
    cbn in Hb'. injection Hb' as Hu Hv. f_equal; [ lra | f_equal; lra ].
Qed.

(** Three increasing knots: the middle row has a nonzero pivot. *)
Lemma Spline_init_three (t0 t1 t2 y0 y1 y2 : R) (ys : list R) :
  t0 < t1 -> t1 < t2 ->
  exists sp,
    Spline.__init__ [t0; t1; t2] (y0 :: y1 :: y2 :: ys) = Ok sp /\
    Spline.b sp =
      [0;
       (3 * (y2 - y1) / (t2 - t1) - 3 * (y1 - y0) / (t1 - t0))
       / (2 * ((t1 - t0) + (t2 - t1)));
       0].
Proof.
  intros H01 H12.
  destruct (calc_matrix_a_spec 3 (np_diff [t0; t1; t2]))
    as [A [EA [SA NA]]]; [ lia | reflexivity | ].
  destruct (calc_matrix_b_spec 3 (y0 :: y1 :: y2 :: ys) (np_diff [t0; t1; t2]))
    as [B [EB [LB NB]]]; [ lia | simpl; lia | reflexivity | ].
  apply (Spline_init_Ok [t0; t1; t2] (y0 :: y1 :: y2 :: ys) A B);
    [ simpl; lia | simpl; lia | exact EA | exact EB | ].
  rewrite (square_ext 3 A SA), (vector_ext 3 B LB). cbn [map seq].
  rewrite !NA, !NB by lia. cbn.
  apply linalg_solve_unique.
  - split; [ reflexivity | ]. cbn.
    f_equal; [ lra | f_equal; [ field; lra | f_equal; lra ] ].
  - intros b' [Hl Hb'].
    destruct b' as [| u [| v [| w [| z b']]]]; try discriminate.
    cbn in Hb'. injection Hb' as Hu Hv Hw.
    assert (u = 0) by lra. assert (w = 0) by lra. subst u w.
    f_equal. f_equal.
    apply Rmult_eq_reg_l with (r := 2 * (t1 - t0 + (t2 - t1))); [ | lra ].
    rewrite <- Hv. field. lra.
Qed.

(** ** Queries on a fitted [Spline] *)

Lemma out_of_bounds_fitted (t y : list R) (sp : Spline.t) (q : R) :
  Spline.__init__ t y = Ok sp ->
  Spline.out_of_bounds sp q =
    Ok (negb (Rleb (nth 0 t 0) q && Rleb q (last t 0))).
Proof.
  intros H. apply Spline_init_inv in H.
  destruct H as [Hn [_ [Hx _]]].
  unfold Spline.out_of_bounds. rewrite Hx.
  change (subscript t 0) with (subscript t (Z.of_nat 0)).
  rewrite (subscript_nat t 0 0) by lia. cbn [bind].
  destruct (Rleb (nth 0 t 0) q); cbn [andb negb]; [ | reflexivity ].
  rewrite subscript_last by lia. reflexivity.
Qed.

Lemma in_bounds_false (t : list R) (q : R) :
  nth 0 t 0 <= q -> q <= last t 0 ->
  negb (Rleb (nth 0 t 0) q && Rleb q (last t 0)) = false.
Proof.
  intros H0 H1.
  rewrite (proj2 (Rleb_true_iff _ _) H0), (proj2 (Rleb_true_iff _ _) H1).
  reflexivity.
Qed.

Lemma out_of_bounds_true_iff (t : list R) (q : R) :
  negb (Rleb (nth 0 t 0) q && Rleb q (last t 0)) = true <->
  q < nth 0 t 0 \/ last t 0 < q.
Proof.
  rewrite negb_true_iff, andb_false_iff, !Rleb_false_iff. tauto.
Qed.

(** The three queries, once the segment index is known to be [j]. *)
Ltac query_at q j :=
  let H := fresh "H" in
  let Hn := fresh "Hn" in
  let Hy := fresh "Hy" in
  let Hx := fresh "Hx" in
  let Hd := fresh "Hd" in
  let Hb := fresh "Hb" in
  let Hc := fresh "Hc" in
  let Ha := fresh "Ha" in
  intros H H0 H1 Hj Hlt;
  pose proof (out_of_bounds_fitted _ _ _ q H) as Hout;
  apply Spline_init_inv in H;
  destruct H as [Hn [Hy [Hx [_ [Hd [_ [Hb [Hc [Ha _]]]]]]]]];
  rewrite Hout, in_bounds_false by assumption; cbn [bind];
  unfold Spline.__search_index; rewrite Hx, ?Hd, Hj;
  replace (Z.of_nat (S j) - 1)%Z with (Z.of_nat j) by lia.

Lemma position_at (t y : list R) (sp : Spline.t) (q : R) (j : nat) :
  Spline.__init__ t y = Ok sp ->
  nth 0 t 0 <= q -> q <= last t 0 ->
  bisect t q = S j -> (j < length t - 1)%nat ->
  Spline.position sp q =
    Ok (Some (nth j (Spline.a sp) 0 * (q - nth j t 0) ^ 3
              + nth j (Spline.b sp) 0 * (q - nth j t 0) ^ 2
              + nth j (Spline.c sp) 0 * (q - nth j t 0)
              + nth j y 0)).
Proof.
  unfold Spline.position. query_at q j.
  rewrite (subscript_nat t j 0) by lia.
  rewrite (subscript_nat (Spline.a sp) j 0) by lia.
  rewrite (subscript_nat (Spline.b sp) j 0) by lia.
  rewrite (subscript_nat (Spline.c sp) j 0) by lia.
  rewrite (subscript_nat y j 0) by lia.
  reflexivity.
Qed.

Lemma first_derivative_at (t y : list R) (sp : Spline.t) (q : R) (j : nat) :
  Spline.__init__ t y = Ok sp ->
  nth 0 t 0 <= q -> q <= last t 0 ->
  bisect t q = S j -> (j < length t - 1)%nat ->
  Spline.first_derivative sp q =
    Ok (Some (3 * nth j (Spline.a sp) 0 * (q - nth j t 0) ^ 2
              + 2 * nth j (Spline.b sp) 0 * (q - nth j t 0)
              + nth j (Spline.c sp) 0)).
Proof.
  unfold Spline.first_derivative. query_at q j.
  rewrite (subscript_nat t j 0) by lia.
  rewrite (subscript_nat (Spline.a sp) j 0) by lia.
  rewrite (subscript_nat (Spline.b sp) j 0) by lia.
  rewrite (subscript_nat (Spline.c sp) j 0) by lia.
  reflexivity.
Qed.

Lemma second_derivative_at (t y : list R) (sp : Spline.t) (q : R) (j : nat) :
  Spline.__init__ t y = Ok sp ->
  nth 0 t 0 <= q -> q <= last t 0 ->
  bisect t q = S j -> (j < length t - 1)%nat ->
  Spline.second_derivative sp q =
    Ok (Some (6 * nth j (Spline.a sp) 0 * (q - nth j t 0)
              + 2 * nth j (Spline.b sp) 0)).
Proof.
  unfold Spline.second_derivative. query_at q j.
  rewrite (subscript_nat t j 0) by lia.
  rewrite (subscript_nat (Spline.a sp) j 0) by lia.
  rewrite (subscript_nat (Spline.b sp) j 0) by lia.
  reflexivity.
Qed.

(** The three queries when the search ends right of the last knot: the
    segment index is [len - 1], one past the last entry of [a]. *)
Lemma position_past (t y : list R) (sp : Spline.t) (q : R) :
  Spline.__init__ t y = Ok sp ->
  nth 0 t 0 <= q -> q <= last t 0 ->
  bisect t q = S (length t - 1) -> (length t - 1 < length t)%nat ->
  Spline.position sp q = Raise IndexError.
Proof.
  unfold Spline.position. query_at q (length t - 1)%nat.
  rewrite (subscript_nat t (length t - 1) 0) by lia. cbn [bind].
  rewrite subscript_beyond by (unfold len; lia). reflexivity.
Qed.

Lemma first_derivative_past (t y : list R) (sp : Spline.t) (q : R) :
  Spline.__init__ t y = Ok sp ->
  nth 0 t 0 <= q -> q <= last t 0 ->
  bisect t q = S (length t - 1) -> (length t - 1 < length t)%nat ->
  Spline.first_derivative sp q = Raise IndexError.
Proof.
  unfold Spline.first_derivative. query_at q (length t - 1)%nat.
  rewrite (subscript_nat t (length t - 1) 0) by lia. cbn [bind].
  rewrite subscript_beyond by (unfold len; lia). reflexivity.
Qed.

Lemma second_derivative_past (t y : list R) (sp : Spline.t) (q : R) :
  Spline.__init__ t y = Ok sp ->
  nth 0 t 0 <= q -> q <= last t 0 ->
  bisect t q = S (length t - 1) -> (length t - 1 < length t)%nat ->
  Spline.second_derivative sp q = Raise IndexError.
Proof.
  unfold Spline.second_derivative. query_at q (length t - 1)%nat.
  rewrite (subscript_nat t (length t - 1) 0) by lia. cbn [bind].
  rewrite subscript_beyond by (unfold len; lia). reflexivity.
Qed.

(** Between the first knot and the last one, the last excluded, the
    segment index is in range and the three queries return numbers. *)
Lemma queries_inside (t y : list R) (sp : Spline.t) (q : R) :
  nondecreasing t ->
  Spline.__init__ t y = Ok sp ->
  nth 0 t 0 <= q -> q < last t 0 ->
  (0 <= Spline.__search_index sp q <= len t - 2)%Z /\
  (exists v, Spline.position sp q = Ok (Some v)) /\
  (exists v, Spline.first_derivative sp q = Ok (Some v)) /\
  (exists v, Spline.second_derivative sp q = Ok (Some v)).
Proof.
  intros Hs H H0 H1.
  pose proof (Spline_init_inv t y sp H) as [Hn [_ [Hx _]]].
  pose proof (bisect_inside t q Hs ltac:(lia) H0 H1) as Hb.
  destruct (bisect t q) as [| j] eqn:Ej; [ lia | ].
  split; [ unfold Spline.__search_index, len; rewrite Hx, Ej; lia | ].
  split; [ | split ]; eexists.
  - apply (position_at t y sp q j); auto; try lra; lia.
  - apply (first_derivative_at t y sp q j); auto; try lra; lia.
  - apply (second_derivative_at t y sp q j); auto; try lra; lia.
Qed.

Lemma first_derivative_two_knots (t0 t1 y0 y1 : R) (sp : Spline.t) (q : R) :
  t0 < t1 -> t0 <= q -> q < t1 ->
  Spline.__init__ [t0; t1] [y0; y1] = Ok sp -> Spline.b sp = [0; 0] ->
  Spline.first_derivative sp q = Ok (Some ((y1 - y0) / (t1 - t0))) /\
  Spline.second_derivative sp q = Ok (Some 0) /\
  Spline.position sp q = Ok (Some ((y1 - y0) / (t1 - t0) * (q - t0) + y0)).
Proof.
  intros Ht H0 H1 H Hb.
  assert (Hbis : bisect [t0; t1] q = 1%nat).
  { pose proof (bisect_inside [t0; t1] q
                  (increasing_nondecreasing _ (increasing_two t0 t1 Ht))
                  ltac:(simpl; lia) H0 H1) as Hr.
    simpl in Hr. lia. }
  pose proof H as Hinit.
  unfold Spline.__init__ in H.
  apply bind_Ok_inv in H. destruct H as [A [EA H]].
  apply bind_Ok_inv in H. destruct H as [B [EB H]].
  apply bind_Ok_inv in H. destruct H as [b [Eb H]].
  apply bind_Ok_inv in H. destruct H as [c [Ec H]].
  apply bind_Ok_inv in H. destruct H as [a [Ea H]].
  injection H as <-. cbn in Hb. subst b.
  cbn in Ec. injection Ec as <-.
  cbn in Ea. injection Ea as <-.
  rewrite (first_derivative_at _ _ _ q 0 Hinit), (second_derivative_at _ _ _ q 0 Hinit),
    (position_at _ _ _ q 0 Hinit);
    try assumption; try (simpl; lra); try (simpl; lia).
  cbn. repeat split; do 2 f_equal; field; lra.
Qed.

(** ** Library functions of [Spline2D] *)

Lemma atan2_range (y x : R) : - PI < atan2 y x <= PI.
Proof.
  pose proof PI_RGT_0 as Hpi.
  pose proof (atan_bound (y / x)) as [Hlo Hhi].
  unfold atan2.
  destruct (Rlt_dec 0 x) as [Hx | Hx]; [ lra | ].
  destruct (Rlt_dec x 0) as [Hx' | Hx'].
  - destruct (Rle_dec 0 y) as [Hy | Hy].
    + assert (y / x <= 0).
      { unfold Rdiv. pose proof (Rinv_lt_0_compat x Hx'). nra. }
      assert (atan (y / x) <= 0).
      { rewrite <- atan_0.
        destruct (Req_dec (y / x) 0) as [-> | Hne]; [ lra | ].
        apply Rlt_le, atan_increasing. lra. }
      lra.
    + assert (0 < y / x).
      { unfold Rdiv. pose proof (Rinv_lt_0_compat x Hx'). nra. }
      assert (0 < atan (y / x)).
      { rewrite <- atan_0. now apply atan_increasing. }
      lra.
  - destruct (Rlt_dec 0 y); [ lra | ].
    destruct (Rlt_dec y 0); lra.
Qed.

Lemma hypot_nonneg (p q : R) : 0 <= hypot p q.
Proof. unfold hypot. apply sqrt_pos. Qed.

Lemma hypot_pos (p q : R) : ~ (p = 0 /\ q = 0) -> 0 < hypot p q.
Proof.
  intros H. unfold hypot. apply sqrt_lt_R0.
  destruct (Req_dec p 0) as [-> | Hp].
  - assert (q <> 0) by (intros ->; apply H; split; reflexivity). nra.
  - nra.
Qed.

Lemma hypot_3_4 : hypot 3 4 = 5.
Proof.
  unfold hypot. replace (3 * 3 + 4 * 4) with (5 * 5) by lra.
  apply sqrt_square. lra.
Qed.

Lemma np_arange_Ok_inv (start stop step : R) (samples : list R) :
  np_arange start stop step = Ok samples ->
  step <> 0 /\
  samples =
    map (fun k => start + INR k * step)
      (seq 0 (Z.to_nat (Zceil ((stop - start) / step)))).
Proof.
  unfold np_arange. destruct (Req_dec_T step 0) as [E | E]; [ discriminate | ].
  intros H. injection H as <-. auto.
Qed.

(** The count of an [arange]: every value it holds is below [stop], for a
    positive step, and the next value of the sweep is not. *)
Lemma arange_count_below (start stop step : R) (k : nat) :
  0 < step ->
  (k < Z.to_nat (Zceil ((stop - start) / step)))%nat ->
  start + INR k * step < stop.
Proof.
  intros Hstep Hk.
  pose proof (Zceil_bound ((stop - start) / step)) as [Hlo _].
  assert (Hle : IZR (Z.of_nat k) <= IZR (Zceil ((stop - start) / step)) - 1).
  { rewrite <- minus_IZR. apply IZR_le. lia. }
  rewrite <- INR_IZR_INZ in Hle.
  assert (Hlt : INR k < (stop - start) / step) by lra.
  apply Rmult_lt_compat_r with (r := step) in Hlt; [ | assumption ].
  unfold Rdiv in Hlt. rewrite Rmult_assoc, Rinv_l, Rmult_1_r in Hlt by lra.
  lra.
Qed.


Lemma arange_count_backwards (start stop step : R) :
  step < 0 -> start <= stop ->
  Z.to_nat (Zceil ((stop - start) / step)) = O.
Proof.
  intros Hstep Hle.
  pose proof (Zceil_bound ((stop - start) / step)) as [Hlo _].
  assert (Hx : (stop - start) / step <= 0).
  { unfold Rdiv. pose proof (Rinv_lt_0_compat step Hstep). nra. }
  assert (Hz : (Zceil ((stop - start) / step) < 1)%Z).
  { apply lt_IZR. lra. }
  lia.
Qed.

Lemma Zceil_5_2 : Zceil ((5 - 0) / 2) = 3%Z.
Proof. apply Zceil_eq. lra. Qed.

Lemma zip_with_length (f : R -> R -> R) (u v : list R) :
  length (zip_with f u v) = Nat.min (length u) (length v).
Proof.
  revert v; induction u as [| p u IH]; intros [| q v]; simpl; auto.
Qed.

Lemma zip_with_nth (f : R -> R -> R) (u v : list R) (i : nat) :
  (i < length u)%nat -> (i < length v)%nat ->
  nth i (zip_with f u v) 0 = f (nth i u 0) (nth i v 0).
Proof.
  revert v i; induction u as [| p u IH]; intros [| q v] [| i] Hu Hv;
    simpl in *; try lia; auto.
  apply IH; lia.
Qed.

Lemma broadcast_length (f : R -> R -> R) (u v w : list R) :
  broadcast f u v = Ok w ->
  (length u = length v /\ length w = length u) \/
  (length u = 1%nat /\ length v <> 1%nat /\ length w = length v) \/
  (length v = 1%nat /\ length u <> 1%nat /\ length w = length u).
Proof.
  unfold broadcast.
  destruct (Nat.eqb_spec (length u) (length v)) as [E | E].
  - intros H. injection H as <-. left.
    rewrite zip_with_length, E, Nat.min_id. auto.
  - destruct u as [| p [| p' u]].
    + destruct v as [| q [| q' v]]; try discriminate.
      intros H. injection H as <-. right. right. simpl. auto.
    + intros H. injection H as <-. right. left.
      simpl in *. rewrite ?length_map. auto.
    + destruct v as [| q [| q' v]]; try discriminate.
      intros H. injection H as <-. right. right.
      simpl. rewrite ?length_map. auto.
Qed.

Lemma broadcast_same_length (f : R -> R -> R) (u v : list R) :
  length u = length v -> broadcast f u v = Ok (zip_with f u v).
Proof.
  intros E. unfold broadcast. now rewrite E, Nat.eqb_refl.
Qed.

Lemma broadcast_hypot_nonneg (u v steps : list R) (i : nat) :
  broadcast hypot u v = Ok steps -> 0 <= nth i steps 0.
Proof.
  intros H.
  destruct (Nat.lt_ge_cases i (length steps)) as [Hi | Hi];
    [ | rewrite nth_overflow by assumption; lra ].
  assert (Hin : In (nth i steps 0) steps) by now apply nth_In.
  revert Hin. generalize (nth i steps 0). intros s Hin.
  unfold broadcast in H.
  assert (Hzip : forall u v, In s (zip_with hypot u v) -> 0 <= s).
  { clear. induction u as [| p u IH]; intros [| q v] Hs; simpl in Hs;
      try contradiction.
    destruct Hs as [<- | Hs]; [ apply hypot_nonneg | eauto ]. }
  destruct (length u =? length v)%nat.
  - injection H as <-. eauto.
  - destruct u as [| p [| p' u]].
    + destruct v as [| q [| q' v]]; try discriminate.
      injection H as <-. contradiction.
    + injection H as <-. apply in_map_iff in Hin.
      destruct Hin as [q [<- _]]. apply hypot_nonneg.
    + destruct v as [| q [| q' v]]; try discriminate.
      injection H as <-.
      destruct Hin as [<- | [<- | Hin]]; try apply hypot_nonneg.
      apply in_map_iff in Hin.
      destruct Hin as [q0 [<- _]]. apply hypot_nonneg.
Qed.

Lemma cumsum_from_length (acc : R) (l : list R) :
  length (cumsum_from acc l) = length l.
Proof.
  revert acc; induction l as [| u l IH]; intros acc; simpl; auto.
Qed.

(** Each running sum is the one before it plus the next entry. *)
Lemma cumsum_from_step (acc : R) (l : list R) (i : nat) :
  (i < length l)%nat ->
  nth (S i) (acc :: cumsum_from acc l) 0 =
    nth i (acc :: cumsum_from acc l) 0 + nth i l 0.
Proof.
  revert acc i; induction l as [| u l IH]; intros acc i Hi;
    [ simpl in Hi; lia | ].
  destruct i as [| i]; [ reflexivity | ].
  change (nth (S (S i)) (acc :: cumsum_from acc (u :: l)) 0)
    with (nth (S i) ((acc + u) :: cumsum_from (acc + u) l) 0).
  change (nth (S i) (acc :: cumsum_from acc (u :: l)) 0)
    with (nth i ((acc + u) :: cumsum_from (acc + u) l) 0).
  change (nth (S i) (u :: l) 0) with (nth i l 0).
  apply IH. simpl in Hi. lia.
Qed.

(** ** The knots of [Spline2D] *)

Lemma compute_knots_Ok_inv (x y knots : list R) :
  Spline2D._compute_knots x y = Ok knots ->
  exists steps,
    broadcast hypot (np_diff x) (np_diff y) = Ok steps /\
    knots = 0 :: np_cumsum steps /\
    length knots = S (length steps) /\
    nth 0 knots 0 = 0 /\
    (forall i, (i < length steps)%nat ->
       nth (S i) knots 0 = nth i knots 0 + nth i steps 0).
Proof.
  unfold Spline2D._compute_knots. intros H.
  apply bind_Ok_inv in H. destruct H as [steps [E H]].
  injection H as <-. exists steps.
  split; [ exact E | ]. split; [ reflexivity | ].
  split; [ simpl; unfold np_cumsum; now rewrite cumsum_from_length | ].
  split; [ reflexivity | ].
  intros i Hi. unfold np_cumsum. now apply cumsum_from_step.
Qed.

(** With as many x as y values, each step is the distance between two
    consecutive waypoints. *)
Lemma compute_knots_same_length (x y knots : list R) :
  length x = length y ->
  Spline2D._compute_knots x y = Ok knots ->
  length knots = S (length x - 1) /\
  nth 0 knots 0 = 0 /\
  forall i, (S i < length x)%nat ->
    nth (S i) knots 0 = nth i knots 0 + hypot (width x i) (width y i).
Proof.
  intros Hxy H.
  apply compute_knots_Ok_inv in H.
  destruct H as [steps [E [_ [Hlen [H0 Hstep]]]]].
  rewrite broadcast_same_length in E
    by now rewrite !np_diff_length, Hxy.
  injection E as <-.
  rewrite zip_with_length, !np_diff_length, <- Hxy, Nat.min_id in *.
  split; [ assumption | ]. split; [ assumption | ].
  intros i Hi. rewrite Hstep by lia.
  rewrite zip_with_nth by (rewrite np_diff_length; lia).
  rewrite !np_diff_nth by lia. reflexivity.
Qed.

(** The knots never decrease, whatever the waypoints. *)
Lemma compute_knots_nondecreasing (x y knots : list R) :
  Spline2D._compute_knots x y = Ok knots -> nondecreasing knots.
Proof.
  intros H. apply compute_knots_Ok_inv in H.
  destruct H as [steps [E [_ [Hlen [_ Hstep]]]]].
  intros i j Hij. induction Hij as [| j Hij IH]; intros Hj; [ lra | ].
  apply Rle_trans with (nth j knots 0); [ apply IH; lia | ].
  rewrite Hstep by lia.
  pose proof (broadcast_hypot_nonneg _ _ _ j E). lra.
Qed.

(** Knots of waypoints no two consecutive of which coincide increase
    strictly. *)
Lemma compute_knots_increasing (x y knots : list R) :
  length x = length y ->
  (forall i, (S i < length x)%nat ->
     ~ (nth i x 0 = nth (S i) x 0 /\ nth i y 0 = nth (S i) y 0)) ->
  Spline2D._compute_knots x y = Ok knots ->
  increasing knots.
Proof.
  intros Hxy Hdistinct Ek.
  destruct (compute_knots_same_length x y _ Hxy Ek) as [Hlen [_ Hstep]].
  intros i Hi. rewrite Hstep by lia.
  assert (0 < hypot (width x i) (width y i)); [ | lra ].
  apply hypot_pos. unfold width. intros [Hx Hy].
  apply (Hdistinct i); [ lia | ]. split; lra.
Qed.

Lemma knots_length_pos (x y knots : list R) :
  Spline2D._compute_knots x y = Ok knots -> (0 < length knots)%nat.
Proof.
  intros H. apply compute_knots_Ok_inv in H.
  destruct H as [steps [_ [_ [Hlen _]]]]. lia.
Qed.

Lemma knots_first_le_last (x y knots : list R) :
  Spline2D._compute_knots x y = Ok knots -> nth 0 knots 0 <= last knots 0.
Proof.
  intros H. pose proof (knots_length_pos _ _ _ H).
  rewrite last_nth. apply (compute_knots_nondecreasing _ _ _ H); lia.
Qed.

Lemma compute_knots_0_3_0_4 : Spline2D._compute_knots [0; 3] [0; 4] = Ok [0; 5].
Proof.
  unfold Spline2D._compute_knots. cbn.
  replace (3 - 0) with 3 by lra. replace (4 - 0) with 4 by lra.
  rewrite hypot_3_4. do 3 f_equal. lra.
Qed.

(** ** The constructor of [Spline2D] *)

Lemma Spline2D_init_inv (x y : list R) (step : R) (sp : Spline2D.t) :
  Spline2D.__init__ x y step = Ok sp ->
  Spline2D._x sp = x /\ Spline2D._y sp = y /\
  Spline2D._generation_step sp = step /\
  Spline2D._compute_knots x y = Ok (Spline2D._knots sp) /\
  Spline.__init__ (Spline2D._knots sp) x = Ok (Spline2D._spline_x sp) /\
  Spline.__init__ (Spline2D._knots sp) y = Ok (Spline2D._spline_y sp) /\
  Spline2D._compute_results (Spline2D._knots sp) (Spline2D._spline_x sp)
    (Spline2D._spline_y sp) step =
    Ok (Spline2D._positions sp, Spline2D._curvature sp, Spline2D._yaw sp).
Proof.
  unfold Spline2D.__init__. intros H.
  apply bind_Ok_inv in H. destruct H as [knots [Ek H]].
  apply bind_Ok_inv in H. destruct H as [sx [Ex H]].
  apply bind_Ok_inv in H. destruct H as [sy [Ey H]].
  apply bind_Ok_inv in H. destruct H as [[[ps cs] ws] [Er H]].
  injection H as <-. cbn. auto 10.
Qed.

(** The loop of [_compute_results]: one entry per sample is appended to
    each of the three lists, computed from that sample. *)
Lemma compute_results_loop (sx sy : Spline.t) (samples : list R) :
  forall ps cs ws ps' cs' ws',
    for_each samples
      (fun i '(positions, curvature, yaw) =>
         p <- Spline2D._compute_position sx sy i ;;
         coordinate <- Coordinate_new p ;;
         k <- Spline2D._compute_curvature sx sy i ;;
         w <- Spline2D._compute_yaw sx sy i ;;
         Ok (positions ++ [coordinate], curvature ++ [k], yaw ++ [w]))
      (ps, cs, ws) = Ok (ps', cs', ws') ->
    exists pl cl wl,
      ps' = ps ++ pl /\ cs' = cs ++ cl /\ ws' = ws ++ wl /\
      length pl = length samples /\ length cl = length samples /\
      length wl = length samples /\
      forall k s, nth_error samples k = Some s ->
        exists p c w,
          nth_error pl k = Some p /\ nth_error cl k = Some c /\
          nth_error wl k = Some w /\
          (exists pr, Spline2D._compute_position sx sy s = Ok pr /\
                      Coordinate_new pr = Ok p) /\
          Spline2D._compute_curvature sx sy s = Ok c /\
          Spline2D._compute_yaw sx sy s = Ok w.
Proof.
  induction samples as [| s samples IH]; intros ps cs ws ps' cs' ws' H.
  - cbn in H. injection H as <- <- <-.
    exists [], [], []. rewrite !app_nil_r.
    repeat (split; [ reflexivity | ]).
    intros k s Hk. destruct k; discriminate.
  - cbn [for_each] in H.
    apply bind_Ok_inv in H. destruct H as [[[ps1 cs1] ws1] [Ebody H]].
    apply bind_Ok_inv in Ebody. destruct Ebody as [pr [Epos Ebody]].
    apply bind_Ok_inv in Ebody. destruct Ebody as [p [Ecoord Ebody]].
    apply bind_Ok_inv in Ebody. destruct Ebody as [c [Ecurv Ebody]].
    apply bind_Ok_inv in Ebody. destruct Ebody as [w [Eyaw Ebody]].
    injection Ebody as <- <- <-.
    destruct (IH _ _ _ _ _ _ H)
      as [pl [cl [wl [-> [-> [-> [Lp [Lc [Lw Hnth]]]]]]]]].
    exists (p :: pl), (c :: cl), (w :: wl).
    rewrite <- !app_assoc. cbn [app length].
    repeat (split; [ solve [ reflexivity | congruence ] | ]).
    intros k s' Hk. destruct k as [| k].
    + injection Hk as <-. exists p, c, w. cbn. eauto 10.
    + cbn in Hk. destruct (Hnth k s' Hk) as [p' [c' [w' Hrest]]].
      exists p', c', w'. exact Hrest.
Qed.

Lemma compute_results_Ok_inv (knots : list R) (sx sy : Spline.t) (step : R)
    (ps : list Coordinate) (cs ws : list R) :
  Spline2D._compute_results knots sx sy step = Ok (ps, cs, ws) ->
  exists samples,
    Spline2D.sweep knots step = Ok samples /\
    length ps = length samples /\ length cs = length samples /\
    length ws = length samples /\
    forall k s, nth_error samples k = Some s ->
      exists p c w,
        nth_error ps k = Some p /\ nth_error cs k = Some c /\
        nth_error ws k = Some w /\
        (exists pr, Spline2D._compute_position sx sy s = Ok pr /\
                    Coordinate_new pr = Ok p) /\
        Spline2D._compute_curvature sx sy s = Ok c /\
        Spline2D._compute_yaw sx sy s = Ok w.
Proof.
  unfold Spline2D._compute_results. intros H.
  apply bind_Ok_inv in H. destruct H as [samples [Es H]].
  apply compute_results_loop in H.
  destruct H as [pl [cl [wl [-> [-> [-> H]]]]]].
  exists samples. split; [ exact Es | exact H ].
Qed.

Lemma sweep_Ok_inv (knots : list R) (step : R) (samples : list R) :
  (0 < length knots)%nat ->
  Spline2D.sweep knots step = Ok samples ->
  step <> 0 /\
  samples =
    map (fun k => nth 0 knots 0 + INR k * step)
      (seq 0 (Z.to_nat (Zceil ((last knots 0 - nth 0 knots 0) / step)))).
Proof.
  intros Hn. unfold Spline2D.sweep.
  change (subscript knots 0) with (subscript knots (Z.of_nat 0)).
  rewrite (subscript_nat knots 0 0) by lia. cbn [bind].
  rewrite subscript_last by lia. cbn [bind].
  apply np_arange_Ok_inv.
Qed.

Lemma sweep_Ok (knots : list R) (step : R) :
  (0 < length knots)%nat -> step <> 0 ->
  Spline2D.sweep knots step =
    Ok (map (fun k => nth 0 knots 0 + INR k * step)
          (seq 0 (Z.to_nat (Zceil ((last knots 0 - nth 0 knots 0) / step))))).
Proof.
  intros Hn Hstep. unfold Spline2D.sweep.
  change (subscript knots 0) with (subscript knots (Z.of_nat 0)).
  rewrite (subscript_nat knots 0 0) by lia. cbn [bind].
  rewrite subscript_last by lia. cbn [bind].
  unfold np_arange. destruct (Req_dec_T step 0); [ contradiction | reflexivity ].
Qed.

(** A [Spline2D] is constructed as soon as its knots are computed, its two
    splines are fitted and the step is not zero: every sample lies from
    the first knot up to, but not including, the last one, where the
    queries return numbers. *)
Lemma Spline2D_init_Ok (x y : list R) (step : R)
    (knots : list R) (sx sy : Spline.t) :
  Spline2D._compute_knots x y = Ok knots ->
  Spline.__init__ knots x = Ok sx ->
  Spline.__init__ knots y = Ok sy ->
  step <> 0 ->
  exists sp, Spline2D.__init__ x y step = Ok sp.
Proof.
  intros Ek Ex Ey Hstep.
  pose proof (knots_length_pos _ _ _ Ek) as Hpos.
  pose proof (knots_first_le_last _ _ _ Ek) as Hle.
  pose proof (compute_knots_nondecreasing _ _ _ Ek) as Hs.
  unfold Spline2D.__init__.
  rewrite Ek. cbn [bind]. rewrite Ex. cbn [bind]. rewrite Ey. cbn [bind].
  unfold Spline2D._compute_results, Spline2D.sweep.
  change (subscript knots 0) with (subscript knots (Z.of_nat 0)).
  rewrite (subscript_nat knots 0 0) by lia. cbn [bind].
  rewrite subscript_last by lia. cbn [bind].
  unfold np_arange. destruct (Req_dec_T step 0) as [E | _]; [ contradiction | ].
  cbn [bind].
  set (n := Z.to_nat (Zceil ((last knots 0 - nth 0 knots 0) / step))).
  destruct (for_each_Ok (fun _ => True)
              (fun i '(positions, curvature, yaw) =>
                 p <- Spline2D._compute_position sx sy i ;;
                 coordinate <- Coordinate_new p ;;
                 k <- Spline2D._compute_curvature sx sy i ;;
                 w <- Spline2D._compute_yaw sx sy i ;;
                 Ok (positions ++ [coordinate], curvature ++ [k], yaw ++ [w]))
              (map (fun k => nth 0 knots 0 + INR k * step) (seq 0 n))
              ([], [], [])) as [[[ps cs] ws] [E _]]; [ exact I | | ].
  - intros s [[ps cs] ws] Hin _. apply in_map_iff in Hin.
    destruct Hin as [k [<- Hk]]. apply in_seq in Hk.
    assert (Hp : 0 < step).
    { destruct (Rlt_dec 0 step) as [Hp | Hp]; [ assumption | ].
      unfold n in Hk. rewrite arange_count_backwards in Hk by lra. lia. }
    assert (Hlo : nth 0 knots 0 <= nth 0 knots 0 + INR k * step).
    { pose proof (pos_INR k). nra. }
    assert (Hhi : nth 0 knots 0 + INR k * step < last knots 0).
    { apply arange_count_below; [ assumption | ]. unfold n in Hk. lia. }
    destruct (queries_inside knots x sx _ Hs Ex Hlo Hhi)
      as [_ [[px Epx] [[x1 Ex1] [x2 Ex2]]]].
    destruct (queries_inside knots y sy _ Hs Ey Hlo Hhi)
      as [_ [[py Epy] [[y1 Ey1] [y2 Ey2]]]].
    unfold Spline2D._compute_position, Spline2D._compute_curvature,
      Spline2D._compute_yaw.
    rewrite Epx, Epy, Ex1, Ex2, Ey1, Ey2. cbn. eauto.
  - rewrite E. cbn [bind]. eauto.
Qed.

Lemma Spline2D_example (step : R) :
  step <> 0 ->
  exists sp,
    Spline2D.__init__ [0; 3] [0; 4] step = Ok sp /\
    Spline2D._knots sp = [0; 5].
Proof.
  intros Hstep.
  destruct (Spline_init_two 0 5 0 3 []) as [sx [Ex _]].
  destruct (Spline_init_two 0 5 0 4 []) as [sy [Ey _]].
  destruct (Spline2D_init_Ok [0; 3] [0; 4] step [0; 5] sx sy
              compute_knots_0_3_0_4 Ex Ey Hstep) as [sp H].
  exists sp. split; [ exact H | ].
  apply Spline2D_init_inv in H. destruct H as [_ [_ [_ [Ek _]]]].
  rewrite compute_knots_0_3_0_4 in Ek. now injection Ek.
Qed.

(** ** The constructor of [Circumcircle] *)

Lemma py_div_Ok (u v : R) : v <> 0 -> py_div u v = Ok (u / v).
Proof.
  intros H. unfold py_div. destruct (Req_dec_T v 0); [ contradiction | ].
  reflexivity.
Qed.

Lemma py_div_Ok_inv (u v w : R) : py_div u v = Ok w -> v <> 0 /\ w = u / v.
Proof.
  unfold py_div. destruct (Req_dec_T v 0); [ discriminate | ].
  intros H. injection H as <-. auto.
Qed.

Lemma norm_pos (p q : R) : p <> 0 -> 0 < sqrt (p ^ 2 + q ^ 2).
Proof. intros H. apply sqrt_lt_R0. nra. Qed.

(** The center is computed only when neither the segment from [a] to [b]
    nor the one from [a] to [c] is vertical: a vertical one makes a
    divisor zero. *)
Lemma center_and_radius_Ok_inv (a b c : Coordinate2D.t)
    (r : Coordinate2D.t * R) :
  Circumcircle.center_and_radius a b c = Ok r ->
  Coordinate2D.x a <> Coordinate2D.x b /\
  Coordinate2D.x a <> Coordinate2D.x c.
Proof.
  unfold Circumcircle.center_and_radius. cbn [Coordinate2D.x Coordinate2D.y].
  intros H.
  apply bind_Ok_inv in H. destruct H as [uabx [_ H]].
  apply bind_Ok_inv in H. destruct H as [uaby [Eaby H]].
  apply bind_Ok_inv in H. destruct H as [uacx [_ H]].
  apply bind_Ok_inv in H. destruct H as [uacy [Eacy H]].
  apply bind_Ok_inv in H. destruct H as [vab [Evab H]].
  apply bind_Ok_inv in H. destruct H as [vac [Evac _]].
  apply py_div_Ok_inv in Eaby, Eacy, Evab, Evac.
  destruct Eaby as [_ ->], Eacy as [_ ->], Evab as [Hab _], Evac as [Hac _].
  split; intros E; [ apply Hab | apply Hac ]; rewrite E;
    unfold Rdiv; ring.
Qed.

(** Conversely, on a triangle that is not flat and has neither of these
    two segments vertical, every divisor is nonzero. *)
Lemma center_and_radius_Ok (a b c : Coordinate2D.t) :
  Coordinate2D.x a * (Coordinate2D.y b - Coordinate2D.y c)
  + Coordinate2D.x b * (Coordinate2D.y c - Coordinate2D.y a)
  + Coordinate2D.x c * (Coordinate2D.y a - Coordinate2D.y b) <> 0 ->
  Coordinate2D.x a <> Coordinate2D.x b ->
  Coordinate2D.x a <> Coordinate2D.x c ->
  exists r, Circumcircle.center_and_radius a b c = Ok r.
Proof.
  destruct a as [ax ay], b as [bx by_], c as [cx cy].
  cbn [Coordinate2D.x Coordinate2D.y]. intros Harea Hab Hac.
  unfold Circumcircle.center_and_radius. cbn [Coordinate2D.x Coordinate2D.y].
  pose proof (norm_pos (bx - ax) (by_ - ay) ltac:(lra)) as Hnb.
  pose proof (norm_pos (cx - ax) (cy - ay) ltac:(lra)) as Hnc.
  set (nb := sqrt ((bx - ax) ^ 2 + (by_ - ay) ^ 2)) in *.
  set (nc := sqrt ((cx - ax) ^ 2 + (cy - ay) ^ 2)) in *.
  rewrite !(py_div_Ok _ nb), !(py_div_Ok _ nc) by lra. cbn [bind].
  assert (Huab : - (bx - ax) / nb <> 0).
  { intros E. apply (Rmult_eq_compat_r nb) in E.
    unfold Rdiv in E. rewrite Rmult_assoc, Rinv_l, Rmult_1_r, Rmult_0_l in E
      by lra. lra. }
  assert (Huac : - (cx - ax) / nc <> 0).
  { intros E. apply (Rmult_eq_compat_r nc) in E.
    unfold Rdiv in E. rewrite Rmult_assoc, Rinv_l, Rmult_1_r, Rmult_0_l in E
      by lra. lra. }
  rewrite !(py_div_Ok _ (- (bx - ax) / nb)) by assumption. cbn [bind].
  rewrite !(py_div_Ok _ (- (cx - ax) / nc)) by assumption. cbn [bind].
  assert (Hsum : (by_ - ay) / nb / (- (bx - ax) / nb)
                 + - ((cy - ay) / nc / (- (cx - ax) / nc)) <> 0).
  { replace ((by_ - ay) / nb / (- (bx - ax) / nb)
             + - ((cy - ay) / nc / (- (cx - ax) / nc)))
      with ((ax * (by_ - cy) + bx * (cy - ay) + cx * (ay - by_))
            * / ((bx - ax) * (cx - ax)))
      by (field; repeat split; lra).
    apply Rmult_integral_contrapositive_currified; [ assumption | ].
    apply Rinv_neq_0_compat.
    apply Rmult_integral_contrapositive_currified; lra. }
  rewrite !py_div_Ok by assumption. cbn [bind]. eauto.
Qed.

(** The center that [center_and_radius] returns is at the same distance
    from the three vertices, and the radius is that distance. *)
Lemma center_and_radius_equidistant (a b c center : Coordinate2D.t)
    (radius : R) :
  Circumcircle.center_and_radius a b c = Ok (center, radius) ->
  radius =
    sqrt ((Coordinate2D.x a - Coordinate2D.x center) ^ 2
          + (Coordinate2D.y a - Coordinate2D.y center) ^ 2) /\
  (Coordinate2D.x b - Coordinate2D.x center) ^ 2
  + (Coordinate2D.y b - Coordinate2D.y center) ^ 2
  = (Coordinate2D.x a - Coordinate2D.x center) ^ 2
    + (Coordinate2D.y a - Coordinate2D.y center) ^ 2 /\
  (Coordinate2D.x c - Coordinate2D.x center) ^ 2
  + (Coordinate2D.y c - Coordinate2D.y center) ^ 2
  = (Coordinate2D.x a - Coordinate2D.x center) ^ 2
    + (Coordinate2D.y a - Coordinate2D.y center) ^ 2.
Proof.
  destruct a as [ax ay], b as [bx by_], c as [cx cy].
  unfold Circumcircle.center_and_radius. cbn [Coordinate2D.x Coordinate2D.y].
  set (nb := sqrt ((bx - ax) ^ 2 + (by_ - ay) ^ 2)).
  set (nc := sqrt ((cx - ax) ^ 2 + (cy - ay) ^ 2)).
  intros H.
  apply bind_Ok_inv in H. destruct H as [uabx [E1 H]].
  apply bind_Ok_inv in H. destruct H as [uaby [E2 H]].
  apply bind_Ok_inv in H. destruct H as [uacx [E3 H]].
  apply bind_Ok_inv in H. destruct H as [uacy [E4 H]].
  apply bind_Ok_inv in H. destruct H as [vab [E5 H]].
  apply bind_Ok_inv in H. destruct H as [vac [E6 H]].
  apply bind_Ok_inv in H. destruct H as [k [E7 H]].
  apply bind_Ok_inv in H. destruct H as [ccx [E8 H]].
  apply bind_Ok_inv in H. destruct H as [ccy [E9 H]].
  injection H as <- <-. cbn [Coordinate2D.x Coordinate2D.y].
  apply py_div_Ok_inv in E1, E2, E3, E4, E5, E6, E7, E8, E9.
  destruct E1 as [Hnb ->], E2 as [_ ->], E3 as [Hnc ->], E4 as [_ ->].
  destruct E5 as [Huab ->], E6 as [Huac ->], E7 as [_ ->].
  destruct E8 as [Hsum ->], E9 as [_ ->].
  assert (Hdb : bx - ax <> 0).
  { intros E. apply Huab. rewrite E. unfold Rdiv. ring. }
  assert (Hdc : cx - ax <> 0).
  { intros E. apply Huac. rewrite E. unfold Rdiv. ring. }
  assert (Harea : (cy - ay) * (bx - ax) - (by_ - ay) * (cx - ax) <> 0).
  { intros E. apply Hsum.
    replace ((by_ - ay) / nb / (- (bx - ax) / nb)
             + - ((cy - ay) / nc / (- (cx - ax) / nc)))
      with (((cy - ay) * (bx - ax) - (by_ - ay) * (cx - ax))
            * / ((bx - ax) * (cx - ax)))
      by (field; repeat split; assumption).
    rewrite E. ring. }
  split; [ reflexivity | ].
  split; field; repeat split; try assumption;
    intros E; apply Harea; lra.
Qed.

Lemma prevent_vertical_Permutation (truth : Coordinate2D.t -> bool)
    (a b c a' b' c' : Coordinate2D.t) :
  Circumcircle.prevent_vertical truth a b c = (a', b', c') ->
  Permutation [a'; b'; c'] [a; b; c].
Proof.
  unfold Circumcircle.prevent_vertical.
  destruct (existsb _ _).
  - destruct (Reqb (Coordinate2D.x (Coordinate2D.sub b a)) 0).
    + destruct (Reqb (Coordinate2D.x (Coordinate2D.sub a c)) 0);
        intros E; injection E as <- <- <-.
      * apply perm_trans with [b; a; c]; [ | apply perm_swap ].
        apply perm_skip, perm_swap.
      * change [c; b; a] with (rev [a; b; c]).
        apply Permutation_sym, Permutation_rev.
    + destruct (Reqb (Coordinate2D.x (Coordinate2D.sub c a)) 0);
        intros E; injection E as <- <- <-.
      * apply perm_swap.
      * apply Permutation_refl.
  - intros E. injection E as <- <- <-. apply Permutation_refl.
Qed.

Lemma Circumcircle_init_inv (truth : Coordinate2D.t -> bool)
    (a b c : Coordinate2D.t) (cc : Circumcircle.t) :
  Circumcircle.__init__ truth a b c = Ok cc ->
  Coordinate2D.x a * (Coordinate2D.y b - Coordinate2D.y c)
  + Coordinate2D.x b * (Coordinate2D.y c - Coordinate2D.y a)
  + Coordinate2D.x c * (Coordinate2D.y a - Coordinate2D.y b) <> 0 /\
  Circumcircle.prevent_vertical truth a b c =
    (Circumcircle.a cc, Circumcircle.b cc, Circumcircle.c cc) /\
  Circumcircle.center_and_radius (Circumcircle.a cc) (Circumcircle.b cc)
    (Circumcircle.c cc) = Ok (Circumcircle.center cc, Circumcircle.radius cc).
Proof.
  unfold Circumcircle.__init__, Circumcircle._calculate. intros H.
  apply bind_Ok_inv in H. destruct H as [[] [Eflat H]].
  destruct (Circumcircle.prevent_vertical truth a b c) as [[a' b'] c'].
  apply bind_Ok_inv in H. destruct H as [[center radius] [Ec H]].
  injection H as <-.
  unfold Circumcircle.a, Circumcircle.b, Circumcircle.c, Circumcircle.center,
    Circumcircle.radius.
  cbn [Circumcircle._a Circumcircle._b Circumcircle._c Circumcircle._center
       Circumcircle._radius].
  split; [ | split; [ reflexivity | exact Ec ] ].
  unfold Circumcircle._ensure_non_collinear in Eflat.
  destruct (Reqb _ 0) eqn:E; [ discriminate | ].
  now apply Reqb_false_iff in E.
Qed.

(** Every triangle that is not flat gets its circumcircle, provided a
    nonzero [Coordinate2D] is true. *)
Lemma Circumcircle_init_Ok (truth : Coordinate2D.t -> bool)
    (a b c : Coordinate2D.t) :
  (forall v, Coordinate2D.x v <> 0 \/ Coordinate2D.y v <> 0 ->
             truth v = true) ->
  Coordinate2D.x a * (Coordinate2D.y b - Coordinate2D.y c)
  + Coordinate2D.x b * (Coordinate2D.y c - Coordinate2D.y a)
  + Coordinate2D.x c * (Coordinate2D.y a - Coordinate2D.y b) <> 0 ->
  exists cc, Circumcircle.__init__ truth a b c = Ok cc.
Proof.
  intros Htruth Harea.
  unfold Circumcircle.__init__, Circumcircle._calculate,
    Circumcircle._ensure_non_collinear.
  rewrite (proj2 (Reqb_false_iff _ 0) Harea). cbn [bind].
  unfold Circumcircle.prevent_vertical. cbn [existsb fst snd].
  rewrite (Htruth (Coordinate2D.sub b a)).
  2:{ destruct a as [ax ay], b as [bx by_], c as [cx cy].
      cbn [Coordinate2D.sub Coordinate2D.x Coordinate2D.y] in *.
      destruct (Req_dec (bx - ax) 0) as [E | E]; [ right | now left ].
      intros E'. apply Harea.
      replace bx with ax by lra. replace by_ with ay by lra. ring. }
  cbn [orb].
  destruct a as [ax ay], b as [bx by_], c as [cx cy].
  cbn [Coordinate2D.sub Coordinate2D.x Coordinate2D.y] in *.
  destruct (Reqb (bx - ax) 0) eqn:E1.
  - apply Reqb_true_iff in E1.
    assert (E2 : Reqb (ax - cx) 0 = false).
    { apply Reqb_false_iff. intros E. apply Harea.
      replace bx with ax by lra. replace cx with ax by lra. ring. }
    cbn [Coordinate2D.sub Coordinate2D.x Coordinate2D.y]. rewrite E2.
    apply Reqb_false_iff in E2.
    destruct (center_and_radius_Ok
                (Coordinate2D.new cx cy) (Coordinate2D.new bx by_)
                (Coordinate2D.new ax ay)) as [[center radius] E];
      cbn [Coordinate2D.x Coordinate2D.y]; try lra.
    rewrite E. cbn [bind]. eauto.
  - apply Reqb_false_iff in E1.
    cbn [Coordinate2D.sub Coordinate2D.x Coordinate2D.y].
    destruct (Reqb (cx - ax) 0) eqn:E2.
    + apply Reqb_true_iff in E2.
      destruct (center_and_radius_Ok
                  (Coordinate2D.new bx by_) (Coordinate2D.new ax ay)
                  (Coordinate2D.new cx cy)) as [[center radius] E];
        cbn [Coordinate2D.x Coordinate2D.y]; try lra.
      rewrite E. cbn [bind]. eauto.
    + apply Reqb_false_iff in E2.
      destruct (center_and_radius_Ok
                  (Coordinate2D.new ax ay) (Coordinate2D.new bx by_)
                  (Coordinate2D.new cx cy)) as [[center radius] E];
        cbn [Coordinate2D.x Coordinate2D.y]; try lra.
      rewrite E. cbn [bind]. eauto.
Qed.

(** ** Segments *)

(** On strictly increasing knots the search for a query inside a segment
    ends just right of the left knot of the segment. *)
Lemma bisect_in_segment (t : list R) (q : R) (j : nat) :
  increasing t -> (S j < length t)%nat ->
  nth j t 0 <= q -> q < nth (S j) t 0 ->
  bisect t q = S j.
Proof.
  intros Hinc Hj Hlo Hhi.
  destruct (bisect_spec t q (increasing_nondecreasing t Hinc))
    as [Hr [Hl Hu]].
  destruct (Nat.lt_trichotomy (bisect t q) (S j))
    as [Hlt | [Heq | Hgt]]; [ | assumption | ].
  - specialize (Hu j). assert (q < nth j t 0) by (apply Hu; lia). lra.
  - specialize (Hl (S j) Hgt). lra.
Qed.

(** Every query from the first knot up to, but not including, the last
    one lies in a segment. *)
Lemma segment_of (t : list R) (q : R) :
  nondecreasing t -> (0 < length t)%nat ->
  nth 0 t 0 <= q -> q < last t 0 ->
  exists j, bisect t q = S j /\ (S j < length t)%nat /\
            nth j t 0 <= q /\ q < nth (S j) t 0.
Proof.
  intros Hs Hn H0 H1.
  pose proof (bisect_inside t q Hs Hn H0 H1) as Hb.
  destruct (bisect_spec t q Hs) as [_ [Hl Hu]].
  destruct (bisect t q) as [| j] eqn:Ej; [ lia | ].
  exists j. split; [ reflexivity | ]. split; [ lia | ].
  split; [ apply Hl; lia | apply Hu; lia ].
Qed.

(** ** The coefficients of a fitted [Spline] are determined by the rows *)

Lemma Spline_b_determined (t y : list R) (sp : Spline.t) (b' : nat -> R) :
  increasing t ->
  Spline.__init__ t y = Ok sp ->
  b' O = 0 -> b' (length t - 1)%nat = 0 ->
  (forall r, (1 <= r)%nat -> (r + 1 < length t)%nat ->
     width t (r - 1) * b' (r - 1)%nat
     + 2 * (width t (r - 1) + width t r) * b' r
     + width t r * b' (r + 1)%nat
     = 3 * (nth (r + 1) y 0 - nth r y 0) / width t r
       - 3 * (nth r y 0 - nth (r - 1) y 0) / width t (r - 1)) ->
  forall r, (r < length t)%nat -> nth r (Spline.b sp) 0 = b' r.
Proof.
  intros Hinc H H0 Hl Hrows r Hr.
  pose proof (Spline_init_system t y sp H) as [Hb0 [Hbl Hbrows]].
  set (f := fun r : nat =>
              3 * (nth (r + 1) y 0 - nth r y 0) / width t r
              - 3 * (nth r y 0 - nth (r - 1) y 0) / width t (r - 1)).
  assert (h_pos : forall i, (i + 1 < length t)%nat -> 0 < width t i).
  { intros i Hi. apply increasing_width_pos; [ assumption | lia ]. }
  rewrite (thomas_unique (length t) (width t) f h_pos
             (fun i => nth i (Spline.b sp) 0)) by (repeat split; assumption).
  symmetry.
  apply (thomas_unique (length t) (width t) f h_pos b');
    [ repeat split; assumption | assumption ].
Qed.

(** ** Values that are an affine function of the knots *)

Lemma Spline_affine_coefficients (t y : list R) (sp : Spline.t) (m p : R) :
  increasing t ->
  Spline.__init__ t y = Ok sp ->
  (forall i, (i < length t)%nat -> nth i y 0 = m * nth i t 0 + p) ->
  (forall i, (i < length t)%nat -> nth i (Spline.b sp) 0 = 0) /\
  (forall i, (i < length t - 1)%nat ->
     nth i (Spline.c sp) 0 = m /\ nth i (Spline.a sp) 0 = 0).
Proof.
  intros Hinc H Hy.
  assert (Hb : forall i, (i < length t)%nat -> nth i (Spline.b sp) 0 = 0).
  { apply (Spline_b_determined t y sp (fun _ => 0) Hinc H); try reflexivity.
    intros r Hr1 Hr2.
    pose proof (increasing_width_pos t (r - 1) Hinc ltac:(lia)) as Hw1.
    pose proof (increasing_width_pos t r Hinc ltac:(lia)) as Hw2.
    rewrite !Hy by lia. unfold width in *.
    replace (S (r - 1)) with r in * by lia.
    replace (r + 1)%nat with (S r) by lia.
    field. lra. }
  split; [ exact Hb | ].
  intros i Hi.
  destruct (Spline_init_coefficients t y sp i H Hi) as [-> ->].
  pose proof (increasing_width_pos t i Hinc ltac:(lia)) as Hw.
  rewrite !Hb, !Hy by lia. unfold width in *.
  split; field; lra.
Qed.

Lemma Spline_affine_queries (t y : list R) (sp : Spline.t) (m p q : R) :
  increasing t ->
  Spline.__init__ t y = Ok sp ->
  (forall i, (i < length t)%nat -> nth i y 0 = m * nth i t 0 + p) ->
  nth 0 t 0 <= q -> q < last t 0 ->
  Spline.position sp q = Ok (Some (m * q + p)) /\
  Spline.first_derivative sp q = Ok (Some m) /\
  Spline.second_derivative sp q = Ok (Some 0).
Proof.
  intros Hinc H Hy H0 H1.
  pose proof (increasing_nondecreasing t Hinc) as Hs.
  pose proof (Spline_init_inv t y sp H) as [Hn _].
  destruct (segment_of t q Hs ltac:(lia) H0 H1) as [j [Ej [Hj _]]].
  destruct (Spline_affine_coefficients t y sp m p Hinc H Hy) as [Hb Hca].
  destruct (Hca j ltac:(lia)) as [Hc Ha].
  rewrite (position_at t y sp q j H), (first_derivative_at t y sp q j H),
    (second_derivative_at t y sp q j H); try assumption; try lra; try lia.
  rewrite Ha, Hc, Hb, Hy by lia.
  repeat split; do 2 f_equal; ring.
Qed.

(** ** Values that are a linear combination of two value sequences *)

Lemma Spline_linear_coefficients (t y1 y2 y : list R) (s1 s2 s : Spline.t)
    (k1 k2 : R) :
  increasing t ->
  Spline.__init__ t y1 = Ok s1 ->
  Spline.__init__ t y2 = Ok s2 ->
  Spline.__init__ t y = Ok s ->
  (forall i, (i < length t)%nat ->
     nth i y 0 = k1 * nth i y1 0 + k2 * nth i y2 0) ->
  (forall i, (i < length t)%nat ->
     nth i (Spline.b s) 0
     = k1 * nth i (Spline.b s1) 0 + k2 * nth i (Spline.b s2) 0) /\
  (forall i, (i < length t - 1)%nat ->
     nth i (Spline.c s) 0
     = k1 * nth i (Spline.c s1) 0 + k2 * nth i (Spline.c s2) 0 /\
     nth i (Spline.a s) 0
     = k1 * nth i (Spline.a s1) 0 + k2 * nth i (Spline.a s2) 0).
Proof.
  intros Hinc H1 H2 H Hy.
  pose proof (Spline_init_system t y1 s1 H1) as [Hb1 [Hl1 Hrows1]].
  pose proof (Spline_init_system t y2 s2 H2) as [Hb2 [Hl2 Hrows2]].
  assert (Hb : forall i, (i < length t)%nat ->
            nth i (Spline.b s) 0
            = k1 * nth i (Spline.b s1) 0 + k2 * nth i (Spline.b s2) 0).
  { apply (Spline_b_determined t y s
             (fun i => k1 * nth i (Spline.b s1) 0
                       + k2 * nth i (Spline.b s2) 0) Hinc H).
    - rewrite Hb1, Hb2. ring.
    - rewrite Hl1, Hl2. ring.
    - intros r Hr1 Hr2.
      specialize (Hrows1 r Hr1 Hr2). specialize (Hrows2 r Hr1 Hr2).
      rewrite !Hy by lia.
      transitivity
        (k1 * (width t (r - 1) * nth (r - 1) (Spline.b s1) 0
               + 2 * (width t (r - 1) + width t r) * nth r (Spline.b s1) 0
               + width t r * nth (r + 1) (Spline.b s1) 0)
         + k2 * (width t (r - 1) * nth (r - 1) (Spline.b s2) 0
                 + 2 * (width t (r - 1) + width t r) * nth r (Spline.b s2) 0
                 + width t r * nth (r + 1) (Spline.b s2) 0));
        [ ring | ].
      rewrite Hrows1, Hrows2. unfold Rdiv. ring. }
  split; [ exact Hb | ].
  intros i Hi.
  destruct (Spline_init_coefficients t y s i H Hi) as [-> ->].
  destruct (Spline_init_coefficients t y1 s1 i H1 Hi) as [-> ->].
  destruct (Spline_init_coefficients t y2 s2 i H2 Hi) as [-> ->].
  rewrite !Hb, !Hy by lia. unfold Rdiv. split; ring.
Qed.

(** ** Derivatives of the cubics *)

Lemma derivable_pt_lim_eq (f : R -> R) (x l l' : R) :
  derivable_pt_lim f x l' -> l' = l -> derivable_pt_lim f x l.
Proof. intros H <-. exact H. Qed.

(** A function that follows [g1] left of [x] and [g2] from [x] on has at
    [x] the derivative that both have there, when they meet at [x]. *)
Lemma derivable_pt_lim_glue (f g1 g2 : R -> R) (x l lo hi : R) :
  lo < x < hi ->
  (forall z, lo < z < x -> f z = g1 z) ->
  (forall z, x <= z < hi -> f z = g2 z) ->
  g1 x = g2 x ->
  derivable_pt_lim g1 x l -> derivable_pt_lim g2 x l ->
  derivable_pt_lim f x l.
Proof.
  intros [Hlo Hhi] Hleft Hright Hmeet D1 D2 eps Heps.
  destruct (D1 eps Heps) as [d1 Hd1].
  destruct (D2 eps Heps) as [d2 Hd2].
  assert (Hd : 0 < Rmin (Rmin d1 d2) (Rmin (x - lo) (hi - x))).
  { repeat apply Rmin_pos; try lra; apply cond_pos. }
  exists (mkposreal _ Hd). intros h Hh Hsmall. cbn [pos] in Hsmall.
  assert (Hh1 : Rabs h < d1).
  { eapply Rlt_le_trans; [ exact Hsmall | ].
    eapply Rle_trans; [ apply Rmin_l | apply Rmin_l ]. }
  assert (Hh2 : Rabs h < d2).
  { eapply Rlt_le_trans; [ exact Hsmall | ].
    eapply Rle_trans; [ apply Rmin_l | apply Rmin_r ]. }
  assert (Hh3 : Rabs h < x - lo).
  { eapply Rlt_le_trans; [ exact Hsmall | ].
    eapply Rle_trans; [ apply Rmin_r | apply Rmin_l ]. }
  assert (Hh4 : Rabs h < hi - x).
  { eapply Rlt_le_trans; [ exact Hsmall | ].
    eapply Rle_trans; [ apply Rmin_r | apply Rmin_r ]. }
  rewrite (Hright x) by lra.
  destruct (Rlt_dec h 0) as [Hneg | Hpos].
  - rewrite Rabs_left in Hh3 by assumption.
    rewrite (Hleft (x + h)) by lra. rewrite <- Hmeet.
    now apply Hd1.
  - rewrite Rabs_right in Hh4 by lra.
    rewrite (Hright (x + h)) by lra.
    now apply Hd2.
Qed.

(** The derivative of a cubic in [u - t], and of a quadratic. *)
Lemma cubic_derivative (a b c d t q : R) :
  derivable_pt_lim
    (fun u => a * (u - t) ^ 3 + b * (u - t) ^ 2 + c * (u - t) + d) q
    (3 * a * (q - t) ^ 2 + 2 * b * (q - t) + c).
Proof.
  assert (HP : forall v,
            derivable_pt_lim
              (mult_real_fct a (fun y => y ^ 3)
               + mult_real_fct b (fun y => y ^ 2)
               + mult_real_fct c id + fct_cte d)%F v
              (a * (INR 3 * v ^ pred 3) + b * (INR 2 * v ^ pred 2)
               + c * 1 + 0)).
  { intros v.
    repeat apply derivable_pt_lim_plus;
      try apply derivable_pt_lim_scal;
      try apply derivable_pt_lim_pow;
      [ apply derivable_pt_lim_id | apply derivable_pt_lim_const ]. }
  assert (HS : derivable_pt_lim (id - fct_cte t)%F q (1 - 0)).
  { apply derivable_pt_lim_minus;
      [ apply derivable_pt_lim_id | apply derivable_pt_lim_const ]. }
  pose proof (derivable_pt_lim_comp _ _ _ _ _ HS (HP ((id - fct_cte t)%F q)))
    as H.
  eapply derivable_pt_lim_eq.
  - eapply derivable_pt_lim_ext; [ | exact H ].
    intros z. unfold comp, plus_fct, minus_fct, mult_real_fct, fct_cte, id.
    reflexivity.
  - unfold minus_fct, fct_cte, id. simpl. ring.
Qed.

Lemma quadratic_derivative (a b c t q : R) :
  derivable_pt_lim
    (fun u => 3 * a * (u - t) ^ 2 + 2 * b * (u - t) + c) q
    (6 * a * (q - t) + 2 * b).
Proof.
  eapply derivable_pt_lim_eq.
  - eapply derivable_pt_lim_ext;
      [ | exact (cubic_derivative 0 (3 * a) (2 * b) c t q) ].
    intros z. cbv beta. ring.
  - ring.
Qed.

(** ** The curve of a fitted [Spline] *)

(** Where two cubics meet, they agree in value, slope and bend. *)
Lemma Spline_joins (t y : list R) (sp : Spline.t) (i : nat) :
  increasing t ->
  Spline.__init__ t y = Ok sp ->
  (i < length t - 1)%nat ->
  nth i (Spline.a sp) 0 * width t i ^ 3
  + nth i (Spline.b sp) 0 * width t i ^ 2
  + nth i (Spline.c sp) 0 * width t i + nth i y 0
  = nth (S i) y 0 /\
  6 * nth i (Spline.a sp) 0 * width t i + 2 * nth i (Spline.b sp) 0
  = 2 * nth (S i) (Spline.b sp) 0 /\
  ((i + 2 < length t)%nat ->
   3 * nth i (Spline.a sp) 0 * width t i ^ 2
   + 2 * nth i (Spline.b sp) 0 * width t i + nth i (Spline.c sp) 0
   = nth (S i) (Spline.c sp) 0).
Proof.
  intros Hinc H Hi.
  pose proof (Spline_init_system t y sp H) as [_ [_ Hrows]].
  destruct (Spline_init_coefficients t y sp i H Hi) as [Hc Ha].
  pose proof (increasing_width_pos t i Hinc ltac:(lia)) as Hh.
  split; [ rewrite Hc, Ha; field; lra | ].
  split; [ rewrite Ha; field; lra | ].
  intros Hi2.
  destruct (Spline_init_coefficients t y sp (S i) H ltac:(lia)) as [Hc' _].
  pose proof (increasing_width_pos t (S i) Hinc ltac:(lia)) as Hh'.
  specialize (Hrows (S i) ltac:(lia) ltac:(lia)).
  replace (S i - 1)%nat with i in Hrows by lia.
  replace (S i + 1)%nat with (S (S i)) in Hrows by lia.
  rewrite Hc, Ha, Hc'.
  apply Rmult_eq_reg_l with (r := 3); [ | lra ].
  transitivity
    (3 * (nth (S i) y 0 - nth i y 0) / width t i
     + (width t i * nth i (Spline.b sp) 0
        + 2 * (width t i + width t (S i)) * nth (S i) (Spline.b sp) 0
        + width t (S i) * nth (S (S i)) (Spline.b sp) 0)
     - width t (S i)
       * (nth (S (S i)) (Spline.b sp) 0 + 2 * nth (S i) (Spline.b sp) 0));
    [ field; lra | rewrite Hrows; field; lra ].
Qed.

(** The three queries on a segment, as numbers. *)
Lemma queries_on_segment (t y : list R) (sp : Spline.t) (j : nat) (u : R) :
  increasing t ->
  Spline.__init__ t y = Ok sp ->
  (S j < length t)%nat ->
  nth j t 0 <= u -> u < nth (S j) t 0 ->
  number (Spline.position sp u)
  = nth j (Spline.a sp) 0 * (u - nth j t 0) ^ 3
    + nth j (Spline.b sp) 0 * (u - nth j t 0) ^ 2
    + nth j (Spline.c sp) 0 * (u - nth j t 0) + nth j y 0 /\
  number (Spline.first_derivative sp u)
  = 3 * nth j (Spline.a sp) 0 * (u - nth j t 0) ^ 2
    + 2 * nth j (Spline.b sp) 0 * (u - nth j t 0)
    + nth j (Spline.c sp) 0 /\
  number (Spline.second_derivative sp u)
  = 6 * nth j (Spline.a sp) 0 * (u - nth j t 0)
    + 2 * nth j (Spline.b sp) 0.
Proof.
  intros Hinc H Hj Hlo Hhi.
  pose proof (increasing_nondecreasing t Hinc) as Hs.
  destruct (nondecreasing_first_last t j Hs ltac:(lia)) as [H0 _].
  destruct (nondecreasing_first_last t (S j) Hs ltac:(lia)) as [_ H1].
  pose proof (bisect_in_segment t u j Hinc Hj Hlo Hhi) as Ej.
  rewrite (position_at t y sp u j H), (first_derivative_at t y sp u j H),
    (second_derivative_at t y sp u j H); try assumption; try lra; try lia.
  repeat split; reflexivity.
Qed.

(** ** The exceptions of the constructor of [Spline] *)

Lemma subscript_raises {A : Type} (l : list A) (i : Z) (e : exn) :
  subscript l i = Raise e -> e = IndexError.
Proof.
  unfold subscript. destruct (_ && _).
  - destruct (nth_error l _); [ discriminate | ].
    intros H. now injection H as <-.
  - intros H. now injection H as <-.
Qed.

Lemma assign_raises {A : Type} (l : list A) (i : Z) (v : A) (e : exn) :
  assign l i v = Raise e -> e = IndexError.
Proof.
  unfold assign. destruct (_ && _); [ discriminate | ].
  intros H. now injection H as <-.
Qed.

Lemma bind_raises {A B : Type} (P : exn -> Prop) (m : result A)
    (k : A -> result B) (e : exn) :
  (forall e', m = Raise e' -> P e') ->
  (forall v, m = Ok v -> k v = Raise e -> P e) ->
  bind m k = Raise e -> P e.
Proof.
  intros Hm Hk. destruct m as [v | e']; cbn [bind]; intros H.
  - now apply (Hk v).
  - injection H as <-. now apply Hm.
Qed.

Lemma assign2_raises (m : matrix) (i j : Z) (v : R) (e : exn) :
  assign2 m i j v = Raise e -> e = IndexError.
Proof.
  unfold assign2.
  apply (bind_raises (fun e => e = IndexError)); [ apply subscript_raises | intros row _ ].
  apply (bind_raises (fun e => e = IndexError)); [ apply assign_raises | intros row' _ ].
  apply assign_raises.
Qed.

Lemma for_each_raises {I St : Type} (P : exn -> Prop)
    (body : I -> St -> result St) (l : list I) (s : St) (e : exn) :
  (forall i s e', body i s = Raise e' -> P e') ->
  for_each l body s = Raise e -> P e.
Proof.
  intros Hbody. revert s. induction l as [| i l IH]; intros s; simpl.
  - discriminate.
  - apply (bind_raises P); [ apply Hbody | intros s' _; apply IH ].
Qed.

Lemma comprehension_raises {I A : Type} (P : exn -> Prop)
    (f : I -> result A) (l : list I) (e : exn) :
  (forall i e', f i = Raise e' -> P e') ->
  comprehension f l = Raise e -> P e.
Proof.
  intros Hf. revert e. induction l as [| i l IH]; intros e; simpl.
  - discriminate.
  - apply (bind_raises P); [ apply Hf | intros v _ ].
    apply (bind_raises P); [ exact IH | intros vs _ ]. discriminate.
Qed.

(** Every iteration of a loop that ends has ended. *)
Lemma for_each_Ok_inv {I St : Type} (body : I -> St -> result St)
    (l : list I) (s s' : St) (i : I) :
  for_each l body s = Ok s' -> In i l ->
  exists s1 s2, body i s1 = Ok s2.
Proof.
  revert s. induction l as [| j l IH]; intros s H Hi; [ contradiction | ].
  simpl in H. apply bind_Ok_inv in H. destruct H as [s1 [E H]].
  destruct Hi as [-> | Hi]; [ eauto | eauto ].
Qed.

Ltac raises_IndexError :=
  try match goal with |- forall _ : exn, _ => intro end;
  repeat (apply (bind_raises (fun e => e = IndexError));
          [ first [ apply subscript_raises | apply assign_raises
                  | apply assign2_raises ]
          | intros ? _ ]);
  first [ apply subscript_raises | apply assign_raises | apply assign2_raises
        | discriminate ].

Lemma calc_matrix_a_raises (n : Z) (diff : list R) (e : exn) :
  Spline.__calc_matrix_a n diff = Raise e -> e = IndexError.
Proof.
  unfold Spline.__calc_matrix_a.
  apply (bind_raises (fun e => e = IndexError)); [ apply assign2_raises | intros m0 _ ].
  apply (bind_raises (fun e => e = IndexError)).
  - intros e0. apply (for_each_raises (fun e => e = IndexError)).
    intros i m e'.
    apply (bind_raises (fun e => e = IndexError)).
    + destruct (negb _); [ raises_IndexError | discriminate ].
    + intros m1 _. raises_IndexError.
  - intros m1 _. raises_IndexError.
Qed.

Lemma calc_matrix_b_raises (n : Z) (d diff : list R) (e : exn) :
  Spline.__calc_matrix_b n d diff = Raise e -> e = IndexError.
Proof.
  unfold Spline.__calc_matrix_b.
  apply (for_each_raises (fun e => e = IndexError)). intros i m e'.
  raises_IndexError.
Qed.

Lemma linalg_solve_raises (A : matrix) (rhs : list R) (e : exn) :
  linalg_solve A rhs = Raise e -> e = LinAlgError.
Proof.
  unfold linalg_solve. destruct (excluded_middle_informative _);
    [ discriminate | ].
  intros H. now injection H as <-.
Qed.

(** The right-hand side is computed only from enough values, unless
    there are two knots, where it is computed from none. *)
Lemma calc_matrix_b_Ok_inv (n : nat) (d diff B : list R) :
  (3 <= n)%nat ->
  Spline.__calc_matrix_b (Z.of_nat n) d diff = Ok B -> (n <= length d)%nat.
Proof.
  intros Hn H. unfold Spline.__calc_matrix_b in H.
  destruct (for_each_Ok_inv _ _ _ _ (Z.of_nat (n - 3)) H) as [m1 [m2 E]].
  - apply nth_error_In with (n := (n - 3)%nat). apply range_nth. lia.
  - apply bind_Ok_inv in E. destruct E as [d2 [E _]].
    replace (Z.of_nat (n - 3) + 2)%Z with (Z.of_nat (n - 1)) in E by lia.
    apply subscript_Ok_nat in E. lia.
Qed.

(** The constructor raises [IndexError] or [LinAlgError], and nothing
    else. *)
Lemma Spline_init_raises (t y : list R) (e : exn) :
  Spline.__init__ t y = Raise e -> e = IndexError \/ e = LinAlgError.
Proof.
  unfold Spline.__init__.
  apply (bind_raises (fun e => e = IndexError \/ e = LinAlgError)).
  { intros e' H. left. now apply calc_matrix_a_raises in H. }
  intros A _.
  apply (bind_raises (fun e => e = IndexError \/ e = LinAlgError)).
  { intros e' H. left. now apply calc_matrix_b_raises in H. }
  intros B _.
  apply (bind_raises (fun e => e = IndexError \/ e = LinAlgError)).
  { intros e' H. right. now apply linalg_solve_raises in H. }
  intros b _ H. left. revert H.
  apply (bind_raises (fun e => e = IndexError)).
  { intros e'. apply (comprehension_raises (fun e => e = IndexError)).
    intros i e''. raises_IndexError. }
  intros c _.
  apply (bind_raises (fun e => e = IndexError)).
  { intros e'. apply (comprehension_raises (fun e => e = IndexError)).
    intros i e''. raises_IndexError. }
  intros a _. discriminate.
Qed.

(** On strictly increasing knots the matrix is never singular. *)
Lemma Spline_init_not_singular (t y : list R) :
  increasing t -> Spline.__init__ t y <> Raise LinAlgError.
Proof.
  intros Hinc H. unfold Spline.__init__ in H.
  destruct (Spline.__calc_matrix_a (len t) (np_diff t)) as [A | e] eqn:EA;
    cbn [bind] in H;
    [ | injection H as ->; apply calc_matrix_a_raises in EA; discriminate ].
  destruct (Spline.__calc_matrix_b (len t) y (np_diff t)) as [B | e] eqn:EB;
    cbn [bind] in H;
    [ | injection H as ->; apply calc_matrix_b_raises in EB; discriminate ].
  pose proof (calc_matrix_a_Ok_inv _ _ _ EA) as Hn.
  destruct (linalg_solve A B) as [b | e] eqn:Eb; cbn [bind] in H.
  - assert (Hrest : LinAlgError = IndexError); [ | discriminate ].
    revert H. apply (bind_raises (fun e => e = IndexError)).
    { intros e'. apply (comprehension_raises (fun e => e = IndexError)).
      intros i e''. raises_IndexError. }
    intros c _.
    apply (bind_raises (fun e => e = IndexError)).
    { intros e'. apply (comprehension_raises (fun e => e = IndexError)).
      intros i e''. raises_IndexError. }
    intros a _. discriminate.
  - (* the solver cannot have raised *)
    assert (Hsame : exists y',
              (length t <= length y')%nat /\
              Spline.__calc_matrix_b (len t) y' (np_diff t) = Ok B).
    { destruct (Nat.le_gt_cases (length t) (length y)) as [Hy | Hy];
        [ exists y; auto | ].
      destruct (Nat.le_gt_cases 3 (length t)) as [H3 | H3].
      - apply calc_matrix_b_Ok_inv in EB; [ lia | assumption ].
      - assert (H2 : length t = 2%nat) by lia.
        exists [0; 0]. split; [ simpl; lia | ].
        unfold len in *. rewrite H2 in *. exact EB. }
    destruct Hsame as [y' [Hy' EB']].
    destruct (Spline_fit_exists t y' Hinc Hn Hy') as [sp Hsp].
    unfold Spline.__init__ in Hsp.
    rewrite EA in Hsp. cbn [bind] in Hsp.
    rewrite EB' in Hsp. cbn [bind] in Hsp.
    rewrite Eb in Hsp. discriminate.
Qed.

(** ** The samples of a [Spline2D] *)

Lemma position_at_inner_knot (t y : list R) (sp : Spline.t) (j : nat) :
  increasing t ->
  Spline.__init__ t y = Ok sp ->
  (j < length t - 1)%nat ->
  Spline.position sp (nth j t 0) = Ok (Some (nth j y 0)).
Proof.
  intros Hinc H Hj.
  pose proof (increasing_nondecreasing t Hinc) as Hs.
  destruct (nondecreasing_first_last t j Hs ltac:(lia)) as [H0 H1].
  rewrite (position_at t y sp (nth j t 0) j H H0 H1); [ | | assumption ].
  - do 2 f_equal. ring.
  - apply bisect_at_knot; [ assumption | lia ].
Qed.

(** A constructed [Spline2D] has as many x as y values, at least two, and
    as many knots. *)
Lemma Spline2D_init_lengths (x y : list R) (step : R) (sp : Spline2D.t) :
  Spline2D.__init__ x y step = Ok sp ->
  length x = length y /\ (2 <= length x)%nat /\
  length (Spline2D._knots sp) = length x.
Proof.
  intros H. apply Spline2D_init_inv in H.
  destruct H as [_ [_ [_ [Ek [Ex [Ey _]]]]]].
  apply Spline_init_inv in Ex. destruct Ex as [Hk2 [Hkx _]].
  apply Spline_init_inv in Ey. destruct Ey as [_ [Hky _]].
  apply compute_knots_Ok_inv in Ek.
  destruct Ek as [steps [Eb [_ [Hlen _]]]].
  apply broadcast_length in Eb. rewrite !np_diff_length in Eb. lia.
Qed.

(** The parameters sampled by a constructed [Spline2D], one per stored
    entry. *)
Lemma Spline2D_samples (x y : list R) (step : R) (sp : Spline2D.t) :
  Spline2D.__init__ x y step = Ok sp ->
  step <> 0 /\
  let n := Z.to_nat (Zceil ((last (Spline2D._knots sp) 0
                             - nth 0 (Spline2D._knots sp) 0) / step)) in
  length (Spline2D._positions sp) = n /\
  length (Spline2D._curvature sp) = n /\
  length (Spline2D._yaw sp) = n /\
  forall k, (k < n)%nat ->
    exists p c w,
      nth_error (Spline2D._positions sp) k = Some p /\
      nth_error (Spline2D._curvature sp) k = Some c /\
      nth_error (Spline2D._yaw sp) k = Some w /\
      (exists pr,
         Spline2D._compute_position (Spline2D._spline_x sp)
           (Spline2D._spline_y sp)
           (nth 0 (Spline2D._knots sp) 0 + INR k * step) = Ok pr /\
         Coordinate_new pr = Ok p) /\
      Spline2D._compute_curvature (Spline2D._spline_x sp)
        (Spline2D._spline_y sp)
        (nth 0 (Spline2D._knots sp) 0 + INR k * step) = Ok c /\
      Spline2D._compute_yaw (Spline2D._spline_x sp)
        (Spline2D._spline_y sp)
        (nth 0 (Spline2D._knots sp) 0 + INR k * step) = Ok w.
Proof.
  intros H. apply Spline2D_init_inv in H.
  destruct H as [_ [_ [_ [Ek [_ [_ Er]]]]]].
  apply compute_results_Ok_inv in Er.
  destruct Er as [samples [Es [Lp [Lc [Lw Hnth]]]]].
  pose proof (knots_length_pos _ _ _ Ek) as Hpos.
  destruct (sweep_Ok_inv _ _ _ Hpos Es) as [Hstep Hsamples].
  split; [ exact Hstep | ]. cbv zeta.
  assert (Hlen : length samples
                 = Z.to_nat (Zceil ((last (Spline2D._knots sp) 0
                                     - nth 0 (Spline2D._knots sp) 0) / step))).
  { rewrite Hsamples. now rewrite length_map, length_seq. }
  split; [ congruence | ]. split; [ congruence | ]. split; [ congruence | ].
  intros k Hk. apply Hnth. rewrite Hsamples.
  rewrite nth_error_map, nth_error_nth' with (d := O)
    by now rewrite length_seq.
  rewrite seq_nth by assumption. reflexivity.
Qed.

(** Every sampled parameter lies from the first knot up to, but not
    including, the last one. *)
Lemma Spline2D_sample_range (x y : list R) (step : R) (sp : Spline2D.t)
    (k : nat) :
  Spline2D.__init__ x y step = Ok sp ->
  (k < Z.to_nat (Zceil ((last (Spline2D._knots sp) 0
                         - nth 0 (Spline2D._knots sp) 0) / step)%R))%nat ->
  0 < step /\
  nth 0 (Spline2D._knots sp) 0
  <= nth 0 (Spline2D._knots sp) 0 + INR k * step
  < last (Spline2D._knots sp) 0.
Proof.
  intros H Hk.
  pose proof (Spline2D_init_inv _ _ _ _ H) as [_ [_ [_ [Ek _]]]].
  pose proof (knots_first_le_last _ _ _ Ek) as Hle.
  destruct (Spline2D_samples _ _ _ _ H) as [Hstep _].
  assert (Hp : 0 < step).
  { destruct (Rlt_dec 0 step) as [Hp | Hp]; [ assumption | ].
    rewrite arange_count_backwards in Hk by lra. lia. }
  split; [ exact Hp | ]. split.
  - pose proof (pos_INR k). nra.
  - now apply arange_count_below.
Qed.

(** The knots of a constructed [Spline2D] whose consecutive waypoints are
    distinct. *)
Lemma Spline2D_knots_increasing (x y : list R) (step : R) (sp : Spline2D.t) :
  Spline2D.__init__ x y step = Ok sp ->
  (forall i, (S i < length x)%nat ->
     ~ (nth i x 0 = nth (S i) x 0 /\ nth i y 0 = nth (S i) y 0)) ->
  increasing (Spline2D._knots sp) /\
  nth 0 (Spline2D._knots sp) 0 = 0 /\
  0 < last (Spline2D._knots sp) 0.
Proof.
  intros H Hdistinct.
  destruct (Spline2D_init_lengths _ _ _ _ H) as [Hxy [Hn Hlen]].
  pose proof (Spline2D_init_inv _ _ _ _ H) as [_ [_ [_ [Ek _]]]].
  pose proof (compute_knots_increasing x y _ Hxy Hdistinct Ek) as Hinc.
  destruct (compute_knots_same_length x y _ Hxy Ek) as [_ [H0 _]].
  split; [ exact Hinc | ]. split; [ exact H0 | ].
  rewrite last_nth.
  pose proof (increasing_lt _ 0 (length (Spline2D._knots sp) - 1) Hinc
                ltac:(lia) ltac:(lia)) as Hlt.
  lra.
Qed.

(** The number of samples, for a positive step. *)
Lemma Spline2D_count (x y : list R) (step : R) (sp : Spline2D.t) :
  Spline2D.__init__ x y step = Ok sp ->
  (forall i, (S i < length x)%nat ->
     ~ (nth i x 0 = nth (S i) x 0 /\ nth i y 0 = nth (S i) y 0)) ->
  0 < step ->
  (1 <= Zceil (last (Spline2D._knots sp) 0%R / step))%Z /\
  length (Spline2D._positions sp)
  = Z.to_nat (Zceil (last (Spline2D._knots sp) 0 / step)).
Proof.
  intros H Hdistinct Hstep.
  destruct (Spline2D_knots_increasing _ _ _ _ H Hdistinct) as [_ [H0 Hl]].
  destruct (Spline2D_samples _ _ _ _ H) as [_ [Lp _]].
  rewrite H0, Rminus_0_r in Lp.
  split; [ | exact Lp ].
  pose proof (Zceil_bound (last (Spline2D._knots sp) 0 / step)) as [_ Hhi].
  assert (0 < last (Spline2D._knots sp) 0 / step)
    by (apply Rdiv_lt_0_compat; assumption).
  assert (0 < Zceil (last (Spline2D._knots sp) 0%R / step))%Z
    by (apply lt_IZR; lra).
  lia.
Qed.

(** A sample taken at a knot is the waypoint of that knot. *)
Lemma Spline2D_position_at_knot (x y : list R) (step : R) (sp : Spline2D.t)
    (k j : nat) :
  Spline2D.__init__ x y step = Ok sp ->
  (forall i, (S i < length x)%nat ->
     ~ (nth i x 0 = nth (S i) x 0 /\ nth i y 0 = nth (S i) y 0)) ->
  (k < length (Spline2D._positions sp))%nat ->
  (S j < length x)%nat ->
  nth 0 (Spline2D._knots sp) 0 + INR k * step = nth j (Spline2D._knots sp) 0 ->
  nth_error (Spline2D._positions sp) k
  = Some (mkCoordinate (nth j x 0) (nth j y 0)).
Proof.
  intros H Hdistinct Hk Hj Hs.
  destruct (Spline2D_init_lengths _ _ _ _ H) as [Hxy [Hn Hlen]].
  destruct (Spline2D_knots_increasing _ _ _ _ H Hdistinct) as [Hinc _].
  pose proof (Spline2D_init_inv _ _ _ _ H) as [_ [_ [_ [_ [Ex [Ey _]]]]]].
  destruct (Spline2D_samples _ _ _ _ H) as [_ [Lp [_ [_ Hnth]]]].
  destruct (Hnth k ltac:(lia)) as [p [_ [_ [Ep [_ [_ [[pr [Epr Enew]] _]]]]]]].
  rewrite Ep. f_equal.
  rewrite Hs in Epr. unfold Spline2D._compute_position in Epr.
  rewrite (position_at_inner_knot _ x _ j Hinc Ex),
    (position_at_inner_knot _ y _ j Hinc Ey) in Epr by lia.
  cbn [bind] in Epr. injection Epr as <-.
  cbn in Enew. now injection Enew as <-.
Qed.

(** ** Waypoints that advance along a straight line *)

Lemma hypot_along (ux uy delta : R) :
  ux ^ 2 + uy ^ 2 = 1 -> 0 <= delta ->
  hypot (ux * delta) (uy * delta) = delta.
Proof.
  intros Hu Hd. unfold hypot.
  replace (ux * delta * (ux * delta) + uy * delta * (uy * delta))
    with ((ux ^ 2 + uy ^ 2) * (delta * delta)) by ring.
  rewrite Hu, Rmult_1_l. now apply sqrt_square.
Qed.

(** The knots are then the parameters of the waypoints along the line,
    counted from the first waypoint. *)
Lemma knots_along_a_line (x y s knots : list R) (x0 y0 ux uy : R) :
  Spline2D._compute_knots x y = Ok knots ->
  length x = length y -> length s = length x ->
  increasing s -> ux ^ 2 + uy ^ 2 = 1 ->
  (forall i, (i < length x)%nat ->
     nth i x 0 = x0 + ux * nth i s 0 /\ nth i y 0 = y0 + uy * nth i s 0) ->
  forall i, (i < length x)%nat -> nth i knots 0 = nth i s 0 - nth 0 s 0.
Proof.
  intros Ek Hxy Hs Hinc Hu Hline.
  destruct (compute_knots_same_length x y _ Hxy Ek) as [_ [H0 Hstep]].
  induction i as [| i IH]; intros Hi; [ rewrite H0; ring | ].
  rewrite Hstep, IH by lia.
  destruct (Hline i ltac:(lia)) as [Hxi Hyi].
  destruct (Hline (S i) ltac:(lia)) as [Hxs Hys].
  unfold width. rewrite Hxi, Hyi, Hxs, Hys.
  replace (x0 + ux * nth (S i) s 0 - (x0 + ux * nth i s 0))
    with (ux * (nth (S i) s 0 - nth i s 0)) by ring.
  replace (y0 + uy * nth (S i) s 0 - (y0 + uy * nth i s 0))
    with (uy * (nth (S i) s 0 - nth i s 0)) by ring.
  rewrite hypot_along; [ ring | assumption | ].
  specialize (Hinc i ltac:(lia)). lra.
Qed.

Lemma line_waypoints_distinct (x y s : list R) (x0 y0 ux uy : R) :
  length s = length x ->
  increasing s -> ux ^ 2 + uy ^ 2 = 1 ->
  (forall i, (i < length x)%nat ->
     nth i x 0 = x0 + ux * nth i s 0 /\ nth i y 0 = y0 + uy * nth i s 0) ->
  forall i, (S i < length x)%nat ->
    ~ (nth i x 0 = nth (S i) x 0 /\ nth i y 0 = nth (S i) y 0).
Proof.
  intros Hs Hinc Hu Hline i Hi [Ex Ey].
  destruct (Hline i ltac:(lia)) as [Hxi Hyi].
  destruct (Hline (S i) ltac:(lia)) as [Hxs Hys].
  specialize (Hinc i ltac:(lia)).
  set (delta := nth (S i) s 0 - nth i s 0).
  assert (Hd : 0 < delta) by (unfold delta; lra).
  assert (Hx : ux * delta = 0) by (unfold delta; lra).
  assert (Hy : uy * delta = 0) by (unfold delta; lra).
  assert (Hux : ux = 0).
  { destruct (Rmult_integral _ _ Hx); lra. }
  assert (Huy : uy = 0).
  { destruct (Rmult_integral _ _ Hy); lra. }
  rewrite Hux, Huy in Hu. lra.
Qed.

(** ** Waypoints moved by a translation *)








(** ** Waypoints mirrored in the x axis *)

Lemma np_diff_opp (l : list R) :
  np_diff (map Ropp l) = map Ropp (np_diff l).
Proof.
  induction l as [| u l IH]; [ reflexivity | ].
  destruct l as [| v l]; [ reflexivity | ].
  change (np_diff (map Ropp (u :: v :: l)))
    with ((- v - - u) :: np_diff (map Ropp (v :: l))).
  change (map Ropp (np_diff (u :: v :: l)))
    with (- (v - u) :: map Ropp (np_diff (v :: l))).
  rewrite IH. f_equal. ring.
Qed.

Lemma hypot_opp_r (p q : R) : hypot p (- q) = hypot p q.
Proof. unfold hypot. f_equal. ring. Qed.

Lemma zip_with_hypot_opp (u v : list R) :
  zip_with hypot u (map Ropp v) = zip_with hypot u v.
Proof.
  revert v. induction u as [| p u IH]; intros [| q v]; simpl;
    try reflexivity.
  now rewrite hypot_opp_r, IH.
Qed.

Lemma compute_knots_mirror (x y : list R) :
  length x = length y ->
  Spline2D._compute_knots x (map Ropp y) = Spline2D._compute_knots x y.
Proof.
  intros Hxy. unfold Spline2D._compute_knots.
  rewrite np_diff_opp.
  rewrite !broadcast_same_length
    by now rewrite ?length_map, !np_diff_length, Hxy.
  now rewrite zip_with_hypot_opp.
Qed.

Lemma nth_opp (l : list R) (i : nat) : nth i (map Ropp l) 0 = - nth i l 0.
Proof.
  rewrite <- (map_nth Ropp l 0 i). f_equal. ring.
Qed.

(** The angle of the mirrored direction is the opposite angle, except for
    the direction of the negative x axis, which is its own mirror
    image. *)
Lemma atan2_opp (y x : R) :
  atan2 y x <> PI -> atan2 (- y) x = - atan2 y x.
Proof.
  unfold atan2. intros H.
  replace (- y / x) with (- (y / x)) by (unfold Rdiv; ring).
  rewrite atan_opp.
  destruct (Rlt_dec 0 x) as [Hx | Hx]; [ reflexivity | ].
  destruct (Rlt_dec x 0) as [Hx' | Hx'].
  - destruct (Rle_dec 0 y) as [Hy | Hy].
    + destruct (Rle_dec 0 (- y)) as [Hy' | Hy']; [ | ring ].
      exfalso. apply H. replace y with 0 by lra.
      replace (0 / x) with 0 by (unfold Rdiv; ring).
      rewrite atan_0. ring.
    + destruct (Rle_dec 0 (- y)) as [Hy' | Hy']; [ ring | lra ].
  - destruct (Rlt_dec 0 y) as [Hy | Hy].
    + destruct (Rlt_dec 0 (- y)); [ lra | ].
      destruct (Rlt_dec (- y) 0); [ reflexivity | lra ].
    + destruct (Rlt_dec y 0) as [Hy' | Hy'].
      * destruct (Rlt_dec 0 (- y)); [ ring | lra ].
      * destruct (Rlt_dec 0 (- y)); [ lra | ].
        destruct (Rlt_dec (- y) 0); [ lra | ring ].
Qed.

Lemma atan2_PI_inv (y x : R) : atan2 y x = PI -> x < 0 /\ y = 0.
Proof.
  pose proof PI_RGT_0 as Hpi.
  pose proof (atan_bound (y / x)) as [Hlo Hhi].
  unfold atan2.
  destruct (Rlt_dec 0 x) as [Hx | Hx]; [ lra | ].
  destruct (Rlt_dec x 0) as [Hx' | Hx'].
  - destruct (Rle_dec 0 y) as [Hy | Hy]; [ | lra ].
    intros H. split; [ assumption | ].
    destruct (Rle_lt_or_eq_dec _ _ Hy) as [Hpos | <-]; [ | reflexivity ].
    exfalso.
    assert (Hneg : y / x < 0).
    { unfold Rdiv. pose proof (Rinv_lt_0_compat x Hx'). nra. }
    apply atan_increasing in Hneg. rewrite atan_0 in Hneg. lra.
  - destruct (Rlt_dec 0 y); [ lra | ]. destruct (Rlt_dec y 0); lra.
Qed.

Lemma atan2_negative_axis (x : R) : x < 0 -> atan2 0 x = PI.
Proof.
  intros Hx. unfold atan2.
  destruct (Rlt_dec 0 x); [ lra | ].
  destruct (Rlt_dec x 0); [ | lra ].
  destruct (Rle_dec 0 0); [ | lra ].
  replace (0 / x) with 0 by (unfold Rdiv; ring).
  rewrite atan_0. ring.
Qed.

(** The spline of the opposite values returns the opposite numbers. *)
Lemma Spline_opp_queries (t y : list R) (s s' : Spline.t) (q : R) :
  increasing t ->
  Spline.__init__ t y = Ok s ->
  Spline.__init__ t (map Ropp y) = Ok s' ->
  nth 0 t 0 <= q -> q < last t 0 ->
  exists p v w,
    Spline.position s q = Ok (Some p) /\
    Spline.position s' q = Ok (Some (- p)) /\
    Spline.first_derivative s q = Ok (Some v) /\
    Spline.first_derivative s' q = Ok (Some (- v)) /\
    Spline.second_derivative s q = Ok (Some w) /\
    Spline.second_derivative s' q = Ok (Some (- w)).
Proof.
  intros Hinc H H' H0 Hl.
  pose proof (increasing_nondecreasing t Hinc) as Hs.
  pose proof (Spline_init_inv t y s H) as [Hn _].
  destruct (segment_of t q Hs ltac:(lia) H0 Hl) as [j [Ej [Hj _]]].
  destruct (Spline_linear_coefficients t y y (map Ropp y) s s s' (-1) 0
              Hinc H H H') as [Hb Hca].
  { intros i Hi. rewrite nth_opp. ring. }
  destruct (Hca j ltac:(lia)) as [Hc Ha].
  rewrite (position_at t y s q j H), (position_at t _ s' q j H'),
    (first_derivative_at t y s q j H), (first_derivative_at t _ s' q j H'),
    (second_derivative_at t y s q j H), (second_derivative_at t _ s' q j H');
    try assumption; try lra; try lia.
  do 3 eexists.
  split; [ reflexivity | ].
  split; [ rewrite Ha, Hb, Hc, nth_opp by lia; do 2 f_equal; ring | ].
  split; [ reflexivity | ].
  split; [ rewrite Ha, Hb, Hc by lia; do 2 f_equal; ring | ].
  split; [ reflexivity | ].
  rewrite Ha, Hb by lia; do 2 f_equal; ring.
Qed.

(** ** Waypoints that coincide

    Three knots of which the first two are equal: the middle row of the
    matrix still has a nonzero pivot, so the system has one solution and
    the constructor of [Spline] returns. *)

Lemma Spline_init_repeated_knot (t0 t2 y0 y1 y2 : R) :
  t0 < t2 ->
  exists sp, Spline.__init__ [t0; t0; t2] [y0; y1; y2] = Ok sp.
Proof.
  intros H02.
  destruct (calc_matrix_a_spec 3 (np_diff [t0; t0; t2]))
    as [A [EA [SA NA]]]; [ lia | reflexivity | ].
  destruct (calc_matrix_b_spec 3 [y0; y1; y2] (np_diff [t0; t0; t2]))
    as [B [EB [LB NB]]]; [ lia | simpl; lia | reflexivity | ].
  set (r := nth 1 B 0).
  destruct (Spline_init_Ok [t0; t0; t2] [y0; y1; y2] A B
              [0; r / (2 * (t0 - t0 + (t2 - t0))); 0])
    as [sp [H _]]; [ simpl; lia | simpl; lia | exact EA | exact EB | | eauto ].
  rewrite (square_ext 3 A SA), (vector_ext 3 B LB). cbn [map seq].
  fold r. rewrite !NA by lia. rewrite (NB 0%nat), (NB 2%nat) by lia. cbn.
  apply linalg_solve_unique.
  - split; [ reflexivity | ]. cbn.
    f_equal; [ lra | f_equal; [ field; lra | f_equal; lra ] ].
  - intros b' [Hl Hb'].
    destruct b' as [| u [| v [| w [| z b']]]]; try discriminate.
    cbn in Hb'. injection Hb' as Hu Hv Hw.
    assert (u = 0) by lra. assert (w = 0) by lra. subst u w.
    f_equal. f_equal.
    apply Rmult_eq_reg_l with (r := 2 * (t0 - t0 + (t2 - t0))); [ | lra ].
    rewrite <- Hv. field. lra.
Qed.

Lemma compute_knots_0_0_3_0_0_4 :
  Spline2D._compute_knots [0; 0; 3] [0; 0; 4] = Ok [0; 0; 5].
Proof.
  unfold Spline2D._compute_knots. cbn.
  replace (0 - 0) with 0 by lra.
  replace (3 - 0) with 3 by lra. replace (4 - 0) with 4 by lra.
  rewrite hypot_3_4. unfold hypot.
  replace (0 * 0 + 0 * 0) with 0 by lra. rewrite sqrt_0.
  repeat f_equal; lra.
Qed.

Lemma Spline2D_coincident_example (step : R) :
  step <> 0 ->
  exists sp,
    Spline2D.__init__ [0; 0; 3] [0; 0; 4] step = Ok sp /\
    Spline2D._knots sp = [0; 0; 5].
Proof.
  intros Hstep.
  destruct (Spline_init_repeated_knot 0 5 0 0 3) as [sx Ex]; [ lra | ].
  destruct (Spline_init_repeated_knot 0 5 0 0 4) as [sy Ey]; [ lra | ].
  destruct (Spline2D_init_Ok [0; 0; 3] [0; 0; 4] step [0; 0; 5] sx sy
              compute_knots_0_0_3_0_0_4 Ex Ey Hstep) as [sp H].
  exists sp. split; [ exact H | ].
  apply Spline2D_init_inv in H. destruct H as [_ [_ [_ [Ek _]]]].
  rewrite compute_knots_0_0_3_0_0_4 in Ek. now injection Ek.
Qed.

(** ** A path that turns back

    The waypoints (0, 0), (1, 0), (0, 0): at the middle knot both first
    derivatives are 0. *)

Lemma compute_knots_turning_back :
  Spline2D._compute_knots [0; 1; 0] [0; 0; 0] = Ok [0; 1; 2].
Proof.
  unfold Spline2D._compute_knots. cbn. unfold hypot.
  replace ((1 - 0) * (1 - 0) + (0 - 0) * (0 - 0)) with 1 by lra.
  replace ((0 - 1) * (0 - 1) + (0 - 0) * (0 - 0)) with 1 by lra.
  rewrite sqrt_1. repeat f_equal; lra.
Qed.

Lemma Spline2D_turning_back_example :
  exists sp,
    Spline2D.__init__ [0; 1; 0] [0; 0; 0] 1 = Ok sp /\
    Spline2D._knots sp = [0; 1; 2] /\
    Spline.first_derivative (Spline2D._spline_x sp) 1 = Ok (Some 0) /\
    Spline.first_derivative (Spline2D._spline_y sp) 1 = Ok (Some 0).
Proof.
  destruct (Spline_init_three 0 1 2 0 1 0 []) as [sx [Ex Hbx]];
    [ lra | lra | ].
  destruct (Spline_init_three 0 1 2 0 0 0 []) as [sy [Ey _]];
    [ lra | lra | ].
  destruct (Spline2D_init_Ok [0; 1; 0] [0; 0; 0] 1 [0; 1; 2] sx sy
              compute_knots_turning_back Ex Ey ltac:(lra)) as [sp H].
  exists sp. split; [ exact H | ].
  pose proof (Spline2D_init_inv _ _ _ _ H) as [_ [_ [_ [Ek [Ex' [Ey' _]]]]]].
  rewrite compute_knots_turning_back in Ek. injection Ek as Ek.
  rewrite <- Ek in Ex', Ey'.
  rewrite Ex in Ex'. injection Ex' as <-.
  rewrite Ey in Ey'. injection Ey' as <-.
  split; [ now symmetry | ].
  assert (Hinc : increasing [0; 1; 2]) by (apply increasing_three; lra).
  split.
  - rewrite (first_derivative_at [0; 1; 2] [0; 1; 0] sx 1 1 Ex);
      [ | simpl; lra | simpl; lra
        | exact (bisect_at_knot [0; 1; 2] 1 Hinc ltac:(simpl; lia))
        | simpl; lia ].
    destruct (Spline_init_coefficients [0; 1; 2] [0; 1; 0] sx 1 Ex
                ltac:(simpl; lia)) as [Hc _].
    rewrite Hc, Hbx. unfold width. cbn [nth]. do 2 f_equal. field.
  - destruct (Spline_affine_queries [0; 1; 2] [0; 0; 0] sy 0 0 1 Hinc Ey)
      as [_ [Hf _]]; [ | simpl; lra | simpl; lra | exact Hf ].
    intros i Hi. destruct i as [| [| [| i]]]; simpl in *; try lra. lia.
Qed.

(** ** The circumcenter *)

Lemma Circumcircle_init_flag (truth : Coordinate2D.t -> bool)
    (a b c : Coordinate2D.t) (cc : Circumcircle.t) :
  Circumcircle.__init__ truth a b c = Ok cc ->
  Circumcircle._initial_setting cc = true.
Proof.
  unfold Circumcircle.__init__, Circumcircle._calculate. intros H.
  apply bind_Ok_inv in H. destruct H as [[] [_ H]].
  destruct (Circumcircle.prevent_vertical truth a b c) as [[a' b'] c'].
  apply bind_Ok_inv in H. destruct H as [[center radius] [_ H]].
  now injection H as <-.
Qed.

(** At most one point is at the same distance from the three vertices of
    a triangle that is not flat. *)
Lemma circumcenter_unique (a b c p q : Coordinate2D.t) :
  Coordinate2D.x a * (Coordinate2D.y b - Coordinate2D.y c)
  + Coordinate2D.x b * (Coordinate2D.y c - Coordinate2D.y a)
  + Coordinate2D.x c * (Coordinate2D.y a - Coordinate2D.y b) <> 0 ->
  (forall v, In v [b; c] ->
     (Coordinate2D.x v - Coordinate2D.x p) ^ 2
     + (Coordinate2D.y v - Coordinate2D.y p) ^ 2
     = (Coordinate2D.x a - Coordinate2D.x p) ^ 2
       + (Coordinate2D.y a - Coordinate2D.y p) ^ 2) ->
  (forall v, In v [b; c] ->
     (Coordinate2D.x v - Coordinate2D.x q) ^ 2
     + (Coordinate2D.y v - Coordinate2D.y q) ^ 2
     = (Coordinate2D.x a - Coordinate2D.x q) ^ 2
       + (Coordinate2D.y a - Coordinate2D.y q) ^ 2) ->
  p = q.
Proof.
  destruct a as [ax ay], b as [bx by_], c as [cx cy], p as [px py],
    q as [qx qy].
  cbn [Coordinate2D.x Coordinate2D.y]. intros Harea Hp Hq.
  pose proof (Hp _ (or_introl eq_refl)) as Hpb.
  pose proof (Hp _ (or_intror (or_introl eq_refl))) as Hpc.
  pose proof (Hq _ (or_introl eq_refl)) as Hqb.
  pose proof (Hq _ (or_intror (or_introl eq_refl))) as Hqc.
  cbn [Coordinate2D.x Coordinate2D.y] in *.
  set (det := ax * (by_ - cy) + bx * (cy - ay) + cx * (ay - by_)) in *.
  assert (L1 : (bx - ax) * (px - qx) + (by_ - ay) * (py - qy) = 0) by nra.
  assert (L2 : (cx - ax) * (px - qx) + (cy - ay) * (py - qy) = 0) by nra.
  assert (Dx : det * (px - qx) = 0).
  { replace (det * (px - qx))
      with ((cy - ay) * ((bx - ax) * (px - qx) + (by_ - ay) * (py - qy))
            - (by_ - ay) * ((cx - ax) * (px - qx) + (cy - ay) * (py - qy)))
      by (unfold det; ring).
    rewrite L1, L2. ring. }
  assert (Dy : det * (py - qy) = 0).
  { replace (det * (py - qy))
      with ((bx - ax) * ((cx - ax) * (px - qx) + (cy - ay) * (py - qy))
            - (cx - ax) * ((bx - ax) * (px - qx) + (by_ - ay) * (py - qy)))
      by (unfold det; ring).
    rewrite L1, L2. ring. }
  f_equal.
  - destruct (Rmult_integral _ _ Dx); [ contradiction | lra ].
  - destruct (Rmult_integral _ _ Dy); [ contradiction | lra ].
Qed.

(** What a constructed circle tells about the inputs: they are not on a
    line, and the center is at the distance [radius] from each of them. *)
Lemma Circumcircle_init_equidistant (truth : Coordinate2D.t -> bool)
    (a b c : Coordinate2D.t) (cc : Circumcircle.t) :
  Circumcircle.__init__ truth a b c = Ok cc ->
  Coordinate2D.x a * (Coordinate2D.y b - Coordinate2D.y c)
  + Coordinate2D.x b * (Coordinate2D.y c - Coordinate2D.y a)
  + Coordinate2D.x c * (Coordinate2D.y a - Coordinate2D.y b) <> 0 /\
  0 <= Circumcircle.radius cc /\
  forall v, In v [a; b; c] ->
    (Coordinate2D.x v - Coordinate2D.x (Circumcircle.center cc)) ^ 2
    + (Coordinate2D.y v - Coordinate2D.y (Circumcircle.center cc)) ^ 2
    = Circumcircle.radius cc ^ 2.
Proof.
  intros H. apply Circumcircle_init_inv in H.
  destruct H as [Harea [Ep Ec]]. split; [ exact Harea | ].
  apply prevent_vertical_Permutation in Ep.
  apply center_and_radius_equidistant in Ec.
  destruct Ec as [Hr [Hb Hc]].
  assert (Hsq : Circumcircle.radius cc ^ 2 =
                (Coordinate2D.x (Circumcircle.a cc)
                 - Coordinate2D.x (Circumcircle.center cc)) ^ 2
                + (Coordinate2D.y (Circumcircle.a cc)
                   - Coordinate2D.y (Circumcircle.center cc)) ^ 2).
  { rewrite Hr. rewrite <- Rsqr_pow2. apply Rsqr_sqrt.
    apply Rplus_le_le_0_compat; apply pow2_ge_0. }
  split; [ rewrite Hr; apply sqrt_pos | ].
  intros v Hv.
  apply (Permutation_in v (Permutation_sym Ep)) in Hv.
  destruct Hv as [<- | [<- | [<- | []]]]; congruence.
Qed.

(** Hence the circle does not depend on the order of the vertices, and
    its center is the only point at the same distance from the three. *)
Lemma Circumcircle_center_unique (truth : Coordinate2D.t -> bool)
    (a b c p : Coordinate2D.t) (r : R) (cc : Circumcircle.t) :
  Circumcircle.__init__ truth a b c = Ok cc ->
  0 <= r ->
  (forall v, In v [a; b; c] ->
     (Coordinate2D.x v - Coordinate2D.x p) ^ 2
     + (Coordinate2D.y v - Coordinate2D.y p) ^ 2 = r ^ 2) ->
  Circumcircle.center cc = p /\ Circumcircle.radius cc = r.
Proof.
  intros H Hr Hp.
  destruct (Circumcircle_init_equidistant _ _ _ _ _ H) as [Harea [Hr' Hc]].
  assert (E : Circumcircle.center cc = p).
  { apply (circumcenter_unique a b c); [ assumption | | ].
    - intros v Hv. rewrite (Hc a), (Hc v); simpl; tauto.
    - intros v Hv. rewrite (Hp a), (Hp v); simpl; tauto. }
  split; [ exact E | ].
  assert (Hsq : Circumcircle.radius cc ^ 2 = r ^ 2).
  { rewrite <- (Hc a), <- (Hp a), E by (simpl; tauto). reflexivity. }
  nra.
Qed.

(** The radius is not 0: the vertices are not all at the center. *)
Lemma Circumcircle_radius_pos (truth : Coordinate2D.t -> bool)
    (a b c : Coordinate2D.t) (cc : Circumcircle.t) :
  Circumcircle.__init__ truth a b c = Ok cc ->
  0 < Circumcircle.radius cc.
Proof.
  intros H.
  destruct (Circumcircle_init_equidistant _ _ _ _ _ H) as [Harea [Hr Hc]].
  destruct Hr as [Hpos | Hzero]; [ exact Hpos | ].
  exfalso. apply Harea.
  pose proof (Hc a ltac:(simpl; tauto)) as Ha.
  pose proof (Hc b ltac:(simpl; tauto)) as Hb.
  pose proof (Hc c ltac:(simpl; tauto)) as Hcc.
  rewrite <- Hzero in Ha, Hb, Hcc.
  destruct a as [ax ay], b as [bx by_], c as [cx cy],
    (Circumcircle.center cc) as [px py].
  cbn [Coordinate2D.x Coordinate2D.y] in *.
  replace (0 ^ 2) with 0 in Ha, Hb, Hcc by ring.
  rewrite <- !Rsqr_pow2 in Ha, Hb, Hcc.
  apply Rplus_sqr_eq_0 in Ha, Hb, Hcc.
  replace ax with px by lra. replace ay with py by lra.
  replace bx with px by lra. replace by_ with py by lra.
  replace cx with px by lra. replace cy with py by lra.
  ring.
Qed.

(** ** The cache of a [Line] *)

Lemma dict_get_set {V : Type} (d : dict V) (k : string) (v : V) :
  dict_get (dict_set d k v) k = Some v.
Proof.
  induction d as [| [k' v'] d IH]; cbn.
  - now rewrite String.eqb_refl.
  - destruct (String.eqb k k') eqn:E; cbn.
    + now rewrite String.eqb_refl.
    + now rewrite E.
Qed.

(** The line [l] with the slope [v] stored in its cache. *)
Lemma slope_cached (l : Line.t) (v : R) :
  dict_get (Line._properties l) "slope" = Some v ->
  Line.slope l = Ok (v, l).
Proof. intros H. unfold Line.slope. now rewrite H. Qed.

(** What [slope] does on a line whose cache is coherent. *)
Lemma slope_vertical (l : Line.t) :
  cache_coherent l -> vertical l -> Line.slope l = Raise ZeroDivisionError.
Proof.
  intros Hc Hv. unfold Line.slope.
  destruct (dict_get (Line._properties l) "slope") as [v |] eqn:E.
  - destruct (Hc v E) as [Hne _]. contradiction.
  - unfold py_div. unfold vertical in Hv.
    destruct (Req_dec_T _ 0) as [_ | Hne]; [ reflexivity | ].
    exfalso. apply Hne. lra.
Qed.

Lemma slope_not_vertical (l : Line.t) :
  cache_coherent l -> ~ vertical l ->
  exists l',
    Line.slope l
    = Ok ((coord_y (Line.b l) - coord_y (Line.a l))
          / (coord_x (Line.b l) - coord_x (Line.a l)), l') /\
    Line.a l' = Line.a l /\ Line.b l' = Line.b l /\
    dict_get (Line._properties l') "slope"
    = Some ((coord_y (Line.b l) - coord_y (Line.a l))
            / (coord_x (Line.b l) - coord_x (Line.a l))) /\
    cache_coherent l'.
Proof.
  intros Hc Hv. unfold Line.slope.
  destruct (dict_get (Line._properties l) "slope") as [v |] eqn:E.
  - destruct (Hc v E) as [_ Ev]. exists l. rewrite <- Ev. auto 10.
  - unfold vertical in Hv. rewrite py_div_Ok by lra. cbn [bind].
    eexists. split; [ reflexivity | ].
    unfold Line.a, Line.b in *. cbn [Line._a Line._b Line._properties].
    split; [ reflexivity | ]. split; [ reflexivity | ].
    split; [ apply dict_get_set | ].
    intros v Hv'. cbn [Line._properties] in Hv'.
    rewrite dict_get_set in Hv'. injection Hv' as <-.
    unfold Line.a, Line.b. cbn [Line._a Line._b].
    split; [ lra | reflexivity ].
Qed.

Lemma slope_Ok_inv (l l' : Line.t) (v : R) :
  cache_coherent l -> Line.slope l = Ok (v, l') ->
  ~ vertical l /\
  v = (coord_y (Line.b l) - coord_y (Line.a l))
      / (coord_x (Line.b l) - coord_x (Line.a l)) /\
  Line.a l' = Line.a l /\ Line.b l' = Line.b l /\
  dict_get (Line._properties l') "slope" = Some v /\
  cache_coherent l'.
Proof.
  intros Hc H.
  assert (Hv : ~ vertical l).
  { intros Hv. rewrite (slope_vertical l Hc Hv) in H. discriminate. }
  destruct (slope_not_vertical l Hc Hv) as [l1 [E [Ha [Hb [Hg Hc1]]]]].
  rewrite E in H. injection H as <- <-. auto 10.
Qed.

Lemma setter_coherent (l : Line.t) (v : Coordinate) :
  cache_coherent (Line.a_setter l v) /\ cache_coherent (Line.b_setter l v).
Proof. split; intros w Hw; discriminate. Qed.

(** ** The intersection of two lines *)

(** The point that [intersect] computes from the slopes [s] and [u] of two
    lines. *)
Lemma intersect_not_vertical (l m : Line.t) :
  cache_coherent l -> cache_coherent m -> ~ vertical l -> ~ vertical m ->
  let s := (coord_y (Line.b l) - coord_y (Line.a l))
           / (coord_x (Line.b l) - coord_x (Line.a l)) in
  let u := (coord_y (Line.b m) - coord_y (Line.a m))
           / (coord_x (Line.b m) - coord_x (Line.a m)) in
  let x := (coord_y (Line.b m) - coord_y (Line.b l)
            + s * coord_x (Line.b l) - u * coord_x (Line.b m)) / (s - u) in
  exists l' m',
    Line.slope l = Ok (s, l') /\ Line.slope m = Ok (u, m') /\
    Line.a l' = Line.a l /\ Line.b l' = Line.b l /\
    Line.a m' = Line.a m /\ Line.b m' = Line.b m /\
    cache_coherent l' /\ cache_coherent m' /\
    Line.intersect l m
    = if Reqb s u then Ok (None, l', m')
      else Ok (Some (mkCoordinate x
                       (s * (x - coord_x (Line.b l)) + coord_y (Line.b l))),
               l', m').
Proof.
  intros Hl Hm Vl Vm s u x.
  destruct (slope_not_vertical l Hl Vl) as [l' [El [Hla [Hlb [Gl Hl']]]]].
  destruct (slope_not_vertical m Hm Vm) as [m' [Em [Hma [Hmb [Gm Hm']]]]].
  fold s in El, Gl. fold u in Em, Gm.
  exists l', m'. repeat (split; [ assumption | ]).
  unfold Line.intersect. rewrite El. cbn [bind]. rewrite Em. cbn [bind].
  destruct (Reqb s u) eqn:E; [ reflexivity | ].
  apply Reqb_false_iff in E.
  rewrite (slope_cached l' s Gl). cbn [bind].
  rewrite (slope_cached m' u Gm). cbn [bind].
  rewrite (slope_cached l' s Gl). cbn [bind].
  rewrite (slope_cached m' u Gm). cbn [bind].
  rewrite Hlb, Hmb. rewrite py_div_Ok by lra. cbn [bind].
  rewrite (slope_cached l' s Gl). cbn [bind].
  rewrite Hlb. reflexivity.
Qed.

Lemma intersect_Ok_inv (l m l' m' : Line.t) (p : option Coordinate) :
  cache_coherent l -> cache_coherent m ->
  Line.intersect l m = Ok (p, l', m') ->
  ~ vertical l /\ ~ vertical m /\ cache_coherent l' /\ cache_coherent m' /\
  Line.a l' = Line.a l /\ Line.b l' = Line.b l /\
  Line.a m' = Line.a m /\ Line.b m' = Line.b m.
Proof.
  intros Hl Hm H.
  assert (Vl : ~ vertical l).
  { intros V. unfold Line.intersect in H.
    rewrite (slope_vertical l Hl V) in H. discriminate. }
  assert (Vm : ~ vertical m).
  { intros V. unfold Line.intersect in H.
    destruct (slope_not_vertical l Hl Vl) as [l1 [El _]].
    rewrite El in H. cbn [bind] in H.
    rewrite (slope_vertical m Hm V) in H. discriminate. }
  destruct (intersect_not_vertical l m Hl Hm Vl Vm)
    as [l1 [m1 [_ [_ [Hla [Hlb [Hma [Hmb [Hl1 [Hm1 E]]]]]]]]]].
  rewrite E in H.
  destruct (Reqb _ _); injection H as <- <- <-; auto 10.
Qed.

(** Every line a program can hold has a coherent cache. *)
Lemma reachable_coherent (l : Line.t) : Line.reachable l -> cache_coherent l.
Proof.
  induction 1 as [a b | l v _ _ | l v _ _ | l l' i v _ IH E | l l' v _ IH E
                  | l m l' m' p _ IHl _ IHm E | l m l' m' p _ IHl _ IHm E].
  - intros w Hw. discriminate.
  - apply setter_coherent.
  - apply setter_coherent.
  - unfold Line.__setitem__ in E.
    destruct (i =? 0)%Z; [ injection E as <-; apply setter_coherent | ].
    destruct (i =? 1)%Z; [ injection E as <-; apply setter_coherent | ].
    discriminate.
  - now apply (slope_Ok_inv l l' v IH E).
  - now apply (intersect_Ok_inv l m l' m' p IHl IHm E).
  - now apply (intersect_Ok_inv l m l' m' p IHl IHm E).
Qed.



(** The two orders of an intersection give the same point. *)
Lemma intersect_sym (l m l' m' : Line.t) (p : option Coordinate) :
  cache_coherent l -> cache_coherent m ->
  Line.intersect l m = Ok (p, l', m') ->
  Line.intersect m l = Ok (p, m', l').
Proof.
  intros Hl Hm H.
  destruct (intersect_Ok_inv l m l' m' p Hl Hm H) as [Vl [Vm _]].
  destruct (intersect_not_vertical l m Hl Hm Vl Vm)
    as [l1 [m1 [El [Em [_ [_ [_ [_ [_ [_ E]]]]]]]]]].
  destruct (intersect_not_vertical m l Hm Hl Vm Vl)
    as [m2 [l2 [Em' [El' [_ [_ [_ [_ [_ [_ E']]]]]]]]]].
  rewrite El in El'. injection El' as <-.
  rewrite Em in Em'. injection Em' as <-.
  rewrite E in H. rewrite E'. clear E E'.
  set (s := (coord_y (Line.b l) - coord_y (Line.a l))
            / (coord_x (Line.b l) - coord_x (Line.a l))) in *.
  set (u := (coord_y (Line.b m) - coord_y (Line.a m))
            / (coord_x (Line.b m) - coord_x (Line.a m))) in *.
  destruct (Reqb s u) eqn:Esu.
  - apply Reqb_true_iff in Esu.
    rewrite (proj2 (Reqb_true_iff u s) (eq_sym Esu)).
    injection H as <- <- <-. reflexivity.
  - apply Reqb_false_iff in Esu.
    rewrite (proj2 (Reqb_false_iff u s)) by (intros E; apply Esu; now symmetry).
    injection H as <- <- <-.
    match goal with
    | |- Ok (Some (mkCoordinate ?x' ?y'), _, _)
         = Ok (Some (mkCoordinate ?x ?y), _, _) =>
        assert (Ex : x' = x) by (field; lra);
        assert (Ey : y' = y) by (field; lra);
        rewrite Ey, Ex
    end.
    reflexivity.
Qed.

(** ** The properties of the specification: class [Spline] *)

(** C1.  On a spline fitted from strictly increasing knots, a query from
    the first knot up to, but not including, the last knot resolves to a
    segment index between 0 and N - 2 and each of [position],
    [first_derivative] and [second_derivative] returns a number.  A query
    exactly at the last knot does not: the search resolves to N - 1, one
    past the last entry of the coefficients [a] and [c], and the three
    queries raise [IndexError]. *)
Theorem query_index_in_range_except_last_knot
    (t y : list R) (sp : Spline.t) :
  increasing t ->
  Spline.__init__ t y = Ok sp ->
  (forall q, nth 0 t 0 <= q -> q < last t 0 ->
     (0 <= Spline.__search_index sp q <= len t - 2)%Z /\
     (exists v, Spline.position sp q = Ok (Some v)) /\
     (exists v, Spline.first_derivative sp q = Ok (Some v)) /\
     (exists v, Spline.second_derivative sp q = Ok (Some v))) /\
  Spline.__search_index sp (last t 0) = (len t - 1)%Z /\
  Spline.position sp (last t 0) = Raise IndexError /\
  Spline.first_derivative sp (last t 0) = Raise IndexError /\
  Spline.second_derivative sp (last t 0) = Raise IndexError.
Proof.
  intros Hinc H.
  pose proof (increasing_nondecreasing t Hinc) as Hs.
  pose proof (Spline_init_inv t y sp H) as [Hn [_ [Hx _]]].
  split.
  - intros q H0 H1. now apply (queries_inside t y).
  - assert (Hb : bisect t (last t 0) = S (length t - 1)).
    { rewrite last_nth. apply bisect_at_knot; [ assumption | lia ]. }
    destruct (nondecreasing_first_last t (length t - 1) Hs ltac:(lia))
      as [H0 _].
    rewrite <- last_nth in H0.
    split; [ unfold Spline.__search_index, len; rewrite Hx, Hb; lia | ].
    split; [ | split ].
    + apply (position_past t y); auto; try lra; lia.
    + apply (first_derivative_past t y); auto; try lra; lia.
    + apply (second_derivative_past t y); auto; try lra; lia.
Qed.

Lemma query_index_in_range_except_last_knot_witness :
  exists sp,
    Spline.__init__ [0; 1; 2] [0; 1; 0] = Ok sp /\
    Spline.__search_index sp 2 = 2%Z /\
    Spline.position sp 2 = Raise IndexError.
Proof.
  destruct (Spline_init_three 0 1 2 0 1 0 []) as [sp [H _]]; [ lra | lra | ].
  exists sp. split; [ exact H | ].
  destruct (query_index_in_range_except_last_knot [0; 1; 2] [0; 1; 0] sp)
    as [_ [Hi [Hp _]]];
    [ apply increasing_three; lra | exact H | ].
  split; [ exact Hi | exact Hp ].
Defined.

(** C3, as the code has it.  Constructing a [Spline] raises whenever there
    are fewer than two knots or fewer values than knots. *)
Theorem Spline_init_raises_on_short_input (t y : list R) :
  (length t < 2)%nat \/ (length y < length t)%nat ->
  exists e, Spline.__init__ t y = Raise e.
Proof.
  intros Hshort.
  destruct (Spline.__init__ t y) as [sp | e] eqn:E; [ | eauto ].
  apply Spline_init_inv in E. destruct E as [Hn [Hy _]]. lia.
Qed.

Lemma Spline_init_raises_on_short_input_witness :
  exists e, Spline.__init__ [0; 1; 2] [0; 1] = Raise e.
Proof.
  apply Spline_init_raises_on_short_input. right. simpl. lia.
Defined.

(** C3, as stated, fails: with two knots and three values the lengths
    differ and the construction succeeds. *)
Lemma Spline_init_accepts_surplus_values :
  length [0; 1] <> length [0; 1; 2] /\
  exists sp, Spline.__init__ [0; 1] [0; 1; 2] = Ok sp.
Proof.
  split; [ simpl; lia | ].
  destruct (Spline_init_two 0 1 0 1 [2]) as [sp [H _]]. eauto.
Qed.

(** C4.  On a spline fitted from strictly increasing knots, [position] at
    every knot but the last returns the input value of that knot; at the
    last knot it raises [IndexError] instead of returning the last
    value. *)
Theorem position_at_knots (t y : list R) (sp : Spline.t) :
  increasing t ->
  Spline.__init__ t y = Ok sp ->
  (forall j, (j < length t - 1)%nat ->
     Spline.position sp (nth j t 0) = Ok (Some (nth j y 0))) /\
  Spline.position sp (nth (length t - 1) t 0) = Raise IndexError.
Proof.
  intros Hinc H.
  pose proof (increasing_nondecreasing t Hinc) as Hs.
  pose proof (Spline_init_inv t y sp H) as [Hn _].
  split.
  - intros j Hj.
    destruct (nondecreasing_first_last t j Hs ltac:(lia)) as [H0 H1].
    rewrite (position_at t y sp (nth j t 0) j H H0 H1); [ | | assumption ].
    + do 2 f_equal. ring.
    + apply bisect_at_knot; [ assumption | lia ].
  - destruct (nondecreasing_first_last t (length t - 1) Hs ltac:(lia))
      as [H0 H1].
    apply (position_past t y); auto.
    + apply bisect_at_knot; [ assumption | lia ].
    + lia.
Qed.

Lemma position_at_knots_witness :
  exists sp,
    Spline.__init__ [0; 1; 2] [0; 1; 0] = Ok sp /\
    Spline.position sp 0 = Ok (Some 0) /\
    Spline.position sp 1 = Ok (Some 1) /\
    Spline.position sp 2 = Raise IndexError.
Proof.
  destruct (Spline_init_three 0 1 2 0 1 0 []) as [sp [H _]]; [ lra | lra | ].
  exists sp. split; [ exact H | ].
  destruct (position_at_knots [0; 1; 2] [0; 1; 0] sp) as [Hk Hl];
    [ apply increasing_three; lra | exact H | ].
  split; [ exact (Hk 0%nat ltac:(simpl; lia)) | ].
  split; [ exact (Hk 1%nat ltac:(simpl; lia)) | exact Hl ].
Defined.

(** C5.  On a spline fitted from strictly increasing knots, the
    coefficient vector [b] is the solution of [A b = rhs], where
    [__calc_matrix_a] returned [A], an N x N matrix with the entries of the
    specification, and [__calc_matrix_b] returned [rhs], an N-vector with
    the entries of the specification, the widths being
    [h[i] = t[i+1] - t[i]]. *)
Theorem coefficient_b_solves_the_system (t y : list R) (sp : Spline.t) :
  increasing t ->
  Spline.__init__ t y = Ok sp ->
  exists A rhs,
    Spline.__calc_matrix_a (len t) (np_diff t) = Ok A /\
    Spline.__calc_matrix_b (len t) y (np_diff t) = Ok rhs /\
    square (length t) A /\
    length rhs = length t /\
    (forall i j, (i < length t)%nat -> (j < length t)%nat ->
       entry A i j = spec_A (length t) (width t) i j) /\
    (forall i, (i < length t)%nat ->
       nth i rhs 0 =
         spec_rhs (length t) (width t) (fun k => nth k y 0) i) /\
    length (Spline.b sp) = length t /\
    mat_vec A (Spline.b sp) = rhs /\
    (forall b', is_solution A rhs b' -> b' = Spline.b sp).
Proof.
  intros _ H.
  pose proof (Spline_init_inv t y sp H)
    as [Hn [Hy [_ [_ [_ [_ [Hb [_ [_ [A [B [EA [EB Esolve]]]]]]]]]]]]].
  assert (Hw : forall i, (i < length t - 1)%nat ->
                 nth i (np_diff t) 0 = width t i).
  { intros i Hi. apply np_diff_nth. lia. }
  destruct (calc_matrix_a_spec (length t) (np_diff t) Hn (np_diff_length t))
    as [A' [EA' [SA NA]]].
  destruct (calc_matrix_b_spec (length t) y (np_diff t) Hn Hy
              (np_diff_length t)) as [B' [EB' [LB NB]]].
  unfold len in EA, EB.
  rewrite EA in EA'. injection EA' as <-.
  rewrite EB in EB'. injection EB' as <-.
  exists A, B. unfold len.
  split; [ exact EA | ]. split; [ exact EB | ].
  split; [ exact SA | ]. split; [ exact LB | ].
  split.
  { intros i j Hi Hj. rewrite NA by assumption.
    apply spec_A_ext; assumption. }
  split.
  { intros i Hi. rewrite NB by assumption.
    apply spec_rhs_ext; assumption. }
  split; [ exact Hb | ].
  split; [ exact (proj2 (linalg_solve_Ok_inv _ _ _ Esolve)) | ].
  exact (linalg_solve_Ok_unique _ _ _ Esolve).
Qed.

Lemma coefficient_b_solves_the_system_witness :
  exists sp A rhs,
    Spline.__init__ [0; 1; 3] [0; 2; 1] = Ok sp /\
    Spline.__calc_matrix_a 3 [1 - 0; 3 - 1] = Ok A /\
    (forall i j, (i < 3)%nat -> (j < 3)%nat ->
       entry A i j = spec_A 3 (width [0; 1; 3]) i j) /\
    mat_vec A (Spline.b sp) = rhs.
Proof.
  destruct (Spline_init_three 0 1 3 0 2 1 []) as [sp [H _]]; [ lra | lra | ].
  destruct (coefficient_b_solves_the_system [0; 1; 3] [0; 2; 1] sp)
    as [A [rhs [EA [_ [_ [_ [NA [_ [_ [Hsol _]]]]]]]]]];
    [ apply increasing_three; lra | exact H | ].
  exists sp, A, rhs.
  split; [ exact H | ]. split; [ exact EA | ].
  split; [ exact NA | exact Hsol ].
Defined.

(** C6.  On a fitted spline, each of [position], [first_derivative] and
    [second_derivative] returns [None] exactly when the query lies
    strictly outside the closed range from the first knot to the last
    one: there it neither raises nor returns a number, and nowhere else
    does it return [None]. *)
Theorem no_value_exactly_out_of_range
    (t y : list R) (sp : Spline.t) (q : R) :
  Spline.__init__ t y = Ok sp ->
  (Spline.position sp q = Ok None <-> q < nth 0 t 0 \/ last t 0 < q) /\
  (Spline.first_derivative sp q = Ok None
   <-> q < nth 0 t 0 \/ last t 0 < q) /\
  (Spline.second_derivative sp q = Ok None
   <-> q < nth 0 t 0 \/ last t 0 < q).
Proof.
  intros H.
  pose proof (out_of_bounds_fitted t y sp q H) as Hout.
  unfold Spline.position, Spline.first_derivative, Spline.second_derivative.
  rewrite Hout. cbn [bind].
  rewrite <- out_of_bounds_true_iff.
  destruct (negb (Rleb (nth 0 t 0) q && Rleb q (last t 0))).
  - repeat split; auto.
  - repeat split; try discriminate; intros Hq; exfalso;
      repeat (apply bind_Ok_inv in Hq; destruct Hq as [? [_ Hq]]);
      discriminate.
Qed.

Lemma no_value_exactly_out_of_range_witness :
  exists sp,
    Spline.__init__ [0; 1; 2] [0; 1; 0] = Ok sp /\
    Spline.position sp 3 = Ok None /\
    Spline.first_derivative sp (-1) = Ok None.
Proof.
  destruct (Spline_init_three 0 1 2 0 1 0 []) as [sp [H _]]; [ lra | lra | ].
  exists sp. split; [ exact H | ]. split.
  - apply (proj1 (no_value_exactly_out_of_range _ _ sp 3 H)).
    right. simpl. lra.
  - apply (proj1 (proj2 (no_value_exactly_out_of_range _ _ sp (-1) H))).
    left. simpl. lra.
Defined.

(** ** The properties of the specification: class [Spline2D] *)

(** C2.  Constructing a [Spline2D] raises whenever the x and y sequences
    differ in length, and whenever the step is zero.  It does not raise
    for a negative step: the constructor stores the step without going
    through the setter that rejects it, the sweep is empty, and an
    instance with empty outputs is returned, on every pair of sequences
    that a positive step would accept; [Spline2D([0, 3], [0, 4], -1)] is
    such an instance, and the setter raises on its step. *)
Theorem Spline2D_init_checks :
  (forall x y step, length x <> length y ->
     exists e, Spline2D.__init__ x y step = Raise e) /\
  (forall x y, exists e, Spline2D.__init__ x y 0 = Raise e) /\
  (forall x y step,
     length x = length y -> (2 <= length x)%nat ->
     (forall i, (S i < length x)%nat ->
        ~ (nth i x 0 = nth (S i) x 0 /\ nth i y 0 = nth (S i) y 0)) ->
     step < 0 ->
     exists sp,
       Spline2D.__init__ x y step = Ok sp /\
       Spline2D._generation_step sp = step /\
       Spline2D._positions sp = [] /\
       Spline2D._curvature sp = [] /\
       Spline2D._yaw sp = [] /\
       Spline2D.generation_step_setter sp step = Raise ValueError) /\
  (exists sp,
     Spline2D.__init__ [0; 3] [0; 4] (-1) = Ok sp /\
     Spline2D._knots sp = [0; 5] /\
     Spline2D._generation_step sp = -1 /\
     Spline2D._positions sp = [] /\
     Spline2D._curvature sp = [] /\
     Spline2D._yaw sp = [] /\
     Spline2D.generation_step_setter sp (-1) = Raise ValueError).
Proof.
  assert (Hempty : forall x y step sp,
            step < 0 -> Spline2D.__init__ x y step = Ok sp ->
            Spline2D._generation_step sp = step /\
            Spline2D._positions sp = [] /\
            Spline2D._curvature sp = [] /\
            Spline2D._yaw sp = [] /\
            Spline2D.generation_step_setter sp step = Raise ValueError).
  { intros x y step sp Hneg H.
    apply Spline2D_init_inv in H.
    destruct H as [_ [_ [Hstep [Ek [_ [_ Er]]]]]].
    split; [ exact Hstep | ].
    apply compute_results_Ok_inv in Er.
    destruct Er as [samples [Es [Lp [Lc [Lw _]]]]].
    apply sweep_Ok_inv in Es; [ | eapply knots_length_pos; exact Ek ].
    destruct Es as [_ ->].
    rewrite length_map, length_seq, arange_count_backwards in Lp, Lc, Lw
      by (try assumption; eapply knots_first_le_last; exact Ek).
    apply length_zero_iff_nil in Lp, Lc, Lw.
    repeat (split; [ assumption | ]).
    unfold Spline2D.generation_step_setter.
    now rewrite (proj2 (Rleb_true_iff step 0)) by lra. }
  split; [ | split; [ | split ] ].
  - intros x y step Hne.
    destruct (Spline2D.__init__ x y step) as [sp | e] eqn:E; [ | eauto ].
    exfalso. apply Spline2D_init_inv in E.
    destruct E as [_ [_ [_ [Ek [Ex [Ey _]]]]]].
    apply Spline_init_inv in Ex. destruct Ex as [Hk2 [Hkx _]].
    apply Spline_init_inv in Ey. destruct Ey as [_ [Hky _]].
    apply compute_knots_Ok_inv in Ek.
    destruct Ek as [steps [Eb [_ [Hlen _]]]].
    apply broadcast_length in Eb. rewrite !np_diff_length in Eb. lia.
  - intros x y.
    destruct (Spline2D.__init__ x y 0) as [sp | e] eqn:E; [ | eauto ].
    exfalso. apply Spline2D_init_inv in E.
    destruct E as [_ [_ [_ [Ek [_ [_ Er]]]]]].
    apply compute_results_Ok_inv in Er. destruct Er as [samples [Es _]].
    apply sweep_Ok_inv in Es; [ | eapply knots_length_pos; exact Ek ].
    destruct Es as [Hstep _]. now apply Hstep.
  - intros x y step Hxy Hn Hdistinct Hneg.
    assert (Ek : Spline2D._compute_knots x y
                 = Ok (0 :: np_cumsum
                              (zip_with hypot (np_diff x) (np_diff y)))).
    { unfold Spline2D._compute_knots.
      rewrite broadcast_same_length by now rewrite !np_diff_length, Hxy.
      reflexivity. }
    pose proof (compute_knots_increasing x y _ Hxy Hdistinct Ek) as Hinc.
    destruct (compute_knots_same_length x y _ Hxy Ek) as [Hlen _].
    destruct (Spline_fit_exists _ x Hinc) as [sx Ex]; try lia.
    destruct (Spline_fit_exists _ y Hinc) as [sy Ey]; try lia.
    destruct (Spline2D_init_Ok x y step _ sx sy Ek Ex Ey) as [sp H];
      [ lra | ].
    exists sp. split; [ exact H | ]. now apply (Hempty x y).
  - destruct (Spline2D_example (-1)) as [sp [H Hk]]; [ lra | ].
    exists sp. split; [ exact H | ]. split; [ exact Hk | ].
    apply (Hempty [0; 3] [0; 4]); [ lra | exact H ].
Qed.



(** C8.  On a [Spline2D] constructed from waypoints no two consecutive of
    which coincide, every segment between two knots has a positive width,
    and at every sampled parameter [s] the four derivatives of the axis
    splines are numbers [x1], [x2], [y1], [y2]; the yaw stored for that
    sample is [atan2(y1, x1)], which lies above [-PI] and not above [PI];
    and where the tangent [(x1, y1)] is not zero, the curvature stored for
    it is [(y2 x1 - x2 y1) / (x1^2 + y1^2)^(3/2)].
    Both restrictions leave out inputs that the constructor accepts.  It
    returns on the waypoints (0, 0), (0, 0), (3, 4), whose first two
    knots are equal: the width of the first segment, by which the
    constructor of [Spline] divides, is 0.  It returns on the waypoints
    (0, 0), (1, 0), (0, 0), where both first derivatives are 0 at the
    sampled parameter 1: the divisor of the curvature is 0 there. *)
Theorem curvature_and_yaw_of_samples :
  (forall (x y : list R) (step : R) (sp : Spline2D.t) (samples : list R),
     Spline2D.__init__ x y step = Ok sp ->
     (forall i, (S i < length x)%nat ->
        ~ (nth i x 0 = nth (S i) x 0 /\ nth i y 0 = nth (S i) y 0)) ->
     Spline2D.sweep (Spline2D._knots sp) step = Ok samples ->
     (forall i, (S i < length (Spline2D._knots sp))%nat ->
        0 < width (Spline2D._knots sp) i) /\
     forall k s, nth_error samples k = Some s ->
       exists x1 x2 y1 y2,
         Spline.first_derivative (Spline2D._spline_x sp) s = Ok (Some x1) /\
         Spline.second_derivative (Spline2D._spline_x sp) s = Ok (Some x2) /\
         Spline.first_derivative (Spline2D._spline_y sp) s = Ok (Some y1) /\
         Spline.second_derivative (Spline2D._spline_y sp) s = Ok (Some y2) /\
         nth_error (Spline2D._yaw sp) k = Some (atan2 y1 x1) /\
         - PI < atan2 y1 x1 <= PI /\
         (x1 <> 0 \/ y1 <> 0 ->
          0 < float_pow (x1 ^ 2 + y1 ^ 2) (3 / 2) /\
          nth_error (Spline2D._curvature sp) k =
            Some ((y2 * x1 - x2 * y1)
                  / float_pow (x1 ^ 2 + y1 ^ 2) (3 / 2)))) /\
  (exists sp,
     Spline2D.__init__ [0; 0; 3] [0; 0; 4] 2 = Ok sp /\
     Spline2D._knots sp = [0; 0; 5] /\
     width (Spline2D._knots sp) 0 = 0) /\
  (exists sp,
     Spline2D.__init__ [0; 1; 0] [0; 0; 0] 1 = Ok sp /\
     Spline2D.sweep (Spline2D._knots sp) 1 =
       Ok [0 + INR 0 * 1; 0 + INR 1 * 1] /\
     Spline.first_derivative (Spline2D._spline_x sp) (0 + INR 1 * 1)
     = Ok (Some 0) /\
     Spline.first_derivative (Spline2D._spline_y sp) (0 + INR 1 * 1)
     = Ok (Some 0)).
Proof.
  split; [ | split ].
  - intros x y step sp samples H Hdistinct Es. split.
    { destruct (Spline2D_knots_increasing x y step sp H Hdistinct)
        as [Hinc _].
      intros i Hi. now apply increasing_width_pos. }
    intros k s Hk. apply Spline2D_init_inv in H.
    destruct H as [_ [_ [_ [_ [_ [_ Er]]]]]].
    apply compute_results_Ok_inv in Er.
    destruct Er as [samples' [Es' [_ [_ [_ Hnth]]]]].
    rewrite Es in Es'. injection Es' as <-.
    destruct (Hnth k s Hk) as [p [c [w [_ [Ec [Ew [_ [Hcurv Hyaw]]]]]]]].
    unfold Spline2D._compute_curvature in Hcurv.
    apply bind_Ok_inv in Hcurv. destruct Hcurv as [x1 [Ex1 Hcurv]].
    apply bind_Ok_inv in Hcurv. destruct Hcurv as [x2 [Ex2 Hcurv]].
    apply bind_Ok_inv in Hcurv. destruct Hcurv as [y1 [Ey1 Hcurv]].
    apply bind_Ok_inv in Hcurv. destruct Hcurv as [y2 [Ey2 Hcurv]].
    destruct x1 as [x1 |], x2 as [x2 |], y1 as [y1 |], y2 as [y2 |];
      try discriminate.
    injection Hcurv as <-.
    unfold Spline2D._compute_yaw in Hyaw.
    rewrite Ey1, Ex1 in Hyaw. cbn in Hyaw. injection Hyaw as <-.
    exists x1, x2, y1, y2.
    repeat (split; [ assumption | ]).
    split; [ apply atan2_range | ].
    intros Htangent. split; [ | exact Ec ].
    unfold float_pow.
    destruct (Req_dec_T (x1 ^ 2 + y1 ^ 2) 0) as [E | _];
      [ | unfold Rpower; apply exp_pos ].
    exfalso. destruct Htangent; nra.
  - destruct (Spline2D_coincident_example 2) as [sp [H Hk]]; [ lra | ].
    exists sp. split; [ exact H | ]. split; [ exact Hk | ].
    rewrite Hk. unfold width. simpl. lra.
  - destruct Spline2D_turning_back_example as [sp [H [Hk [Hx Hy]]]].
    exists sp. split; [ exact H | ]. split.
    + rewrite Hk, sweep_Ok by (simpl; lia || lra). cbn [nth last].
      assert (Hc : Zceil ((2 - 0) / 1) = 2%Z) by (apply Zceil_eq; lra).
      rewrite Hc. reflexivity.
    + replace (0 + INR 1 * 1) with 1 by (simpl; lra). split; assumption.
Qed.

Lemma curvature_and_yaw_of_samples_witness :
  exists sp,
    Spline2D.__init__ [0; 3] [0; 4] 2 = Ok sp /\
    nth_error (Spline2D._yaw sp) 1
    = Some (atan2 ((4 - 0) / (5 - 0)) ((3 - 0) / (5 - 0))) /\
    - PI < atan2 ((4 - 0) / (5 - 0)) ((3 - 0) / (5 - 0)) <= PI /\
    nth_error (Spline2D._curvature sp) 1
    = Some ((0 * ((3 - 0) / (5 - 0)) - 0 * ((4 - 0) / (5 - 0)))
            / float_pow (((3 - 0) / (5 - 0)) ^ 2 + ((4 - 0) / (5 - 0)) ^ 2)
                (3 / 2)).
Proof.
  destruct (Spline2D_example 2) as [sp [H Hk]]; [ lra | ].
  assert (Es : Spline2D.sweep (Spline2D._knots sp) 2
               = Ok (map (fun k => 0 + INR k * 2) (seq 0 3))).
  { rewrite Hk, sweep_Ok by (simpl; lia || lra).
    cbn [nth last]. rewrite Zceil_5_2. reflexivity. }
  assert (Hdistinct : forall i, (S i < length [0; 3])%nat ->
            ~ (nth i [0; 3] 0 = nth (S i) [0; 3] 0
               /\ nth i [0; 4] 0 = nth (S i) [0; 4] 0)).
  { intros i Hi [Hx _]. destruct i as [| i]; simpl in *; [ lra | lia ]. }
  destruct (proj1 curvature_and_yaw_of_samples [0; 3] [0; 4] 2 sp _ H
              Hdistinct Es) as [_ Hsample].
  destruct (Hsample 1%nat (0 + INR 1 * 2) eq_refl)
    as [x1 [x2 [y1 [y2 [Ex1 [Ex2 [Ey1 [Ey2 [Hyaw [Hrange Hcurv]]]]]]]]]].
  exists sp. split; [ exact H | ].
  pose proof (Spline2D_init_inv _ _ _ _ H) as [_ [_ [_ [_ [Ex [Ey _]]]]]].
  rewrite Hk in Ex, Ey.
  destruct (Spline_init_two 0 5 0 3 []) as [sx [Esx Hbx]].
  destruct (Spline_init_two 0 5 0 4 []) as [sy [Esy Hby]].
  rewrite Ex in Esx. injection Esx as <-.
  rewrite Ey in Esy. injection Esy as <-.
  assert (Hq : 0 <= 0 + INR 1 * 2 < 5) by (simpl; lra).
  destruct (first_derivative_two_knots 0 5 0 3 _ (0 + INR 1 * 2)
              ltac:(lra) (proj1 Hq) (proj2 Hq) Ex Hbx) as [Fx [Sx _]].
  destruct (first_derivative_two_knots 0 5 0 4 _ (0 + INR 1 * 2)
              ltac:(lra) (proj1 Hq) (proj2 Hq) Ey Hby) as [Fy [Sy _]].
  rewrite Fx in Ex1. injection Ex1 as <-.
  rewrite Fy in Ey1. injection Ey1 as <-.
  rewrite Sx in Ex2. injection Ex2 as <-.
  rewrite Sy in Ey2. injection Ey2 as <-.
  split; [ exact Hyaw | ]. split; [ exact Hrange | ].
  apply Hcurv. left. lra.
Defined.

(** C9.  On a [Spline2D] constructed from as many x as y values, no two
    consecutive waypoints coincident, there are as many knots as
    waypoints, the first knot is 0, each further knot is the one before
    it plus the Euclidean distance between the two waypoints, and the
    knots are strictly increasing. *)
Theorem knots_are_cumulative_distances
    (x y : list R) (step : R) (sp : Spline2D.t) :
  Spline2D.__init__ x y step = Ok sp ->
  length x = length y ->
  (forall i, (S i < length x)%nat ->
     ~ (nth i x 0 = nth (S i) x 0 /\ nth i y 0 = nth (S i) y 0)) ->
  (2 <= length x)%nat /\
  length (Spline2D._knots sp) = length x /\
  nth 0 (Spline2D._knots sp) 0 = 0 /\
  (forall i, (S i < length x)%nat ->
     nth (S i) (Spline2D._knots sp) 0 =
       nth i (Spline2D._knots sp) 0
       + sqrt ((nth (S i) x 0 - nth i x 0) ^ 2
               + (nth (S i) y 0 - nth i y 0) ^ 2)) /\
  increasing (Spline2D._knots sp).
Proof.
  intros H Hxy Hdistinct. apply Spline2D_init_inv in H.
  destruct H as [_ [_ [_ [Ek [Ex _]]]]].
  pose proof (Spline_init_inv _ _ _ Ex) as [Hk2 _].
  destruct (compute_knots_same_length x y _ Hxy Ek) as [Hlen [H0 Hstep]].
  assert (Hn : (2 <= length x)%nat) by lia.
  split; [ exact Hn | ]. split; [ lia | ]. split; [ exact H0 | ].
  split.
  - intros i Hi. rewrite Hstep by assumption.
    unfold hypot, width. do 2 f_equal. ring.
  - intros i Hi. rewrite Hstep by lia.
    assert (0 < hypot (width x i) (width y i)); [ | lra ].
    apply hypot_pos. unfold width. intros [Hx Hy].
    apply (Hdistinct i); [ lia | ]. split; lra.
Qed.

Lemma knots_are_cumulative_distances_witness :
  exists sp,
    Spline2D.__init__ [0; 3] [0; 4] 2 = Ok sp /\
    length (Spline2D._knots sp) = 2%nat /\
    increasing (Spline2D._knots sp).
Proof.
  destruct (Spline2D_example 2) as [sp [H _]]; [ lra | ].
  destruct (knots_are_cumulative_distances [0; 3] [0; 4] 2 sp H eq_refl)
    as [_ [Hlen [_ [_ Hinc]]]].
  - intros i Hi [Hx _]. destruct i as [| i]; simpl in *; [ lra | lia ].
  - exists sp. auto.
Defined.

(** ** The properties of the specification: class [Circumcircle] *)

(** C10.  On a constructed [Circumcircle] the accessors [a], [b], [c]
    return the three input vertices in some order.  When the segment from
    [a] to [b] is vertical the accessors [a] and [c] return the inputs [c]
    and [a]; otherwise, when the segment from [a] to [c] is vertical, the
    accessors [a] and [b] return the inputs [b] and [a]; when neither is
    vertical each accessor returns the input of its name. *)
Theorem stored_vertices_are_the_inputs_reordered
    (truth : Coordinate2D.t -> bool) (a b c : Coordinate2D.t)
    (cc : Circumcircle.t) :
  Circumcircle.__init__ truth a b c = Ok cc ->
  Permutation [Circumcircle.a cc; Circumcircle.b cc; Circumcircle.c cc]
    [a; b; c] /\
  (Coordinate2D.x a = Coordinate2D.x b ->
   Circumcircle.a cc = c /\ Circumcircle.b cc = b /\ Circumcircle.c cc = a) /\
  (Coordinate2D.x a <> Coordinate2D.x b ->
   Coordinate2D.x a = Coordinate2D.x c ->
   Circumcircle.a cc = b /\ Circumcircle.b cc = a /\ Circumcircle.c cc = c) /\
  (Coordinate2D.x a <> Coordinate2D.x b ->
   Coordinate2D.x a <> Coordinate2D.x c ->
   Circumcircle.a cc = a /\ Circumcircle.b cc = b /\ Circumcircle.c cc = c).
Proof.
  unfold Circumcircle.__init__, Circumcircle._calculate. intros H.
  apply bind_Ok_inv in H. destruct H as [[] [_ H]].
  destruct (Circumcircle.prevent_vertical truth a b c) as [[a' b'] c'] eqn:Ep.
  apply bind_Ok_inv in H. destruct H as [[center radius] [Ec H]].
  injection H as <-.
  unfold Circumcircle.a, Circumcircle.b, Circumcircle.c.
  cbn [Circumcircle._a Circumcircle._b Circumcircle._c].
  apply center_and_radius_Ok_inv in Ec. destruct Ec as [Hab Hac].
  unfold Circumcircle.prevent_vertical in Ep.
  destruct (existsb _ _).
  - destruct (Reqb (Coordinate2D.x (Coordinate2D.sub b a)) 0) eqn:E1.
    + apply Reqb_true_iff in E1.
      destruct (Reqb (Coordinate2D.x (Coordinate2D.sub a c)) 0) eqn:E2;
        injection Ep as <- <- <-; cbn [Coordinate2D.sub Coordinate2D.x] in *.
      * exfalso. apply Hac. lra.
      * split; [ | repeat split; auto; lra ].
        apply perm_trans with [a; b; c]; [ | apply Permutation_refl ].
        change [c; b; a] with (rev [a; b; c]).
        apply Permutation_sym, Permutation_rev.
    + apply Reqb_false_iff in E1.
      destruct (Reqb (Coordinate2D.x (Coordinate2D.sub c a)) 0) eqn:E2;
        injection Ep as <- <- <-; cbn [Coordinate2D.sub Coordinate2D.x] in *.
      * apply Reqb_true_iff in E2.
        split; [ apply perm_swap | repeat split; auto; lra ].
      * apply Reqb_false_iff in E2.
        split; [ apply Permutation_refl | repeat split; auto; lra ].
  - injection Ep as <- <- <-.
    split; [ apply Permutation_refl | ].
    repeat split; auto; intros; exfalso; auto.
Qed.

(** The witness is a triangle whose side from [a] to [b] is vertical: the
    accessor [a] returns the input [c]. *)
Lemma stored_vertices_are_the_inputs_reordered_witness :
  exists cc,
    Circumcircle.__init__ (fun _ => true) (Coordinate2D.new 0 0)
      (Coordinate2D.new 0 4) (Coordinate2D.new 3 0) = Ok cc /\
    Circumcircle.a cc = Coordinate2D.new 3 0 /\
    Circumcircle.b cc = Coordinate2D.new 0 4 /\
    Circumcircle.c cc = Coordinate2D.new 0 0.
Proof.
  destruct (Circumcircle_init_Ok (fun _ => true) (Coordinate2D.new 0 0)
              (Coordinate2D.new 0 4) (Coordinate2D.new 3 0))
    as [cc H]; [ reflexivity | cbn; lra | ].
  exists cc. split; [ exact H | ].
  destruct (stored_vertices_are_the_inputs_reordered _ _ _ _ cc H)
    as [_ [Hvertical _]].
  apply Hvertical. reflexivity.
Defined.

(** ** Further properties *)

(** A [Spline] is constructed from every strictly increasing parameter
    sequence of at least two knots and a value sequence of at least as
    many entries: the linear system always has exactly one solution. *)
Theorem Spline_constructs_on_valid_input (t y : list R) :
  increasing t -> (2 <= length t)%nat -> (length t <= length y)%nat ->
  exists sp,
    Spline.__init__ t y = Ok sp /\
    Spline.x sp = t /\ Spline.d sp = y /\
    length (Spline.b sp) = length t /\
    length (Spline.c sp) = (length t - 1)%nat /\
    length (Spline.a sp) = (length t - 1)%nat.
Proof.
  intros Hinc Hn Hy.
  destruct (Spline_fit_exists t y Hinc Hn Hy) as [sp H].
  exists sp. split; [ exact H | ].
  apply Spline_init_inv in H. intuition.
Qed.

Lemma Spline_constructs_on_valid_input_witness :
  exists sp, Spline.__init__ [0; 1; 3; 4] [1; 2; 0; 5] = Ok sp.
Proof.
  destruct (Spline_constructs_on_valid_input [0; 1; 3; 4] [1; 2; 0; 5])
    as [sp [H _]]; [ | simpl; lia | simpl; lia | eauto ].
  intros i Hi. destruct i as [| [| [| i]]]; simpl in *; try lra. lia.
Defined.

(** The segment index of a query inside the knot range is the greatest
    index whose knot is not above the query. *)
Theorem search_index_is_greatest_knot_not_above
    (t y : list R) (sp : Spline.t) (q : R) :
  nondecreasing t ->
  Spline.__init__ t y = Ok sp ->
  nth 0 t 0 <= q -> q <= last t 0 ->
  exists i,
    Spline.__search_index sp q = Z.of_nat i /\ (i < length t)%nat /\
    nth i t 0 <= q /\
    forall j, (i < j)%nat -> (j < length t)%nat -> q < nth j t 0.
Proof.
  intros Hs H H0 H1.
  pose proof (Spline_init_inv t y sp H) as [Hn [_ [Hx _]]].
  destruct (bisect_spec t q Hs) as [Hr [Hl Hu]].
  destruct (bisect t q) as [| i] eqn:Ei.
  - specialize (Hu O (Nat.le_refl 0) ltac:(lia)). lra.
  - exists i. unfold Spline.__search_index. rewrite Hx, Ei.
    split; [ lia | ]. split; [ lia | ].
    split; [ apply Hl; lia | ].
    intros j Hj Hjn. apply Hu; lia.
Qed.

Lemma search_index_is_greatest_knot_not_above_witness :
  exists sp i,
    Spline.__init__ [0; 1; 3] [0; 2; 1] = Ok sp /\
    Spline.__search_index sp 2 = Z.of_nat i /\
    nth i [0; 1; 3] 0 <= 2.
Proof.
  destruct (Spline_init_three 0 1 3 0 2 1 []) as [sp [H _]]; [ lra | lra | ].
  destruct (search_index_is_greatest_knot_not_above [0; 1; 3] [0; 2; 1] sp 2)
    as [i [Hi [_ [Hle _]]]];
    [ apply increasing_nondecreasing, increasing_three; lra
    | exact H | simpl; lra | simpl; lra | ].
  exists sp, i. auto.
Defined.

(** The cubics of a spline fitted from strictly increasing knots join
    smoothly.  At the right end of every segment the cubic reaches the
    next input value and its second derivative is twice the next [b]; at
    every interior knot its first derivative is the next [c].  The
    coefficient [b] is 0 at both ends (natural boundary), and the second
    derivative queried at the first knot is 0. *)
Theorem segments_join_smoothly (t y : list R) (sp : Spline.t) :
  increasing t ->
  Spline.__init__ t y = Ok sp ->
  (forall i, (i < length t - 1)%nat ->
     nth i (Spline.a sp) 0 * width t i ^ 3
     + nth i (Spline.b sp) 0 * width t i ^ 2
     + nth i (Spline.c sp) 0 * width t i + nth i y 0
     = nth (S i) y 0 /\
     6 * nth i (Spline.a sp) 0 * width t i + 2 * nth i (Spline.b sp) 0
     = 2 * nth (S i) (Spline.b sp) 0) /\
  (forall i, (i + 2 < length t)%nat ->
     3 * nth i (Spline.a sp) 0 * width t i ^ 2
     + 2 * nth i (Spline.b sp) 0 * width t i + nth i (Spline.c sp) 0
     = nth (S i) (Spline.c sp) 0) /\
  nth 0 (Spline.b sp) 0 = 0 /\
  nth (length t - 1) (Spline.b sp) 0 = 0 /\
  Spline.second_derivative sp (nth 0 t 0) = Ok (Some 0).
Proof.
  intros Hinc H.
  pose proof (Spline_init_inv t y sp H) as [Hn _].
  pose proof (Spline_init_system t y sp H) as [Hb0 [Hbn Hrows]].
  split; [ | split; [ | split; [ | split ] ] ].
  - intros i Hi.
    destruct (Spline_init_coefficients t y sp i H Hi) as [-> ->].
    pose proof (increasing_width_pos t i Hinc ltac:(lia)) as Hh.
    split; field; lra.
  - intros i Hi.
    destruct (Spline_init_coefficients t y sp i H ltac:(lia)) as [-> ->].
    destruct (Spline_init_coefficients t y sp (S i) H ltac:(lia)) as [-> _].
    pose proof (increasing_width_pos t i Hinc ltac:(lia)) as Hh.
    pose proof (increasing_width_pos t (S i) Hinc ltac:(lia)) as Hh'.
    specialize (Hrows (S i) ltac:(lia) ltac:(lia)).
    replace (S i - 1)%nat with i in Hrows by lia.
    replace (S i + 1)%nat with (S (S i)) in Hrows by lia.
    apply Rmult_eq_reg_l with (r := 3); [ | lra ].
    transitivity
      (3 * (nth (S i) y 0 - nth i y 0) / width t i
       + (width t i * nth i (Spline.b sp) 0
          + 2 * (width t i + width t (S i)) * nth (S i) (Spline.b sp) 0
          + width t (S i) * nth (S (S i)) (Spline.b sp) 0)
       - width t (S i)
         * (nth (S (S i)) (Spline.b sp) 0 + 2 * nth (S i) (Spline.b sp) 0));
      [ field; lra | rewrite Hrows; field; lra ].
  - exact Hb0.
  - exact Hbn.
  - pose proof (increasing_nondecreasing t Hinc) as Hs.
    destruct (nondecreasing_first_last t 0 Hs ltac:(lia)) as [H0 H1].
    rewrite (second_derivative_at t y sp (nth 0 t 0) 0 H H0 H1);
      [ | apply bisect_at_knot; [ assumption | lia ] | lia ].
    rewrite Hb0. do 2 f_equal. ring.
Qed.

Lemma segments_join_smoothly_witness :
  exists sp,
    Spline.__init__ [0; 1; 3] [0; 2; 1] = Ok sp /\
    nth 0 (Spline.b sp) 0 = 0 /\
    nth 2 (Spline.b sp) 0 = 0 /\
    Spline.second_derivative sp 0 = Ok (Some 0).
Proof.
  destruct (Spline_init_three 0 1 3 0 2 1 []) as [sp [H _]]; [ lra | lra | ].
  exists sp. split; [ exact H | ].
  destruct (segments_join_smoothly [0; 1; 3] [0; 2; 1] sp)
    as [_ [_ [Hb0 [Hbn Hq]]]];
    [ apply increasing_three; lra | exact H | ].
  auto.
Defined.

(** Valid waypoints are fitted.  For x and y sequences of one length, at
    least 2, no two consecutive waypoints coincident, the constructor of
    [Spline2D] gets as far as the sampling: [_compute_knots] returns as
    many knots as waypoints, starting at 0 and strictly increasing, and
    both axis splines are fitted on them.  An exception of the
    constructor on such waypoints is therefore an exception of
    [_compute_results], and when [_compute_results] returns, the
    constructor returns the instance that holds these knots, these
    splines and its three sequences. *)
Theorem valid_waypoints_are_fitted (x y : list R) :
  length x = length y -> (2 <= length x)%nat ->
  (forall i, (S i < length x)%nat ->
     ~ (nth i x 0 = nth (S i) x 0 /\ nth i y 0 = nth (S i) y 0)) ->
  exists knots sx sy,
    Spline2D._compute_knots x y = Ok knots /\
    length knots = length x /\
    nth 0 knots 0 = 0 /\
    increasing knots /\
    Spline.__init__ knots x = Ok sx /\
    Spline.__init__ knots y = Ok sy /\
    (forall step e,
       Spline2D.__init__ x y step = Raise e ->
       Spline2D._compute_results knots sx sy step = Raise e) /\
    (forall step positions curvature yaw,
       Spline2D._compute_results knots sx sy step
       = Ok (positions, curvature, yaw) ->
       Spline2D.__init__ x y step
       = Ok (Spline2D.new x y knots sx sy step positions curvature yaw)).
Proof.
  intros Hxy Hn Hdistinct.
  assert (Ek : Spline2D._compute_knots x y
               = Ok (0 :: np_cumsum (zip_with hypot (np_diff x) (np_diff y)))).
  { unfold Spline2D._compute_knots.
    rewrite broadcast_same_length by now rewrite !np_diff_length, Hxy.
    reflexivity. }
  pose proof (compute_knots_increasing x y _ Hxy Hdistinct Ek) as Hinc.
  destruct (compute_knots_same_length x y _ Hxy Ek) as [Hlen [H0 _]].
  set (knots := 0 :: np_cumsum (zip_with hypot (np_diff x) (np_diff y))) in *.
  destruct (Spline_fit_exists knots x Hinc) as [sx Ex]; try lia.
  destruct (Spline_fit_exists knots y Hinc) as [sy Ey]; try lia.
  exists knots, sx, sy.
  split; [ exact Ek | ]. split; [ lia | ]. split; [ exact H0 | ].
  split; [ exact Hinc | ]. split; [ exact Ex | ]. split; [ exact Ey | ].
  split.
  - intros step e. unfold Spline2D.__init__.
    rewrite Ek. cbn [bind]. rewrite Ex, Ey. cbn [bind].
    destruct (Spline2D._compute_results knots sx sy step)
      as [[[ps cs] ws] | e']; cbn [bind]; intros E;
      [ discriminate | now injection E as -> ].
  - intros step ps cs ws Er. unfold Spline2D.__init__.
    rewrite Ek. cbn [bind]. rewrite Ex, Ey. cbn [bind].
    rewrite Er. reflexivity.
Qed.

Lemma valid_waypoints_are_fitted_witness :
  exists knots sx sy,
    Spline2D._compute_knots [0; 1; 2; 3] [0; 1; 0; 1] = Ok knots /\
    length knots = 4%nat /\
    increasing knots /\
    Spline.__init__ knots [0; 1; 2; 3] = Ok sx /\
    Spline.__init__ knots [0; 1; 0; 1] = Ok sy.
Proof.
  destruct (valid_waypoints_are_fitted [0; 1; 2; 3] [0; 1; 0; 1])
    as [knots [sx [sy [Ek [Hl [_ [Hinc [Ex [Ey _]]]]]]]]];
    [ reflexivity | simpl; lia | | ].
  - intros i Hi [Hx _]. destruct i as [| [| [| i]]]; simpl in *; try lra. lia.
  - exists knots, sx, sy. auto.
Defined.

(** The circle passes through the vertices.  On a constructed
    [Circumcircle], whichever of the vertices the constructor exchanged,
    the center is at the distance [radius] from each of the three input
    vertices, and [radius] is not negative. *)
Theorem circumcircle_of_a_triangle (truth : Coordinate2D.t -> bool)
    (a b c : Coordinate2D.t) (cc : Circumcircle.t) :
  Circumcircle.__init__ truth a b c = Ok cc ->
  0 <= Circumcircle.radius cc /\
  forall v, In v [a; b; c] ->
    (Coordinate2D.x v - Coordinate2D.x (Circumcircle.center cc)) ^ 2
    + (Coordinate2D.y v - Coordinate2D.y (Circumcircle.center cc)) ^ 2
    = Circumcircle.radius cc ^ 2.
Proof.
  intros H.
  destruct (Circumcircle_init_equidistant truth a b c cc H) as [_ [Hr Hv]].
  split; [ exact Hr | exact Hv ].
Qed.

(** The witness has a vertical side, so that the constructor exchanges
    two vertices; the vertex (0, 4) is on the circle. *)
Lemma circumcircle_of_a_triangle_witness :
  exists cc,
    Circumcircle.__init__ (fun _ => true) (Coordinate2D.new 0 0)
      (Coordinate2D.new 0 4) (Coordinate2D.new 3 0) = Ok cc /\
    (0 - Coordinate2D.x (Circumcircle.center cc)) ^ 2
    + (4 - Coordinate2D.y (Circumcircle.center cc)) ^ 2
    = Circumcircle.radius cc ^ 2.
Proof.
  destruct (Circumcircle_init_Ok (fun _ => true) (Coordinate2D.new 0 0)
              (Coordinate2D.new 0 4) (Coordinate2D.new 3 0))
    as [cc H]; [ reflexivity | cbn; lra | ].
  exists cc. split; [ exact H | ].
  destruct (circumcircle_of_a_triangle _ _ _ _ cc H) as [_ Hv].
  apply (Hv (Coordinate2D.new 0 4)). simpl. auto.
Defined.

(** ** Further properties: the exceptions of the constructor of [Spline] *)

(** The constructor of [Spline] raises [IndexError] or [LinAlgError] and
    nothing else.  With fewer than two knots it raises [IndexError].  On
    strictly increasing knots it never raises [LinAlgError], and it raises
    [IndexError] exactly when there are fewer than two knots or fewer
    values than knots. *)
Theorem Spline_init_exceptions (t y : list R) :
  (forall e, Spline.__init__ t y = Raise e ->
     e = IndexError \/ e = LinAlgError) /\
  ((length t < 2)%nat -> Spline.__init__ t y = Raise IndexError) /\
  (increasing t ->
   Spline.__init__ t y <> Raise LinAlgError /\
   (Spline.__init__ t y = Raise IndexError
    <-> (length t < 2)%nat \/ (length y < length t)%nat)).
Proof.
  split; [ | split ].
  - intros e. apply Spline_init_raises.
  - intros Hn. destruct t as [| t0 [| t1 t]]; [ | | simpl in Hn; lia ];
      reflexivity.
  - intros Hinc.
    pose proof (Spline_init_not_singular t y Hinc) as Hns.
    split; [ exact Hns | ]. split.
    + intros H.
      destruct (Nat.le_gt_cases 2 (length t)) as [Hn | Hn]; [ | now left ].
      destruct (Nat.le_gt_cases (length t) (length y)) as [Hy | Hy];
        [ | now right ].
      destruct (Spline_fit_exists t y Hinc Hn Hy) as [sp Hsp].
      rewrite Hsp in H. discriminate.
    + intros Hshort.
      destruct (Spline.__init__ t y) as [sp | e] eqn:E.
      * apply Spline_init_inv in E. destruct E as [Hn [Hy _]]. lia.
      * destruct (Spline_init_raises t y e E) as [-> | ->];
          [ reflexivity | contradiction ].
Qed.

(** ** Further properties: the curve of a [Spline] *)

(** Values that are an affine function [m t + p] of strictly increasing
    knots are reproduced exactly: from the first knot up to, but not
    including, the last one, [position] returns [m q + p],
    [first_derivative] returns [m] and [second_derivative] returns 0.
    Two knots always give such values: the spline is then the straight
    segment between its two points. *)
Theorem affine_values_are_reproduced
    (t y : list R) (sp : Spline.t) (m p q : R) :
  increasing t ->
  Spline.__init__ t y = Ok sp ->
  (forall i, (i < length t)%nat -> nth i y 0 = m * nth i t 0 + p) ->
  nth 0 t 0 <= q -> q < last t 0 ->
  Spline.position sp q = Ok (Some (m * q + p)) /\
  Spline.first_derivative sp q = Ok (Some m) /\
  Spline.second_derivative sp q = Ok (Some 0).
Proof.
  intros Hinc H Hy H0 H1.
  destruct (Spline_affine_queries t y sp m p q Hinc H Hy H0 H1)
    as [Hp [Hf Hs]].
  split; [ exact Hp | split; [ exact Hf | exact Hs ] ].
Qed.

Lemma affine_values_are_reproduced_witness :
  exists sp,
    Spline.__init__ [0; 1; 2] [1; 3; 5] = Ok sp /\
    Spline.position sp (1 / 2) = Ok (Some (2 * (1 / 2) + 1)) /\
    Spline.first_derivative sp (1 / 2) = Ok (Some 2).
Proof.
  destruct (Spline_init_three 0 1 2 1 3 5 []) as [sp [H _]]; [ lra | lra | ].
  exists sp. split; [ exact H | ].
  destruct (affine_values_are_reproduced [0; 1; 2] [1; 3; 5] sp 2 1 (1 / 2))
    as [Hp [Hf _]].
  - apply increasing_three; lra.
  - exact H.
  - intros i Hi. destruct i as [| [| [| i]]]; simpl in *; try lra. lia.
  - simpl. lra.
  - simpl. lra.
  - split; [ exact Hp | exact Hf ].
Defined.

(** The fitted curve is linear in the values.  When the values are the
    combination [k1 y1 + k2 y2] of two value sequences over the same
    strictly increasing knots, each of [position], [first_derivative] and
    [second_derivative] returns, from the first knot up to, but not
    including, the last one, the same combination of what the splines of
    [y1] and of [y2] return. *)
Theorem spline_is_linear_in_the_values
    (t y1 y2 y : list R) (s1 s2 s : Spline.t) (k1 k2 q : R) :
  increasing t ->
  Spline.__init__ t y1 = Ok s1 ->
  Spline.__init__ t y2 = Ok s2 ->
  Spline.__init__ t y = Ok s ->
  (forall i, (i < length t)%nat ->
     nth i y 0 = k1 * nth i y1 0 + k2 * nth i y2 0) ->
  nth 0 t 0 <= q -> q < last t 0 ->
  exists p1 p2 v1 v2 w1 w2,
    Spline.position s1 q = Ok (Some p1) /\
    Spline.position s2 q = Ok (Some p2) /\
    Spline.position s q = Ok (Some (k1 * p1 + k2 * p2)) /\
    Spline.first_derivative s1 q = Ok (Some v1) /\
    Spline.first_derivative s2 q = Ok (Some v2) /\
    Spline.first_derivative s q = Ok (Some (k1 * v1 + k2 * v2)) /\
    Spline.second_derivative s1 q = Ok (Some w1) /\
    Spline.second_derivative s2 q = Ok (Some w2) /\
    Spline.second_derivative s q = Ok (Some (k1 * w1 + k2 * w2)).
Proof.
  intros Hinc H1 H2 H Hy H0 Hl.
  pose proof (increasing_nondecreasing t Hinc) as Hs.
  pose proof (Spline_init_inv t y s H) as [Hn _].
  destruct (segment_of t q Hs ltac:(lia) H0 Hl) as [j [Ej [Hj _]]].
  destruct (Spline_linear_coefficients t y1 y2 y s1 s2 s k1 k2
              Hinc H1 H2 H Hy) as [Hb Hca].
  destruct (Hca j ltac:(lia)) as [Hc Ha].
  rewrite (position_at t y1 s1 q j H1), (position_at t y2 s2 q j H2),
    (position_at t y s q j H),
    (first_derivative_at t y1 s1 q j H1),
    (first_derivative_at t y2 s2 q j H2),
    (first_derivative_at t y s q j H),
    (second_derivative_at t y1 s1 q j H1),
    (second_derivative_at t y2 s2 q j H2),
    (second_derivative_at t y s q j H); try assumption; try lra; try lia.
  do 6 eexists.
  repeat (split; [ reflexivity | ]).
  split; [ rewrite Ha, Hb, Hc, Hy by lia; do 2 f_equal; ring | ].
  repeat (split; [ reflexivity | ]).
  split; [ rewrite Ha, Hb, Hc by lia; do 2 f_equal; ring | ].
  repeat (split; [ reflexivity | ]).
  rewrite Ha, Hb by lia; do 2 f_equal; ring.
Qed.

Lemma spline_is_linear_in_the_values_witness :
  exists s1 s2 s p1 p2,
    Spline.__init__ [0; 1; 2] [0; 1; 0] = Ok s1 /\
    Spline.__init__ [0; 1; 2] [1; 0; 2] = Ok s2 /\
    Spline.__init__ [0; 1; 2] [3; 2; 6] = Ok s /\
    Spline.position s1 (1 / 2) = Ok (Some p1) /\
    Spline.position s2 (1 / 2) = Ok (Some p2) /\
    Spline.position s (1 / 2) = Ok (Some (2 * p1 + 3 * p2)).
Proof.
  destruct (Spline_init_three 0 1 2 0 1 0 []) as [s1 [H1 _]]; [ lra | lra | ].
  destruct (Spline_init_three 0 1 2 1 0 2 []) as [s2 [H2 _]]; [ lra | lra | ].
  destruct (Spline_init_three 0 1 2 3 2 6 []) as [s [H _]]; [ lra | lra | ].
  destruct (spline_is_linear_in_the_values [0; 1; 2] [0; 1; 0] [1; 0; 2]
              [3; 2; 6] s1 s2 s 2 3 (1 / 2))
    as [p1 [p2 [_ [_ [_ [_ [E1 [E2 [E _]]]]]]]]].
  - apply increasing_three; lra.
  - exact H1.
  - exact H2.
  - exact H.
  - intros i Hi. destruct i as [| [| [| i]]]; simpl in *; try lra. lia.
  - simpl. lra.
  - simpl. lra.
  - exists s1, s2, s, p1, p2. auto 10.
Defined.

(** [first_derivative] and [second_derivative] are the derivatives of the
    curve.  On a spline fitted from strictly increasing knots, at every
    parameter strictly between the first knot and the last one, at the
    knots as inside the segments, the function that [position] computes is
    differentiable and its derivative is what [first_derivative] returns,
    and the function that [first_derivative] computes is differentiable
    and its derivative is what [second_derivative] returns. *)
Theorem derivatives_are_those_of_the_curve
    (t y : list R) (sp : Spline.t) (q : R) :
  increasing t ->
  Spline.__init__ t y = Ok sp ->
  nth 0 t 0 < q -> q < last t 0 ->
  derivable_pt_lim (fun u => number (Spline.position sp u)) q
    (number (Spline.first_derivative sp q)) /\
  derivable_pt_lim (fun u => number (Spline.first_derivative sp u)) q
    (number (Spline.second_derivative sp q)).
Proof.
  intros Hinc H H0 H1.
  pose proof (increasing_nondecreasing t Hinc) as Hs.
  pose proof (Spline_init_inv t y sp H) as [Hn _].
  destruct (segment_of t q Hs ltac:(lia) (Rlt_le _ _ H0) H1)
    as [j [_ [Hj [Hlo Hhi]]]].
  destruct (queries_on_segment t y sp j q Hinc H Hj Hlo Hhi)
    as [_ [-> ->]].
  set (aj := nth j (Spline.a sp) 0). set (bj := nth j (Spline.b sp) 0).
  set (cj := nth j (Spline.c sp) 0).
  assert (Hright : forall z, q <= z < nth (S j) t 0 ->
            number (Spline.position sp z)
            = aj * (z - nth j t 0) ^ 3 + bj * (z - nth j t 0) ^ 2
              + cj * (z - nth j t 0) + nth j y 0 /\
            number (Spline.first_derivative sp z)
            = 3 * aj * (z - nth j t 0) ^ 2 + 2 * bj * (z - nth j t 0) + cj).
  { intros z Hz.
    destruct (queries_on_segment t y sp j z Hinc H Hj) as [E1 [E2 _]];
      try lra.
    split; assumption. }
  destruct (Rle_lt_or_eq_dec _ _ Hlo) as [Hin | Hknot].
  - (* inside the segment *)
    assert (Hleft : forall z, nth j t 0 < z < q ->
              number (Spline.position sp z)
              = aj * (z - nth j t 0) ^ 3 + bj * (z - nth j t 0) ^ 2
                + cj * (z - nth j t 0) + nth j y 0 /\
              number (Spline.first_derivative sp z)
              = 3 * aj * (z - nth j t 0) ^ 2 + 2 * bj * (z - nth j t 0)
                + cj).
    { intros z Hz.
      destruct (queries_on_segment t y sp j z Hinc H Hj) as [E1 [E2 _]];
        try lra.
      split; assumption. }
    split.
    + apply derivable_pt_lim_glue
        with (g1 := fun u => aj * (u - nth j t 0) ^ 3
                             + bj * (u - nth j t 0) ^ 2
                             + cj * (u - nth j t 0) + nth j y 0)
             (g2 := fun u => aj * (u - nth j t 0) ^ 3
                             + bj * (u - nth j t 0) ^ 2
                             + cj * (u - nth j t 0) + nth j y 0)
             (lo := nth j t 0) (hi := nth (S j) t 0);
        try apply cubic_derivative; try reflexivity; try lra.
      * intros z Hz. apply (Hleft z Hz).
      * intros z Hz. apply (Hright z Hz).
    + apply derivable_pt_lim_glue
        with (g1 := fun u => 3 * aj * (u - nth j t 0) ^ 2
                             + 2 * bj * (u - nth j t 0) + cj)
             (g2 := fun u => 3 * aj * (u - nth j t 0) ^ 2
                             + 2 * bj * (u - nth j t 0) + cj)
             (lo := nth j t 0) (hi := nth (S j) t 0);
        try apply quadratic_derivative; try reflexivity; try lra.
      * intros z Hz. apply (Hleft z Hz).
      * intros z Hz. apply (Hright z Hz).
  - (* at a knot, which is not the first one *)
    destruct j as [| i]; [ lra | ].
    destruct (Spline_joins t y sp i Hinc H ltac:(lia)) as [Jv [Jb Jc]].
    specialize (Jc ltac:(lia)).
    fold aj bj cj in Jv, Jb, Jc.
    set (ai := nth i (Spline.a sp) 0) in *.
    set (bi := nth i (Spline.b sp) 0) in *.
    set (ci := nth i (Spline.c sp) 0) in *.
    assert (Hw : q - nth i t 0 = width t i) by (unfold width; lra).
    pose proof (increasing_width_pos t i Hinc ltac:(lia)) as Hwpos.
    assert (Hleft : forall z, nth i t 0 < z < q ->
              number (Spline.position sp z)
              = ai * (z - nth i t 0) ^ 3 + bi * (z - nth i t 0) ^ 2
                + ci * (z - nth i t 0) + nth i y 0 /\
              number (Spline.first_derivative sp z)
              = 3 * ai * (z - nth i t 0) ^ 2 + 2 * bi * (z - nth i t 0)
                + ci).
    { intros z Hz.
      destruct (queries_on_segment t y sp i z Hinc H ltac:(lia))
        as [E1 [E2 _]]; try lra.
      split; assumption. }
    split.
    + apply derivable_pt_lim_glue
        with (g1 := fun u => ai * (u - nth i t 0) ^ 3
                             + bi * (u - nth i t 0) ^ 2
                             + ci * (u - nth i t 0) + nth i y 0)
             (g2 := fun u => aj * (u - nth (S i) t 0) ^ 3
                             + bj * (u - nth (S i) t 0) ^ 2
                             + cj * (u - nth (S i) t 0) + nth (S i) y 0)
             (lo := nth i t 0) (hi := nth (S (S i)) t 0).
      * unfold width in Hwpos. lra.
      * intros z Hz. apply (Hleft z Hz).
      * intros z Hz. apply (Hright z Hz).
      * cbv beta. rewrite Hw, Jv, <- Hknot. ring.
      * eapply derivable_pt_lim_eq; [ apply cubic_derivative | ].
        rewrite Hw, Jc, <- Hknot. ring.
      * apply cubic_derivative.
    + apply derivable_pt_lim_glue
        with (g1 := fun u => 3 * ai * (u - nth i t 0) ^ 2
                             + 2 * bi * (u - nth i t 0) + ci)
             (g2 := fun u => 3 * aj * (u - nth (S i) t 0) ^ 2
                             + 2 * bj * (u - nth (S i) t 0) + cj)
             (lo := nth i t 0) (hi := nth (S (S i)) t 0).
      * unfold width in Hwpos. lra.
      * intros z Hz. apply (Hleft z Hz).
      * intros z Hz. apply (Hright z Hz).
      * cbv beta. rewrite Hw, Jc, <- Hknot. ring.
      * eapply derivable_pt_lim_eq; [ apply quadratic_derivative | ].
        rewrite Hw, <- Hknot. lra.
      * apply quadratic_derivative.
Qed.

(** The witness is taken at the middle knot of three. *)
Lemma derivatives_are_those_of_the_curve_witness :
  exists sp,
    Spline.__init__ [0; 1; 2] [0; 1; 0] = Ok sp /\
    derivable_pt_lim (fun u => number (Spline.position sp u)) 1
      (number (Spline.first_derivative sp 1)).
Proof.
  destruct (Spline_init_three 0 1 2 0 1 0 []) as [sp [H _]]; [ lra | lra | ].
  exists sp. split; [ exact H | ].
  destruct (derivatives_are_those_of_the_curve [0; 1; 2] [0; 1; 0] sp 1)
    as [Hd _].
  - apply increasing_three; lra.
  - exact H.
  - simpl. lra.
  - simpl. lra.
  - exact Hd.
Defined.

(** ** Further properties: the samples of a [Spline2D] *)

(** A [Spline2D] cannot be constructed from fewer than two waypoints. *)
Theorem Spline2D_needs_two_waypoints (x y : list R) (step : R) :
  (length x < 2)%nat \/ (length y < 2)%nat ->
  exists e, Spline2D.__init__ x y step = Raise e.
Proof.
  intros Hshort.
  destruct (Spline2D.__init__ x y step) as [sp | e] eqn:E; [ | eauto ].
  destruct (Spline2D_init_lengths _ _ _ _ E) as [Hxy [Hn _]]. lia.
Qed.

Lemma Spline2D_needs_two_waypoints_witness :
  exists e, Spline2D.__init__ [1] [2] (1 / 10) = Raise e.
Proof.
  apply Spline2D_needs_two_waypoints. left. simpl. lia.
Defined.

(** The sampled path passes through the waypoints.  On a [Spline2D]
    constructed from waypoints no two consecutive of which coincide, a
    sample whose parameter is a knot other than the last one is the
    waypoint of that knot; for a positive step the first sample is the
    first waypoint. *)
Theorem sampled_positions_at_knots_are_the_waypoints
    (x y : list R) (step : R) (sp : Spline2D.t) :
  Spline2D.__init__ x y step = Ok sp ->
  (forall i, (S i < length x)%nat ->
     ~ (nth i x 0 = nth (S i) x 0 /\ nth i y 0 = nth (S i) y 0)) ->
  (forall k j,
     (k < length (Spline2D.positions sp))%nat -> (S j < length x)%nat ->
     nth 0 (Spline2D.knots sp) 0 + INR k * step
     = nth j (Spline2D.knots sp) 0 ->
     nth_error (Spline2D.positions sp) k
     = Some (mkCoordinate (nth j x 0) (nth j y 0))) /\
  (0 < step ->
   nth_error (Spline2D.positions sp) 0
   = Some (mkCoordinate (nth 0 x 0) (nth 0 y 0))).
Proof.
  intros H Hdistinct. unfold Spline2D.positions, Spline2D.knots. split.
  - intros k j Hk Hj Hs.
    now apply (Spline2D_position_at_knot x y step sp k j).
  - intros Hstep.
    destruct (Spline2D_init_lengths _ _ _ _ H) as [_ [Hn _]].
    destruct (Spline2D_count _ _ _ _ H Hdistinct Hstep) as [Hone Hlen].
    apply (Spline2D_position_at_knot x y step sp 0 0 H Hdistinct);
      [ lia | lia | ].
    simpl. ring.
Qed.

Lemma sampled_positions_at_knots_are_the_waypoints_witness :
  exists sp,
    Spline2D.__init__ [0; 3] [0; 4] 2 = Ok sp /\
    nth_error (Spline2D.positions sp) 0 = Some (mkCoordinate 0 0).
Proof.
  destruct (Spline2D_example 2) as [sp [H _]]; [ lra | ].
  exists sp. split; [ exact H | ].
  destruct (sampled_positions_at_knots_are_the_waypoints [0; 3] [0; 4] 2 sp H)
    as [_ Hfirst].
  - intros i Hi [Hx _]. destruct i as [| i]; simpl in *; [ lra | lia ].
  - apply Hfirst. lra.
Defined.



(** Waypoints that advance along a straight line give a straight path.
    When the waypoints are the points [(x0 + ux s, y0 + uy s)] of a line
    of unit direction [(ux, uy)], at strictly increasing parameters [s],
    the samples of a constructed [Spline2D] are equally spaced points of
    that line, from the first waypoint on; the curvature of every sample
    is 0 and the yaw of every sample is the direction [atan2(uy, ux)] of
    the line. *)
Theorem path_along_a_line
    (x y s : list R) (x0 y0 ux uy step : R) (sp : Spline2D.t) :
  Spline2D.__init__ x y step = Ok sp ->
  length s = length x ->
  increasing s -> ux ^ 2 + uy ^ 2 = 1 ->
  (forall i, (i < length x)%nat ->
     nth i x 0 = x0 + ux * nth i s 0 /\ nth i y 0 = y0 + uy * nth i s 0) ->
  forall k, (k < length (Spline2D.positions sp))%nat ->
    nth_error (Spline2D.positions sp) k
    = Some (mkCoordinate (nth 0 x 0 + ux * (INR k * step))
              (nth 0 y 0 + uy * (INR k * step))) /\
    nth_error (Spline2D.curvature sp) k = Some 0 /\
    nth_error (Spline2D.yaw sp) k = Some (atan2 uy ux).
Proof.
  unfold Spline2D.positions, Spline2D.curvature, Spline2D.yaw.
  intros H Hs Hinc Hu Hline k Hk.
  destruct (Spline2D_init_lengths _ _ _ _ H) as [Hxy [Hn Hlen]].
  pose proof (line_waypoints_distinct x y s x0 y0 ux uy Hs Hinc Hu Hline)
    as Hdistinct.
  destruct (Spline2D_knots_increasing _ _ _ _ H Hdistinct) as [Hkinc [H0 _]].
  pose proof (Spline2D_init_inv _ _ _ _ H)
    as [_ [_ [_ [Ek [Ex [Ey _]]]]]].
  pose proof (knots_along_a_line x y s _ x0 y0 ux uy Ek Hxy Hs Hinc Hu Hline)
    as Hknots.
  destruct (Spline2D_samples _ _ _ _ H) as [_ [Lp [_ [_ Hnth]]]].
  cbv zeta in Lp, Hnth.
  destruct (Hnth k ltac:(lia))
    as [p [c [w [Ep [Ec [Ew [[pr [Epr Enew]] [Ecurv Eyaw]]]]]]]].
  destruct (Spline2D_sample_range _ _ _ _ k H ltac:(lia)) as [_ [Hlo Hhi]].
  set (q := nth 0 (Spline2D._knots sp) 0 + INR k * step) in *.
  assert (Hq : q = INR k * step) by (unfold q; rewrite H0; ring).
  assert (Hax : forall i, (i < length (Spline2D._knots sp))%nat ->
            nth i x 0
            = ux * nth i (Spline2D._knots sp) 0 + (x0 + ux * nth 0 s 0)).
  { intros i Hi. rewrite Hknots by lia.
    destruct (Hline i ltac:(lia)) as [-> _]. ring. }
  assert (Hay : forall i, (i < length (Spline2D._knots sp))%nat ->
            nth i y 0
            = uy * nth i (Spline2D._knots sp) 0 + (y0 + uy * nth 0 s 0)).
  { intros i Hi. rewrite Hknots by lia.
    destruct (Hline i ltac:(lia)) as [_ ->]. ring. }
  destruct (Spline_affine_queries _ x _ ux _ q Hkinc Ex Hax Hlo Hhi)
    as [Px [Fx Sx]].
  destruct (Spline_affine_queries _ y _ uy _ q Hkinc Ey Hay Hlo Hhi)
    as [Py [Fy Sy]].
  unfold Spline2D._compute_position in Epr. rewrite Px, Py in Epr.
  cbn [bind] in Epr. injection Epr as <-.
  cbn in Enew. injection Enew as <-.
  unfold Spline2D._compute_curvature in Ecurv.
  rewrite Fx, Sx, Fy, Sy in Ecurv. cbn in Ecurv. injection Ecurv as <-.
  unfold Spline2D._compute_yaw in Eyaw.
  rewrite Fx, Fy in Eyaw. cbn in Eyaw. injection Eyaw as <-.
  rewrite Ep, Ec, Ew.
  destruct (Hline O ltac:(lia)) as [Hx0 Hy0].
  split; [ | split; [ | reflexivity ] ].
  - do 2 f_equal; rewrite Hq; [ rewrite Hx0 | rewrite Hy0 ]; ring.
  - f_equal. unfold Rdiv. ring.
Qed.

(** The witness is the segment from [(0, 0)] to [(3, 4)], of length 5 and
    direction [(3/5, 4/5)], sampled with the step 2. *)
Lemma path_along_a_line_witness :
  exists sp,
    Spline2D.__init__ [0; 3] [0; 4] 2 = Ok sp /\
    nth_error (Spline2D.curvature sp) 0 = Some 0 /\
    nth_error (Spline2D.yaw sp) 0 = Some (atan2 (4 / 5) (3 / 5)).
Proof.
  destruct (Spline2D_example 2) as [sp [H _]]; [ lra | ].
  exists sp. split; [ exact H | ].
  assert (Hpos : (0 < length (Spline2D.positions sp))%nat).
  { destruct (Spline2D_count [0; 3] [0; 4] 2 sp H) as [Hone Hlen];
      [ | lra | unfold Spline2D.positions; lia ].
    intros i Hi [Hx _]. destruct i as [| i]; simpl in *; [ lra | lia ]. }
  destruct (path_along_a_line [0; 3] [0; 4] [0; 5] 0 0 (3 / 5) (4 / 5) 2 sp H)
    with (k := O) as [_ [Hc Hw]].
  - reflexivity.
  - apply increasing_two. lra.
  - lra.
  - intros i Hi. destruct i as [| [| i]]; simpl in *; try lra. lia.
  - exact Hpos.
  - split; [ exact Hc | exact Hw ].
Defined.



(** A sample depends on its parameter only.  Two [Spline2D] constructed
    from the same waypoints with two steps store the same position, the
    same curvature and the same yaw wherever their sampled parameters
    [k1 step1] and [k2 step2] agree: halving the step keeps every sample
    and puts a new one between two consecutive samples. *)
Theorem samples_depend_on_the_parameter_only
    (x y : list R) (step1 step2 : R) (sp1 sp2 : Spline2D.t) (k1 k2 : nat) :
  Spline2D.__init__ x y step1 = Ok sp1 ->
  Spline2D.__init__ x y step2 = Ok sp2 ->
  (k1 < length (Spline2D.positions sp1))%nat ->
  (k2 < length (Spline2D.positions sp2))%nat ->
  INR k1 * step1 = INR k2 * step2 ->
  nth_error (Spline2D.positions sp1) k1
  = nth_error (Spline2D.positions sp2) k2 /\
  nth_error (Spline2D.curvature sp1) k1
  = nth_error (Spline2D.curvature sp2) k2 /\
  nth_error (Spline2D.yaw sp1) k1 = nth_error (Spline2D.yaw sp2) k2.
Proof.
  unfold Spline2D.positions, Spline2D.curvature, Spline2D.yaw.
  intros H1 H2 Hk1 Hk2 Hq.
  pose proof (Spline2D_init_inv _ _ _ _ H1)
    as [_ [_ [_ [Ek1 [Ex1 [Ey1 _]]]]]].
  pose proof (Spline2D_init_inv _ _ _ _ H2)
    as [_ [_ [_ [Ek2 [Ex2 [Ey2 _]]]]]].
  rewrite Ek1 in Ek2. injection Ek2 as Ek.
  rewrite <- Ek in Ex2, Ey2.
  rewrite Ex1 in Ex2. injection Ex2 as Ex.
  rewrite Ey1 in Ey2. injection Ey2 as Ey.
  destruct (Spline2D_samples _ _ _ _ H1) as [_ [L1 [_ [_ N1]]]].
  destruct (Spline2D_samples _ _ _ _ H2) as [_ [L2 [_ [_ N2]]]].
  cbv zeta in L1, N1, L2, N2.
  destruct (N1 k1 ltac:(lia))
    as [p1 [c1 [w1 [Ep1 [Ec1 [Ew1 [[pr1 [Epr1 En1]] [Ek1' Ey1']]]]]]]].
  destruct (N2 k2 ltac:(lia))
    as [p2 [c2 [w2 [Ep2 [Ec2 [Ew2 [[pr2 [Epr2 En2]] [Ek2' Ey2']]]]]]]].
  rewrite <- Ek, <- Ex, <- Ey, <- Hq in Epr2, Ek2', Ey2'.
  rewrite Epr1 in Epr2. injection Epr2 as <-.
  rewrite En1 in En2. injection En2 as <-.
  rewrite Ek1' in Ek2'. injection Ek2' as <-.
  rewrite Ey1' in Ey2'. injection Ey2' as <-.
  rewrite Ep1, Ep2, Ec1, Ec2, Ew1, Ew2. auto.
Qed.

(** The witness: the second sample for the step 2 is the third one for
    the step 1. *)
Lemma samples_depend_on_the_parameter_only_witness :
  exists sp1 sp2,
    Spline2D.__init__ [0; 3] [0; 4] 2 = Ok sp1 /\
    Spline2D.__init__ [0; 3] [0; 4] 1 = Ok sp2 /\
    nth_error (Spline2D.positions sp1) 1
    = nth_error (Spline2D.positions sp2) 2.
Proof.
  destruct (Spline2D_example 2) as [sp1 [H1 K1]]; [ lra | ].
  destruct (Spline2D_example 1) as [sp2 [H2 K2]]; [ lra | ].
  exists sp1, sp2. split; [ exact H1 | ]. split; [ exact H2 | ].
  assert (Hd : forall i, (S i < length [0; 3])%nat ->
            ~ (nth i [0; 3] 0 = nth (S i) [0; 3] 0
               /\ nth i [0; 4] 0 = nth (S i) [0; 4] 0)).
  { intros i Hi [Hx _]. destruct i as [| i]; simpl in *; [ lra | lia ]. }
  destruct (Spline2D_count _ _ _ _ H1 Hd ltac:(lra)) as [_ L1].
  destruct (Spline2D_count _ _ _ _ H2 Hd ltac:(lra)) as [_ L2].
  rewrite K1 in L1. rewrite K2 in L2. cbn [last] in L1, L2.
  assert (C1 : Zceil (5 / 2) = 3%Z) by (apply Zceil_eq; lra).
  assert (C2 : Zceil (5 / 1) = 5%Z) by (apply Zceil_eq; lra).
  rewrite C1 in L1. rewrite C2 in L2.
  apply (samples_depend_on_the_parameter_only [0; 3] [0; 4] 2 1 sp1 sp2 1 2
           H1 H2);
    unfold Spline2D.positions; try lia.
  simpl. lra.
Defined.

(** The mirror image of a path turns the other way.  When the waypoints
    are mirrored in the x axis, the knots stay, every sampled position is
    mirrored, every curvature changes its sign, and every yaw changes its
    sign, except the yaw [PI] of the direction of the negative x axis,
    which stays. *)
Theorem mirror_image_has_opposite_curvature
    (x y : list R) (step : R) (sp sp' : Spline2D.t) :
  Spline2D.__init__ x y step = Ok sp ->
  Spline2D.__init__ x (map Ropp y) step = Ok sp' ->
  (forall i, (S i < length x)%nat ->
     ~ (nth i x 0 = nth (S i) x 0 /\ nth i y 0 = nth (S i) y 0)) ->
  Spline2D.knots sp' = Spline2D.knots sp /\
  length (Spline2D.positions sp') = length (Spline2D.positions sp) /\
  forall k p c w,
    nth_error (Spline2D.positions sp) k = Some p ->
    nth_error (Spline2D.curvature sp) k = Some c ->
    nth_error (Spline2D.yaw sp) k = Some w ->
    nth_error (Spline2D.positions sp') k
    = Some (mkCoordinate (coord_x p) (- coord_y p)) /\
    nth_error (Spline2D.curvature sp') k = Some (- c) /\
    nth_error (Spline2D.yaw sp') k = Some (if Reqb w PI then PI else - w).
Proof.
  unfold Spline2D.knots, Spline2D.positions, Spline2D.curvature, Spline2D.yaw.
  intros H H' Hdistinct.
  destruct (Spline2D_init_lengths _ _ _ _ H) as [Hxy [Hn Hlen]].
  destruct (Spline2D_knots_increasing _ _ _ _ H Hdistinct) as [Hinc _].
  pose proof (Spline2D_init_inv _ _ _ _ H)
    as [_ [_ [_ [Ek [Ex [Ey _]]]]]].
  pose proof (Spline2D_init_inv _ _ _ _ H')
    as [_ [_ [_ [Ek' [Ex' [Ey' _]]]]]].
  rewrite compute_knots_mirror, Ek in Ek' by assumption.
  injection Ek' as Eknots.
  rewrite <- Eknots in Ex', Ey'.
  rewrite Ex in Ex'. injection Ex' as Esx.
  destruct (Spline2D_samples _ _ _ _ H) as [_ [L [_ [_ N]]]].
  destruct (Spline2D_samples _ _ _ _ H') as [_ [L' [_ [_ N']]]].
  cbv zeta in L, N, L', N'. rewrite <- Eknots in L', N'.
  split; [ congruence | ]. split; [ congruence | ].
  intros k p c w Ep Ec Ew.
  assert (Hk : (k < length (Spline2D._positions sp))%nat).
  { apply nth_error_Some. congruence. }
  destruct (N k ltac:(lia))
    as [p0 [c0 [w0 [Ep0 [Ec0 [Ew0 [[pr [Epr En]] [Ecurv Eyaw]]]]]]]].
  destruct (N' k ltac:(lia))
    as [p1 [c1 [w1 [Ep1 [Ec1 [Ew1 [[pr' [Epr' En']] [Ecurv' Eyaw']]]]]]]].
  rewrite Ep in Ep0. injection Ep0 as <-.
  rewrite Ec in Ec0. injection Ec0 as <-.
  rewrite Ew in Ew0. injection Ew0 as <-.
  destruct (Spline2D_sample_range _ _ _ _ k H ltac:(lia)) as [_ [Hlo Hhi]].
  set (q := nth 0 (Spline2D._knots sp) 0 + INR k * step) in *.
  destruct (Spline_opp_queries _ y _ _ q Hinc Ey Ey' Hlo Hhi)
    as [py [y1 [y2 [Py [Py' [Fy [Fy' [Sy Sy']]]]]]]].
  rewrite <- Esx in Epr', Ecurv', Eyaw'.
  unfold Spline2D._compute_position in Epr, Epr'.
  rewrite Py in Epr. rewrite Py' in Epr'.
  destruct (Spline.position (Spline2D._spline_x sp) q) as [[px |] | e];
    cbn [bind] in Epr, Epr'; try discriminate;
    injection Epr as <-; injection Epr' as <-;
    cbn in En, En'; try discriminate.
  injection En as <-. injection En' as <-.
  unfold Spline2D._compute_curvature in Ecurv, Ecurv'.
  unfold Spline2D._compute_yaw in Eyaw, Eyaw'.
  rewrite Fy in Ecurv, Eyaw. rewrite Fy' in Ecurv', Eyaw'.
  rewrite Sy in Ecurv. rewrite Sy' in Ecurv'.
  destruct (Spline.first_derivative (Spline2D._spline_x sp) q)
    as [[x1 |] | e]; cbn [bind] in Ecurv, Ecurv', Eyaw, Eyaw';
    try discriminate.
  destruct (Spline.second_derivative (Spline2D._spline_x sp) q)
    as [[x2 |] | e]; cbn [bind Spline2D.curvature_formula] in Ecurv, Ecurv';
    try discriminate.
  injection Ecurv as <-. injection Ecurv' as <-.
  injection Eyaw as <-. injection Eyaw' as <-.
  rewrite Ep1, Ec1, Ew1. cbn [coord_x coord_y].
  split; [ reflexivity | ]. split.
  - f_equal.
    replace (x1 * (x1 * 1) + - y1 * (- y1 * 1))
      with (x1 * (x1 * 1) + y1 * (y1 * 1)) by ring.
    unfold Rdiv. ring.
  - f_equal. destruct (Reqb (atan2 y1 x1) PI) eqn:E.
    + apply Reqb_true_iff in E.
      destruct (atan2_PI_inv _ _ E) as [Hx ->].
      rewrite Ropp_0. now apply atan2_negative_axis.
    + apply Reqb_false_iff in E. now apply atan2_opp.
Qed.

(** The witness: the segment from [(0, 0)] to [(3, 4)] and its mirror
    image, from [(0, 0)] to [(3, -4)]. *)
Lemma mirror_image_has_opposite_curvature_witness :
  exists sp sp',
    Spline2D.__init__ [0; 3] [0; 4] 2 = Ok sp /\
    Spline2D.__init__ [0; 3] (map Ropp [0; 4]) 2 = Ok sp' /\
    Spline2D.knots sp' = Spline2D.knots sp.
Proof.
  destruct (Spline2D_example 2) as [sp [H _]]; [ lra | ].
  assert (Hd : forall i, (S i < length [0; 3])%nat ->
            ~ (nth i [0; 3] 0 = nth (S i) [0; 3] 0
               /\ nth i [0; 4] 0 = nth (S i) [0; 4] 0)).
  { intros i Hi [Hx _]. destruct i as [| i]; simpl in *; [ lra | lia ]. }
  assert (Ek : Spline2D._compute_knots [0; 3] (map Ropp [0; 4]) = Ok [0; 5]).
  { rewrite (compute_knots_mirror [0; 3] [0; 4] eq_refl).
    apply compute_knots_0_3_0_4. }
  destruct (Spline_init_two 0 5 0 3 []) as [sx [Ex _]].
  destruct (Spline_init_two 0 5 (- 0) (- 4) []) as [sy [Ey _]].
  destruct (Spline2D_init_Ok [0; 3] (map Ropp [0; 4]) 2 [0; 5] sx sy Ek Ex Ey)
    as [sp' H']; [ lra | ].
  destruct (mirror_image_has_opposite_curvature [0; 3] [0; 4] 2 sp sp' H H' Hd)
    as [Hk _].
  exists sp, sp'. auto.
Defined.

(** ** Further properties: the circle of a [Circumcircle] *)

(** The vertex setters never calculate the circle again.  The constructor
    leaves [_initial_setting] true, and the setters call [_calculate] only
    when it is false: on a constructed [Circumcircle] each of the setters
    of [a], [b] and [c] stores the vertex, does not raise, whatever the
    vertex, and leaves the center and the radius as they were. *)
Theorem vertex_setters_do_not_recalculate
    (truth : Coordinate2D.t -> bool) (a b c v : Coordinate2D.t)
    (cc : Circumcircle.t) :
  Circumcircle.__init__ truth a b c = Ok cc ->
  Circumcircle.a_setter truth cc v
  = Ok (Circumcircle.new true v (Circumcircle.b cc) (Circumcircle.c cc)
          (Circumcircle.center cc) (Circumcircle.radius cc)) /\
  Circumcircle.b_setter truth cc v
  = Ok (Circumcircle.new true (Circumcircle.a cc) v (Circumcircle.c cc)
          (Circumcircle.center cc) (Circumcircle.radius cc)) /\
  Circumcircle.c_setter truth cc v
  = Ok (Circumcircle.new true (Circumcircle.a cc) (Circumcircle.b cc) v
          (Circumcircle.center cc) (Circumcircle.radius cc)).
Proof.
  intros H. pose proof (Circumcircle_init_flag _ _ _ _ _ H) as Hflag.
  unfold Circumcircle.a_setter, Circumcircle.b_setter, Circumcircle.c_setter,
    Circumcircle.a, Circumcircle.b, Circumcircle.c, Circumcircle.center,
    Circumcircle.radius.
  cbn [Circumcircle._initial_setting]. rewrite Hflag. cbn [negb].
  repeat split.
Qed.

(** The witness moves the vertex [b] onto the line through the two
    others: the triangle is flat, nothing is raised, and the center
    stays. *)
Lemma vertex_setters_do_not_recalculate_witness :
  exists cc cc',
    Circumcircle.__init__ (fun _ => true) (Coordinate2D.new 0 0)
      (Coordinate2D.new 0 4) (Coordinate2D.new 3 0) = Ok cc /\
    Circumcircle.b_setter (fun _ => true) cc (Coordinate2D.new 1 0) = Ok cc' /\
    Circumcircle.center cc' = Circumcircle.center cc.
Proof.
  destruct (Circumcircle_init_Ok (fun _ => true) (Coordinate2D.new 0 0)
              (Coordinate2D.new 0 4) (Coordinate2D.new 3 0))
    as [cc H]; [ reflexivity | cbn; lra | ].
  destruct (vertex_setters_do_not_recalculate (fun _ => true) _ _ _
              (Coordinate2D.new 1 0) cc H) as [_ [Hb _]].
  exists cc. eexists. split; [ exact H | ]. split; [ exact Hb | reflexivity ].
Defined.

(** The circle is the circumscribed circle, whatever the order of the
    vertices.  On a constructed [Circumcircle] the center is the only
    point at one distance from the three input vertices, and the radius
    is that distance; constructing from the same vertices in another
    order gives the same center and the same radius.  The radius is
    positive. *)
Theorem circumcircle_is_unique
    (truth : Coordinate2D.t -> bool) (a b c : Coordinate2D.t)
    (cc : Circumcircle.t) :
  Circumcircle.__init__ truth a b c = Ok cc ->
  (forall p r, 0 <= r ->
     (forall v, In v [a; b; c] ->
        (Coordinate2D.x v - Coordinate2D.x p) ^ 2
        + (Coordinate2D.y v - Coordinate2D.y p) ^ 2 = r ^ 2) ->
     Circumcircle.center cc = p /\ Circumcircle.radius cc = r) /\
  (forall a' b' c' cc',
     Permutation [a'; b'; c'] [a; b; c] ->
     Circumcircle.__init__ truth a' b' c' = Ok cc' ->
     Circumcircle.center cc' = Circumcircle.center cc /\
     Circumcircle.radius cc' = Circumcircle.radius cc) /\
  0 < Circumcircle.radius cc.
Proof.
  intros H. split; [ | split ].
  - intros p r Hr Hp.
    now apply (Circumcircle_center_unique truth a b c p r cc).
  - intros a' b' c' cc' Hperm H'.
    destruct (Circumcircle_init_equidistant _ _ _ _ _ H) as [_ [Hr Hc]].
    apply (Circumcircle_center_unique truth a' b' c' _ _ cc' H' Hr).
    intros v Hv. apply Hc.
    now apply (Permutation_in v Hperm).
  - now apply (Circumcircle_radius_pos truth a b c).
Qed.

(** The witness is the right triangle of sides 3, 4 and 5: the center is
    the middle of the longest side and the radius is half its length. *)
Lemma circumcircle_is_unique_witness :
  exists cc,
    Circumcircle.__init__ (fun _ => true) (Coordinate2D.new 0 0)
      (Coordinate2D.new 0 4) (Coordinate2D.new 3 0) = Ok cc /\
    Circumcircle.center cc = Coordinate2D.new (3 / 2) 2 /\
    Circumcircle.radius cc = 5 / 2.
Proof.
  destruct (Circumcircle_init_Ok (fun _ => true) (Coordinate2D.new 0 0)
              (Coordinate2D.new 0 4) (Coordinate2D.new 3 0))
    as [cc H]; [ reflexivity | cbn; lra | ].
  exists cc. split; [ exact H | ].
  destruct (circumcircle_is_unique _ _ _ _ cc H) as [Hunique _].
  apply Hunique; [ lra | ].
  intros v [<- | [<- | [<- | []]]]; cbn [Coordinate2D.x Coordinate2D.y];
    field.
Defined.

(** ** Further properties: class [Line] *)

(** The slope is never stale.  On every line that a program can hold,
    whatever the calls of the setters, of [__setitem__], of [slope] and
    of [intersect] that led to it, [slope] raises [ZeroDivisionError] when
    the endpoints have the same [x], and otherwise returns the slope of
    the endpoints as they stand, leaving them as they are; reading the
    slope again returns the same number and changes nothing. *)
Theorem slope_is_never_stale (l : Line.t) :
  Line.reachable l ->
  (vertical l -> Line.slope l = Raise ZeroDivisionError) /\
  (~ vertical l ->
   exists l',
     Line.slope l
     = Ok ((coord_y (Line.b l) - coord_y (Line.a l))
           / (coord_x (Line.b l) - coord_x (Line.a l)), l') /\
     Line.a l' = Line.a l /\ Line.b l' = Line.b l /\ Line.reachable l' /\
     Line.slope l'
     = Ok ((coord_y (Line.b l) - coord_y (Line.a l))
           / (coord_x (Line.b l) - coord_x (Line.a l)), l')).
Proof.
  intros Hr. pose proof (reachable_coherent l Hr) as Hc. split.
  - intros Hv. now apply slope_vertical.
  - intros Hv.
    destruct (slope_not_vertical l Hc Hv) as [l' [E [Ha [Hb [Hg _]]]]].
    exists l'. split; [ exact E | ]. split; [ exact Ha | ].
    split; [ exact Hb | ].
    split; [ exact (Line.reach_slope l l' _ Hr E) | ].
    now apply slope_cached.
Qed.

(** The witness reads the slope of the line from [(0, 0)] to [(1, 1)],
    moves the endpoint [b] to [(1, 3)] and reads the slope again. *)
Lemma slope_is_never_stale_witness :
  exists l1 l2,
    Line.slope (Line.__init__ (mkCoordinate 0 0) (mkCoordinate 1 1))
    = Ok ((1 - 0) / (1 - 0), l1) /\
    Line.slope (Line.b_setter l1 (mkCoordinate 1 3))
    = Ok ((3 - 0) / (1 - 0), l2).
Proof.
  destruct (slope_is_never_stale
              (Line.__init__ (mkCoordinate 0 0) (mkCoordinate 1 1))
              (Line.reach_init _ _)) as [_ H1].
  destruct H1 as [l1 [E1 [Ha [Hb [Hr1 _]]]]];
    [ unfold vertical; cbn; lra | ].
  destruct (slope_is_never_stale (Line.b_setter l1 (mkCoordinate 1 3))
              (Line.reach_b_setter _ _ Hr1)) as [_ H2].
  unfold Line.a, Line.b in Ha. cbn in Ha.
  destruct H2 as [l2 [E2 _]];
    [ unfold vertical, Line.a, Line.b; cbn; rewrite Ha; cbn; lra | ].
  exists l1, l2. split; [ exact E1 | ].
  rewrite E2. unfold Line.a, Line.b. cbn [Line.b_setter Line._a Line._b].
  rewrite Ha. reflexivity.
Defined.



(** [intersect] does not depend on the order of the two lines: on lines
    that a program can hold, when [l.intersect(m)] returns, [m.intersect(l)]
    returns the same result, [None] or the same point, and leaves the two
    lines in the same state. *)
Theorem intersect_is_symmetric
    (l m l' m' : Line.t) (p : option Coordinate) :
  Line.reachable l -> Line.reachable m ->
  Line.intersect l m = Ok (p, l', m') ->
  Line.__mul__ m l = Ok (p, m', l').
Proof.
  intros Hl Hm H. unfold Line.__mul__.
  apply reachable_coherent in Hl, Hm.
  now apply intersect_sym.
Qed.

Lemma intersect_is_symmetric_witness :
  exists p l' m',
    Line.intersect (Line.__init__ (mkCoordinate 0 0) (mkCoordinate 1 1))
      (Line.__init__ (mkCoordinate 0 1) (mkCoordinate 1 0))
    = Ok (Some p, l', m') /\
    Line.__mul__ (Line.__init__ (mkCoordinate 0 1) (mkCoordinate 1 0))
      (Line.__init__ (mkCoordinate 0 0) (mkCoordinate 1 1))
    = Ok (Some p, m', l').
Proof.
  destruct (intersect_not_vertical
              (Line.__init__ (mkCoordinate 0 0) (mkCoordinate 1 1))
              (Line.__init__ (mkCoordinate 0 1) (mkCoordinate 1 0)))
    as [l' [m' [_ [_ [_ [_ [_ [_ [_ [_ E]]]]]]]]]];
    try (intros v Hv; discriminate); try (unfold vertical; cbn; lra).
  rewrite (proj2 (Reqb_false_iff _ _)) in E by (cbn; lra).
  eexists. exists l', m'. split; [ exact E | ].
  apply (intersect_is_symmetric _ _ _ _ _
           (Line.reach_init _ _) (Line.reach_init _ _) E).
Defined.

(** The endpoints by index.  [l[0] = v] and [l[1] = v] store the endpoint,
    which [l[0]] and [l[1]] then return, leave the other endpoint as it
    was and empty the cache; every other index, [-1] and [2] included,
    raises [IndexError], on reading as on writing, although [__len__] is
    2; [__iter__] yields [l[0]] and [l[1]], and [__reversed__] the same
    in the other order. *)
Theorem endpoints_by_index (l : Line.t) (v : Coordinate) :
  (exists l',
     Line.__setitem__ l 0 v = Ok l' /\
     Line.__getitem__ l' 0 = Ok v /\
     Line.__getitem__ l' 1 = Line.__getitem__ l 1 /\
     Line._properties l' = []) /\
  (exists l',
     Line.__setitem__ l 1 v = Ok l' /\
     Line.__getitem__ l' 1 = Ok v /\
     Line.__getitem__ l' 0 = Line.__getitem__ l 0 /\
     Line._properties l' = []) /\
  (forall i, i <> 0%Z -> i <> 1%Z ->
     Line.__getitem__ l i = Raise IndexError /\
     Line.__setitem__ l i v = Raise IndexError) /\
  (forall i, (0 <= i < Line.__len__ l)%Z ->
     Line.__getitem__ l i = Ok (nth (Z.to_nat i) (Line.__iter__ l) v)) /\
  Line.__reversed__ l = rev (Line.__iter__ l).
Proof.
  split; [ | split; [ | split; [ | split ] ] ].
  - eexists. split; [ reflexivity | ]. repeat split.
  - eexists. split; [ reflexivity | ]. repeat split.
  - intros i H0 H1. unfold Line.__getitem__, Line.__setitem__.
    destruct (Z.eqb_spec i 0) as [E | _]; [ contradiction | ].
    destruct (Z.eqb_spec i 1) as [E | _]; [ contradiction | ].
    split; reflexivity.
  - intros i Hi. unfold Line.__len__ in Hi. unfold Line.__getitem__.
    destruct (Z.eqb_spec i 0) as [-> | H0]; [ reflexivity | ].
    destruct (Z.eqb_spec i 1) as [-> | H1]; [ reflexivity | lia ].
  - reflexivity.
Qed.
